(** * Knight Moves 6 (Jane Street, October 2024): the solver, embedded and verified

    A shallow embedding of the class [PuzzleSolver] of
    [2024-10_knight-moves-6.py], and the properties of it that its
    specification states.

    Python integers are [Z]; tuples [(row, col)] are pairs of [Z]; a [str] is
    the list of its code points; the dictionaries [knight_moves] and
    [score_cache] are [gmap]s; the set [visited] is a [gset]; exceptions are
    the [Raise] outcome of a state-and-exception monad.  The attributes
    [target], [grid_values] and [knight_moves] are assigned once in
    [__init__] and never again: they are constants here.  [score_cache] is
    the only attribute that is mutated; it lives in the record [solver],
    next to the standard output and to a history of the invocations of
    [calculate_score].  The lists [path] and [visited] that the recursive
    calls of [dfs] share live in the record [search].

    The first part holds the program, then the definitions in which its
    properties are stated and proved; the second part holds the proofs. *)

From Stdlib Require Import ZArith Lia.
From stdpp Require Import gmap strings list pretty sorting.

Open Scope Z_scope.

(** ** Outcomes and the state-and-exception monad *)

Inductive exn :=
  IndexError | KeyError | ValueError | OverflowError | RecursionError.

Inductive outcome (A : Type) :=
| Ok (a : A)
| Raise (e : exn).
Arguments Ok {A} a.
Arguments Raise {A} e.

Module Out.
Definition bind {A B} (m : outcome A) (k : A → outcome B) : outcome B :=
  match m with
  | Ok a => k a
  | Raise e => Raise e
  end.

Fixpoint mapM {A B} (f : A → outcome B) (l : list A) : outcome (list B) :=
  match l with
  | [] => Ok []
  | x :: l' => bind (f x) (λ y, bind (mapM f l') (λ ys, Ok (y :: ys)))
  end.
End Out.

Notation "'try' x := m 'in' k" := (Out.bind m (λ x, k))
  (at level 10, x name, m at level 100, k at level 200,
   format "'[v' 'try'  x  :=  m  'in' '/' k ']'").

(** A computation over a mutable store [S] that returns an [A] or raises. *)
Definition M (S A : Type) : Type := S → outcome (A * S).

Module St.
Definition ret {S A} (a : A) : M S A := λ s, Ok (a, s).
Definition raise {S A} (e : exn) : M S A := λ _, Raise e.
Definition bind {S A B} (m : M S A) (k : A → M S B) : M S B :=
  λ s, match m s with
       | Ok (a, s') => k a s'
       | Raise e => Raise e
       end.
Definition gets {S A} (f : S → A) : M S A := λ s, Ok (f s, s).
Definition modify {S} (f : S → S) : M S unit := λ s, Ok (tt, f s).
(** A pure fallible step inside a stateful computation. *)
Definition pure {S A} (o : outcome A) : M S A :=
  λ s, match o with
       | Ok a => Ok (a, s)
       | Raise e => Raise e
       end.
End St.

Notation "'do' x <- m 'in' k" := (St.bind m (λ x, k))
  (at level 10, x name, m at level 100, k at level 200,
   format "'[v' 'do'  x  <-  m  'in' '/' k ']'").
Notation "'run' m 'in' k" := (St.bind m (λ _, k))
  (at level 10, m at level 100, k at level 200,
   format "'[v' 'run'  m  'in' '/' k ']'").

(** ** The grid *)

Definition position : Type := Z * Z.

(** The three labels ['A'], ['B'], ['C'] of [grid_values]. *)
Inductive cls := A | B | C.

Global Instance cls_eq_dec : EqDecision cls.
Proof. solve_decision. Defined.

Definition target : Z := 2024.

Definition grid_values : list (list cls) :=
  [ [A; B; B; C; C; C];
    [A; B; B; C; C; C];
    [A; A; B; B; C; C];
    [A; A; B; B; C; C];
    [A; A; A; B; B; C];
    [A; A; A; B; B; C] ].

(** [l[i]] on a Python list: a negative index counts from the end, anything
    outside [-len, len) raises [IndexError]. *)
Definition py_index {T} (l : list T) (i : Z) : outcome T :=
  let n := Z.of_nat (length l) in
  let j := if i <? 0 then i + n else i in
  if (0 <=? j) && (j <? n)
  then match l !! Z.to_nat j with
       | Some x => Ok x
       | None => Raise IndexError
       end
  else Raise IndexError.

(** [range(a, b)]. *)
Definition range (a b : Z) : list Z := seqZ a (b - a).

(** [self.grid_values[p[0]][p[1]]]. *)
Definition cell_class (p : position) : outcome cls :=
  try row := py_index grid_values p.1 in
  py_index row p.2.

Definition path_classes (path : list position) : outcome (list cls) :=
  Out.mapM cell_class path.

Definition in_grid (p : position) : Prop := 0 ≤ p.1 < 6 ∧ 0 ≤ p.2 < 6.

Global Instance in_grid_dec p : Decision (in_grid p).
Proof. unfold in_grid. apply _. Defined.

(** ** MoveGraph: [_precompute_knight_moves] *)

Definition knight_deltas : list (Z * Z) :=
  [(2,1); (2,-1); (-2,1); (-2,-1); (1,2); (1,-2); (-1,2); (-1,-2)].

Definition _precompute_knight_moves : gmap position (list position) :=
  foldl (λ moves i,
    foldl (λ moves j,
      let valid :=
        foldl (λ valid '(dx, dy),
          let new_x := i + dx in
          let new_y := j + dy in
          if bool_decide (0 ≤ new_x < 6 ∧ 0 ≤ new_y < 6)
          then valid ++ [(new_x, new_y)]
          else valid) [] knight_deltas in
      <[(i, j) := valid]> moves) moves (range 0 6)) ∅ (range 0 6).

Definition knight_moves : gmap position (list position) := _precompute_knight_moves.

(** [d[k]] on a dictionary: a missing key raises [KeyError]. *)
Definition py_getitem `{Countable K} {V} (d : gmap K V) (k : K) : outcome V :=
  match d !! k with
  | Some v => Ok v
  | None => Raise KeyError
  end.

(** The in-bounds knight destinations of [p], as the specification words them:
    the eight offsets applied to [p], those inside the grid retained. *)
Definition knight_destinations (p : position) : list position :=
  filter in_grid (map (λ d : Z * Z, (p.1 + d.1, p.2 + d.2)) knight_deltas).

Definition grid_positions : list position :=
  i ← range 0 6; j ← range 0 6; [(i, j)].

(** ** Weights: the dictionary [values = {'A': A, 'B': B, 'C': C}] *)

Record weights := Weights { weight_A : Z; weight_B : Z; weight_C : Z }.

Global Instance weights_eq_dec : EqDecision weights.
Proof. solve_decision. Defined.

(** [values[k]] for one of the three labels. *)
Definition weight (values : weights) (k : cls) : Z :=
  match k with
  | A => weight_A values
  | B => weight_B values
  | C => weight_C values
  end.

(** ** The solver object *)

(** One invocation of [calculate_score], as the history records it: the
    arguments and the content of [score_cache] on entry. *)
Record call := Call {
  call_path : list position;
  call_values : weights;
  call_cache : gmap (list position) Z
}.

(** [score_cache] is the attribute of the Python object, keyed by
    [tuple(path)].  [stdout] holds the lines printed so far, oldest first.
    [score_calls] is a history variable, absent from the Python object: it
    lists the invocations of [calculate_score], newest first, and no
    computation reads it. *)
Record solver := Solver {
  score_cache : gmap (list position) Z;
  stdout : list (list Z);
  score_calls : list call
}.

Definition set_cache (f : gmap (list position) Z → gmap (list position) Z)
    (slf : solver) : solver :=
  Solver (f (score_cache slf)) (stdout slf) (score_calls slf).

Definition record_call (path : list position) (values : weights)
    (slf : solver) : solver :=
  Solver (score_cache slf) (stdout slf)
         (Call path values (score_cache slf) :: score_calls slf).

(** [PuzzleSolver()] : the object after [__init__]. *)
Definition PuzzleSolver : solver := Solver ∅ [] [].

(** ** ScoreFunction: [calculate_score] *)

(** The loop [for i in range(1, len(path))] of [calculate_score], with the
    running [score]; both exits of the Python loop store and return the
    score they reach, so the loop yields that score. *)
Fixpoint score_loop (path : list position) (values : weights)
    (indices : list Z) (score : Z) : outcome Z :=
  match indices with
  | [] => Ok score
  | i :: indices' =>
      try path_i := py_index path i in
      try curr_val := cell_class path_i in
      try path_i1 := py_index path (i - 1) in
      try prev_val := cell_class path_i1 in
      let curr_num := weight values curr_val in
      let score :=
        if decide (curr_val = prev_val) then score + curr_num
        else score * curr_num in
      if score >? target then Ok score
      else score_loop path values indices' score
  end.

(** Lines 40 to 58 without the two stores into the cache. *)
Definition compute_score (path : list position) (values : weights) : outcome Z :=
  try path_0 := py_index path 0 in
  try first_val := cell_class path_0 in
  score_loop path values (range 1 (Z.of_nat (length path)))
             (weight values first_val).

Definition calculate_score (path : list position) (values : weights)
    : M solver Z :=
  run St.modify (record_call path values) in
  do cache <- St.gets score_cache in
  match cache !! path with
  | Some cached => St.ret cached
  | None =>
      do score <- St.pure (compute_score path values) in
      run St.modify (set_cache <[path := score]>) in
      St.ret score
  end.

(** ** PathSearch: [find_path] and its inner [dfs] *)

(** The two mutable objects [path] and [visited] that one round of
    [find_path] creates and every recursive call of [dfs] shares, next to the
    solver object. *)
Record search := Search {
  path : list position;
  visited : gset position;
  self : solver
}.

Definition on_self {T} (m : M solver T) : M search T :=
  λ s, match m (self s) with
       | Ok (a, slf) => Ok (a, Search (path s) (visited s) slf)
       | Raise e => Raise e
       end.

(** [path.append(x)], [path.pop()], [visited.add(x)], [visited.remove(x)]. *)
Definition path_append (x : position) : M search unit :=
  St.modify (λ s, Search (path s ++ [x]) (visited s) (self s)).

Definition path_pop : M search unit :=
  λ s, match path s with
       | [] => Raise IndexError
       | _ :: _ => Ok (tt, Search (removelast (path s)) (visited s) (self s))
       end.

Definition visited_add (x : position) : M search unit :=
  St.modify (λ s, Search (path s) ({[x]} ∪ visited s) (self s)).

Definition visited_remove (x : position) : M search unit :=
  λ s, if decide (x ∈ visited s)
       then Ok (tt, Search (path s) (visited s ∖ {[x]}) (self s))
       else Raise KeyError.

(** Truth value of [result] in [if result:], where [result] is [None] or a
    list: only a non-empty list is true. *)
Definition truthy {T} (result : option (list T)) : bool :=
  match result with
  | Some (_ :: _) => true
  | _ => false
  end.

(** The loop [for next_pos in self.knight_moves[pos]] of [dfs]; [dfs_next]
    is the recursive call [dfs(next_pos, path, visited, depth + 1, max_depth)]. *)
Fixpoint dfs_moves (dfs_next : position → M search (option (list position)))
    (moves : list position) : M search (option (list position)) :=
  match moves with
  | [] => St.ret None
  | next_pos :: moves' =>
      do seen <- St.gets visited in
      if decide (next_pos ∉ seen) then
        run path_append next_pos in
        run visited_add next_pos in
        do result <- dfs_next next_pos in
        if truthy result then St.ret result
        else
          run visited_remove next_pos in
          run path_pop in
          dfs_moves dfs_next moves'
      else dfs_moves dfs_next moves'
  end.

(** [dfs].  [fuel] is the number of stack frames left to the interpreter:
    Python raises [RecursionError] when they run out.  A successful call
    returns the list object [path] itself; the model returns its content at
    that moment, and no statement is executed between that [return] and the
    [return] of [find_path]. *)
Fixpoint dfs (fuel : nat) (end_ : position) (values : weights)
    (pos : position) (depth max_depth : Z)
    : M search (option (list position)) :=
  match fuel with
  | O => St.raise RecursionError
  | S fuel' =>
      if depth >? max_depth then St.ret None
      else if decide (pos = end_) then
        do the_path <- St.gets path in
        do score <- on_self (calculate_score the_path values) in
        if score =? target then St.ret (Some the_path) else St.ret None
      else
        do the_path <- St.gets path in
        do curr_score <- on_self (calculate_score the_path values) in
        if curr_score >? target then St.ret None
        else
          do moves <- St.pure (py_getitem knight_moves pos) in
          dfs_moves
            (λ next_pos, dfs fuel' end_ values next_pos (depth + 1) max_depth)
            moves
  end.

(** The default of [sys.getrecursionlimit()]. *)
Definition recursion_limit : nat := 1000.

(** The loop [for max_depth in range(4, 12)] of [find_path]. *)
Fixpoint find_path_rounds (start end_ : position) (values : weights)
    (depths : list Z) : M solver (option (list position)) :=
  match depths with
  | [] => St.ret None
  | max_depth :: depths' =>
      λ slf,
        match dfs recursion_limit end_ values start 0 max_depth
                  (Search [start] {[start]} slf)
              return outcome (option (list position) * solver) with
        | Ok (result, s) =>
            if truthy result then Ok (result, self s)
            else find_path_rounds start end_ values depths' (self s)
        | Raise e => Raise e
        end
  end.

Definition find_path (start end_ : position) (values : weights)
    : M solver (option (list position)) :=
  find_path_rounds start end_ values (range 4 12).

(** ** OutputFormatter: [format_path] and [format_solution] *)

(** A Python [str] is a sequence of Unicode code points. *)
Definition lit (s : string) : list Z :=
  (λ a, Z.of_N (Ascii.N_of_ascii a)) <$> String.list_ascii_of_string s.

(** [chr(i)]: the argument is converted to a C [int] first, which raises
    [OverflowError] outside [-2**31, 2**31); then [ValueError] outside
    [range(0x110000)]. *)
Definition chr (i : Z) : outcome (list Z) :=
  if decide (0 ≤ i < 1114112) then Ok [i]
  else if decide (-2147483648 ≤ i < 2147483648) then Raise ValueError
  else Raise OverflowError.

(** [str(n)] for an integer, as an f-string renders [{n}].  The interpreter
    refuses to convert an integer of more than 4300 digits (the default of
    [sys.set_int_max_str_digits]); the model leaves this limit out: the rows
    of the grid and the weights of [solve] are far below it. *)
Definition str_int (n : Z) : list Z := lit (pretty n).

(** [sep.join(parts)]. *)
Fixpoint join (sep : list Z) (parts : list (list Z)) : list Z :=
  match parts with
  | [] => []
  | part :: parts' =>
      match parts' with
      | [] => part
      | _ :: _ => part ++ sep ++ join sep parts'
      end
  end.

Definition format_path (path : list position) : outcome (list Z) :=
  try tokens :=
    Out.mapM (λ '(x, y), try letter := chr (97 + y) in
                         Ok (letter ++ str_int (6 - x))) path in
  Ok (join (lit ",") tokens).

Definition format_solution (A B C : Z) (path1 path2 : list position)
    : outcome (list Z) :=
  try formatted1 := format_path path1 in
  try formatted2 := format_path path2 in
  Ok (str_int A ++ lit "," ++ str_int B ++ lit "," ++ str_int C ++ lit ","
      ++ formatted1 ++ lit "," ++ formatted2).

(** ** ParameterOptimizer: [solve] *)

(** [best_sum] starts as [float('inf')] and holds an integer afterwards. *)
Inductive bound := inf | fin (n : Z).

(** [x >= b]. *)
Definition ge_bound (x : Z) (b : bound) : bool :=
  match b with
  | inf => false
  | fin n => n <=? x
  end.

(** The local variables of [solve] that its loops assign, next to the solver
    object. *)
Record locals := Locals {
  best_sum : bound;
  best_solution : option (Z * Z * Z * list position * list position);
  this : solver
}.

Definition on_this {T} (m : M solver T) : M locals T :=
  λ l, match m (this l) with
       | Ok (a, slf) => Ok (a, Locals (best_sum l) (best_solution l) slf)
       | Raise e => Raise e
       end.

(** [print(line)]. *)
Definition print (line : list Z) : M solver unit :=
  St.modify (λ slf,
    Solver (score_cache slf) (stdout slf ++ [line]) (score_calls slf)).

(** How the body of a [for] loop ends: by falling through or [continue]
    ([Next]), or by [break]. *)
Inductive flow := Next | Break.

Fixpoint for_each {S T} (items : list T) (body : T → M S flow) : M S unit :=
  match items with
  | [] => St.ret tt
  | item :: items' =>
      do ended <- body item in
      match ended with
      | Break => St.ret tt
      | Next => for_each items' body
      end
  end.

(** Lines 118 to 142: the body of the loop over [C]. *)
Definition solve_body (A B C : Z) : M locals flow :=
  let curr_sum := A + B + C in
  do best <- St.gets best_sum in
  if ge_bound curr_sum best then St.ret Next
  else
    let values := Weights A B C in
    run on_this (St.modify (set_cache (λ _, ∅))) in
    do path1 <- on_this (find_path (5, 0) (0, 5) values) in
    match path1 with
    | Some ((_ :: _) as path1) =>
        do path2 <- on_this (find_path (0, 0) (5, 5) values) in
        match path2 with
        | Some ((_ :: _) as path2) =>
            run St.modify (λ l,
              Locals (fin curr_sum) (Some (A, B, C, path1, path2)) (this l)) in
            run on_this
              (print (lit "Found solution with sum " ++ str_int curr_sum)) in
            if curr_sum <? 20 then
              do formatted <-
                St.pure (format_solution A B C path1 path2) in
              run on_this
                (print (lit "Good solution: " ++ lit " " ++ formatted)) in
              St.ret Next
            else St.ret Next
        | _ => St.ret Next
        end
    | _ => St.ret Next
    end.

(** The three nested loops of [solve]. *)
Definition solve_loops : M locals unit :=
  for_each (range 1 20) (λ A,
    if A >? target then St.ret Break
    else
      run for_each (range (A + 1) 30) (λ B,
        if A * B >? target then St.ret Break
        else
          run for_each (range (B + 1) (50 - A - B)) (solve_body A B) in
          St.ret Next) in
      St.ret Next).

Definition solve : M solver (list Z) :=
  λ slf,
    match solve_loops (Locals inf None slf)
          return outcome (list Z * solver) with
    | Ok (_, l) =>
        match best_solution l with
        | Some (a, b, c, path1, path2) =>
            match format_solution a b c path1 path2 with
            | Ok formatted => Ok (formatted, this l)
            | Raise e => Raise e
            end
        | None => Ok (lit "No solution found", this l)
        end
    | Raise e => Raise e
    end.

(** [main]: the lines the program prints. *)
Definition main : outcome (list (list Z)) :=
  match (do solution <- solve in print (lit "Solution: " ++ solution))
          PuzzleSolver return outcome (list (list Z)) with
  | Ok (_, slf) => Ok (stdout slf)
  | Raise e => Raise e
  end.

(** * Definitions for the statements and the proofs *)

(** ** The score fold, as the specification words it *)

(** One step of the fold: add the weight when the class is that of the
    previous position, multiply by it otherwise. *)
Definition combine (values : weights) (prev : cls) (score : Z) (cur : cls) : Z :=
  if decide (cur = prev) then score + weight values cur
  else score * weight values cur.

(** The exact fold over the classes that follow [prev]. *)
Fixpoint fold_from (values : weights) (prev : cls) (score : Z)
    (rest : list cls) : Z :=
  match rest with
  | [] => score
  | cur :: rest' => fold_from values cur (combine values prev score cur) rest'
  end.

(** The fold that returns as soon as a step takes the running score above the
    target. *)
Fixpoint fold_from_early (values : weights) (prev : cls) (score : Z)
    (rest : list cls) : Z :=
  match rest with
  | [] => score
  | cur :: rest' =>
      let score' := combine values prev score cur in
      if score' >? target then score'
      else fold_from_early values cur score' rest'
  end.

Definition exact_score (path : list position) (values : weights) : outcome Z :=
  try classes := path_classes path in
  match classes with
  | [] => Raise IndexError
  | first :: rest => Ok (fold_from values first (weight values first) rest)
  end.

Definition early_score (path : list position) (values : weights) : outcome Z :=
  try classes := path_classes path in
  match classes with
  | [] => Raise IndexError
  | first :: rest => Ok (fold_from_early values first (weight values first) rest)
  end.

Definition positive (values : weights) : Prop :=
  0 < weight_A values ∧ 0 < weight_B values ∧ 0 < weight_C values.

(** What a computation returns, its final store left out. *)
Definition result {S T} (o : outcome (T * S)) : outcome T :=
  match o with
  | Ok (a, _) => Ok a
  | Raise e => Raise e
  end.

(** Every entry of the cache is the score that [calculate_score] computes
    for its path under [values]. *)
Definition fresh_for (values : weights) (cache : gmap (list position) Z) : Prop :=
  ∀ p s, cache !! p = Some s → compute_score p values = Ok s.

(** A scoring oracle: what [calculate_score] answers for a path. *)
Definition scorer : Type := list position → outcome Z.

(** The oracle that computes every score afresh. *)
Definition computed (values : weights) : scorer :=
  λ p, compute_score p values.

(** The oracle of a solver whose cache is [cache]: the entry of the cache
    where there is one, the computed score elsewhere. *)
Definition cached_scorer (values : weights) (cache : gmap (list position) Z)
    : scorer :=
  λ p, match cache !! p with
       | Some s => Ok s
       | None => compute_score p values
       end.

(** [cache] answers as [score] does where it has an entry, and [score] is
    the computed score where it has none. *)
Definition agrees (score : scorer) (values : weights)
    (cache : gmap (list position) Z) : Prop :=
  ∀ p, score p = cached_scorer values cache p.

(** ** Paths of the knight-move graph *)

Definition edge (p q : position) : Prop :=
  ∃ moves, knight_moves !! p = Some moves ∧ q ∈ moves.

Definition knight_walk (l : list position) : Prop :=
  ∀ l1 p q l2, l = l1 ++ p :: q :: l2 → edge p q.

(** A simple knight path from [start] to [end_] of at most [moves] knight
    moves whose exact score is the target. *)
Definition qualifying (start end_ : position) (values : weights) (moves : Z)
    (q : list position) : Prop :=
  head q = Some start ∧ last q = Some end_ ∧ NoDup q ∧ knight_walk q ∧
  Z.of_nat (length q) ≤ moves + 1 ∧ exact_score q values = Ok target.

(** ** The search without store: a functional reading of [dfs]

    The same traversal on an immutable path, with a scoring oracle in the
    place of [calculate_score] and its cache, and membership in the path for
    the visited test. *)

Fixpoint pure_moves (next : position → outcome (option (list position)))
    (the_path : list position) (moves : list position)
    : outcome (option (list position)) :=
  match moves with
  | [] => Ok None
  | next_pos :: moves' =>
      if decide (next_pos ∈ the_path) then pure_moves next the_path moves'
      else
        try found := next next_pos in
        if truthy found then Ok found
        else pure_moves next the_path moves'
  end.

Fixpoint pure_dfs (fuel : nat) (end_ : position) (score : scorer)
    (the_path : list position) (pos : position) (depth max_depth : Z)
    : outcome (option (list position)) :=
  match fuel with
  | O => Raise RecursionError
  | S fuel' =>
      if depth >? max_depth then Ok None
      else if decide (pos = end_) then
        try the_score := score the_path in
        if the_score =? target then Ok (Some the_path) else Ok None
      else
        try curr_score := score the_path in
        if curr_score >? target then Ok None
        else
          try moves := py_getitem knight_moves pos in
          pure_moves
            (λ next_pos, pure_dfs fuel' end_ score (the_path ++ [next_pos])
                                  next_pos (depth + 1) max_depth)
            the_path moves
  end.

Fixpoint pure_rounds (start end_ : position) (score : scorer)
    (depths : list Z) : outcome (option (list position)) :=
  match depths with
  | [] => Ok None
  | max_depth :: depths' =>
      try found := pure_dfs recursion_limit end_ score [start] start 0 max_depth in
      if truthy found then Ok found
      else pure_rounds start end_ score depths'
  end.

(** The scoring loop on the positions themselves, classes looked up as the
    loop reaches them. *)
Fixpoint score_tail (values : weights) (prev : position)
    (rest : list position) (score : Z) : outcome Z :=
  match rest with
  | [] => Ok score
  | cur :: rest' =>
      try curr_val := cell_class cur in
      try prev_val := cell_class prev in
      let score' := combine values prev_val score curr_val in
      if score' >? target then Ok score'
      else score_tail values cur rest' score'
  end.

(** The calls [added] to a history are all made under [values], each on a
    cache that agrees with [score]. *)
Definition calls_under (score : scorer) (values : weights)
    (added : list call) : Prop :=
  Forall (λ c, call_values c = values ∧ agrees score values (call_cache c))
         added.

(** ** The coordinate notation, as the specification words it *)

Definition alphabet : string := "abcdefghijklmnopqrstuvwxyz".

(** The letter at index [col] of the alphabet, counted from ['a']. *)
Definition letter (col : Z) : list Z :=
  match String.get (Z.to_nat col) alphabet with
  | Some a => lit (String a EmptyString)
  | None => []
  end.

(** The token of a position: its column letter, then 6 minus its row. *)
Definition token (p : position) : list Z := letter p.2 ++ str_int (6 - p.1).

(** ** The search on the store against the search without store *)

(** What holds of the store when [dfs] is entered: the path is not empty,
    [visited] is the set of its positions, and the cache agrees with the
    oracle. *)
Definition search_pre (score : scorer) (values : weights) (s : search) : Prop :=
  path s ≠ [] ∧ visited s = list_to_set (path s) ∧
  agrees score values (score_cache (self s)).

(** What holds when it returns [r] from store [s] in store [s']: a found path
    is the content of the list [path]; after a failure [path] is as it was;
    [visited] is again the set of the positions of [path]; the cache still
    agrees with the oracle, nothing was printed, and the calls added to the
    history were made under [values] on caches that agree with it. *)
Definition search_post (score : scorer) (values : weights) (s s' : search)
    (r : option (list position)) : Prop :=
  visited s' = list_to_set (path s') ∧
  (if truthy r then r = Some (path s') else path s' = path s) ∧
  agrees score values (score_cache (self s')) ∧
  stdout (self s') = stdout (self s) ∧
  ∃ added, score_calls (self s') = added ++ score_calls (self s) ∧
           calls_under score values added.

Definition simulates (score : scorer) (values : weights) (s : search)
    (o : outcome (option (list position) * search))
    (p : outcome (option (list position))) : Prop :=
  match p with
  | Ok r => ∃ s', o = Ok (r, s') ∧ search_post score values s s' r
  | Raise e => o = Raise e
  end.

(** ** A run of [find_path] *)

(** What [find_path] returns from (0,0) to (2,1) under the weights 1012,
    1013 and 1014 on a new solver object, evaluated. *)
Definition run_0_0_2_1 : outcome (option (list position) * solver) :=
  Eval vm_compute in
    find_path (0, 0) (2, 1) (Weights 1012 1013 1014) PuzzleSolver.

(** ** The optimizer, as the specification words it *)

(** Both searches of [solve] succeed under [values], each started on an
    empty cache, with the paths [p1] and [p2]. *)
Definition both_found (values : weights) (p1 p2 : list position) : Prop :=
  result (find_path (5, 0) (0, 5) values PuzzleSolver) = Ok (Some p1) ∧
  result (find_path (0, 0) (5, 5) values PuzzleSolver) = Ok (Some p2).

Definition succeeds (values : weights) : Prop :=
  ∃ p1 p2, both_found values p1 p2.

(** The pruned enumeration space: [A] in [1,20) up to the first [A] above the
    target, [B] in (A,30) up to the first [B] with [A * B] above the target,
    [C] in (B, 50 - A - B). *)
Definition in_space (A B C : Z) : Prop :=
  (1 ≤ A < 20 ∧ A ≤ target) ∧ (A < B < 30 ∧ A * B ≤ target) ∧
  B < C < 50 - A - B.

(** The triples of the space in the order of the three loops. *)
Definition triples : list (Z * Z * Z) :=
  A ← range 1 20; B ← range (A + 1) 30; C ← range (B + 1) (50 - A - B);
  [(A, B, C)].

Definition triple_weights (t : Z * Z * Z) : weights :=
  Weights t.1.1 t.1.2 t.2.

Definition triple_sum (t : Z * Z * Z) : Z := t.1.1 + t.1.2 + t.2.

(** The body of the innermost loop on a triple. *)
Definition solve_triple (t : Z * Z * Z) : M locals flow :=
  solve_body t.1.1 t.1.2 t.2.

(** In a history, newest call first: every call either has the weights of
    the call before it, or sees an empty cache; the first call of all sees an
    empty cache. *)
Fixpoint cleared_on_switch (calls : list call) : Prop :=
  match calls with
  | [] => True
  | c :: earlier =>
      match earlier with
      | [] => call_cache c = ∅
      | before :: _ =>
          call_values c ≠ call_values before → call_cache c = ∅
      end ∧ cleared_on_switch earlier
  end.

(** The calls are made under weight triples of the space, each on a cache
    that is fresh for the weights of the call. *)
Definition calls_in_space (calls : list call) : Prop :=
  Forall (λ c, (∃ A B C, in_space A B C ∧ call_values c = Weights A B C) ∧
               fresh_for (call_values c) (call_cache c)) calls.

(** The invariant of the loops of [solve] once the triples [done] have been
    handled, for a solver whose history on entry was [log0]. *)
Definition solve_inv (log0 : list call) (done : list (Z * Z * Z))
    (l : locals) : Prop :=
  match best_solution l with
  | None =>
      best_sum l = inf ∧ ∀ t, t ∈ done → ¬ succeeds (triple_weights t)
  | Some (a, b, c, p1, p2) =>
      best_sum l = fin (a + b + c) ∧ (a, b, c) ∈ done ∧
      both_found (Weights a b c) p1 p2 ∧
      ∀ t, t ∈ done → succeeds (triple_weights t) → a + b + c ≤ triple_sum t
  end ∧
  ∃ added, score_calls (this l) = added ++ log0 ∧
           calls_in_space added ∧ cleared_on_switch added ∧
           (done = [] ∨ added ≠ []).

(** ** A run of [dfs] that fails *)

(** [dfs] from (0,0) towards (5,5) with maximum depth 1 under the weights
    1012, 1013 and 1014, on a new solver object, evaluated: the corner is out
    of reach and the call returns [None]. *)
Definition run_dfs_out_of_reach
    : outcome (option (list position) * search) :=
  Eval vm_compute in
    dfs 5 (5, 5) (Weights 1012 1013 1014) (0, 0) 0 1
        (Search [(0, 0)] {[(0, 0)]} PuzzleSolver).

(** ** What [solve] prints and returns, as a function of the enumeration *)

(** A value of [best_solution]: the tuple [(A, B, C, path1, path2)]. *)
Definition solution : Type := Z * Z * Z * list position * list position.

Definition solution_sum (s : solution) : Z :=
  let '(a, b, c, _, _) := s in a + b + c.

(** The two searches of the body under the weights of [t], each on an empty
    cache: the tuple the body records when both return a path. *)
Definition attempt (t : Z * Z * Z) : option solution :=
  match result (find_path (5, 0) (0, 5) (triple_weights t) PuzzleSolver),
        result (find_path (0, 0) (5, 5) (triple_weights t) PuzzleSolver)
        return option solution with
  | Ok (Some ((_ :: _) as p1)), Ok (Some ((_ :: _) as p2)) =>
      Some (t.1.1, t.1.2, t.2, p1, p2)
  | _, _ => None
  end.

(** One turn of the innermost loop on the pair of [best_sum] and of the
    solutions recorded so far, oldest first. *)
Definition improve (st : bound * list solution) (t : Z * Z * Z)
    : bound * list solution :=
  if ge_bound (triple_sum t) st.1 then st
  else match attempt t with
       | Some s => (fin (triple_sum t), st.2 ++ [s])
       | None => st
       end.

(** The solutions that the loops record over the triples [ts], in turn. *)
Definition improvements (ts : list (Z * Z * Z)) : list solution :=
  (foldl improve (inf, []) ts).2.

(** The lines printed when a solution is recorded. *)
Definition progress (s : solution) : list (list Z) :=
  let '(a, b, c, p1, p2) := s in
  (lit "Found solution with sum " ++ str_int (a + b + c)) ::
  if a + b + c <? 20 then
    match format_solution a b c p1 p2 with
    | Ok formatted => [lit "Good solution: " ++ lit " " ++ formatted]
    | Raise _ => []
    end
  else [].

(** The string returned for the last solution recorded, if any. *)
Definition answer (best : option solution) : outcome (list Z) :=
  match best with
  | Some (a, b, c, p1, p2) => format_solution a b c p1 p2
  | None => Ok (lit "No solution found")
  end.

(** Each solution of the list has a smaller sum than the one before it. *)
Definition improving (l : list solution) : Prop :=
  ∀ (i : nat) s s', l !! i = Some s → l !! S i = Some s' →
                    solution_sum s' < solution_sum s.

(** The locals of [solve] once the loops have handled the triples [done],
    for a solver that had printed [out0] on entry. *)
Definition output_inv (out0 : list (list Z)) (done : list (Z * Z * Z))
    (l : locals) : Prop :=
  let st := foldl improve (inf, []) done in
  best_sum l = st.1 ∧ best_solution l = last st.2 ∧
  stdout (this l) = out0 ++ (st.2 ≫= progress).

(** The last solution recorded over [ts] and the place of its triple: the
    triples before it that succeed have a larger sum, those after it a sum
    that is not smaller. *)
Definition first_best (ts : list (Z * Z * Z)) (s : solution) : Prop :=
  ∃ pre t post,
    ts = pre ++ t :: post ∧ attempt t = Some s ∧
    (∀ t', t' ∈ pre → attempt t' ≠ None → triple_sum t < triple_sum t') ∧
    (∀ t', t' ∈ post → attempt t' ≠ None → triple_sum t ≤ triple_sum t').

(** The order of the enumeration: by [A], then by [B], then by [C]. *)
Definition triple_lt (t t' : Z * Z * Z) : Prop :=
  t.1.1 < t'.1.1 ∨
  (t.1.1 = t'.1.1 ∧ (t.1.2 < t'.1.2 ∨ (t.1.2 = t'.1.2 ∧ t.2 < t'.2))).

Global Instance triple_lt_dec t t' : Decision (triple_lt t t').
Proof. unfold triple_lt. apply _. Defined.

(** * Properties *)

(** ** MoveGraph *)

Lemma in_grid_positions (p : position) : in_grid p ↔ p ∈ grid_positions.
Proof.
  destruct p as [i j]. unfold in_grid. simpl. split.
  - intros [Hi Hj].
    assert (Hc : i = 0 ∨ i = 1 ∨ i = 2 ∨ i = 3 ∨ i = 4 ∨ i = 5) by lia.
    assert (Hd : j = 0 ∨ j = 1 ∨ j = 2 ∨ j = 3 ∨ j = 4 ∨ j = 5) by lia.
    destruct Hc as [->|[->|[->|[->|[->| ->]]]]];
      destruct Hd as [->|[->|[->|[->|[->| ->]]]]];
      apply (bool_decide_unpack _); vm_compute; exact I.
  - intros Hin. apply list_elem_of_In in Hin. vm_compute in Hin.
    repeat (destruct Hin as [Hin | Hin]; [ inversion Hin; lia | ]).
    destruct Hin.
Qed.

Lemma in_grid_cases (p : position) :
  in_grid p →
  ∃ i j, p = (i, j) ∧ (i = 0 ∨ i = 1 ∨ i = 2 ∨ i = 3 ∨ i = 4 ∨ i = 5) ∧
         (j = 0 ∨ j = 1 ∨ j = 2 ∨ j = 3 ∨ j = 4 ∨ j = 5).
Proof.
  destruct p as [i j]. unfold in_grid. simpl. intros [Hi Hj].
  exists i, j. split; [reflexivity | split; lia].
Qed.

(** Every case of a statement over the 36 positions of the grid. *)
Ltac grid_cases H :=
  let i := fresh "i" in
  let j := fresh "j" in
  let Hi := fresh "Hi" in
  let Hj := fresh "Hj" in
  apply in_grid_cases in H;
  destruct H as (i & j & -> & Hi & Hj);
  destruct Hi as [->|[->|[->|[->|[->| ->]]]]];
  destruct Hj as [->|[->|[->|[->|[->| ->]]]]].

Lemma knight_moves_lookup (p : position) :
  in_grid p → knight_moves !! p = Some (knight_destinations p).
Proof. intros H. grid_cases H; vm_compute; reflexivity. Qed.

Lemma knight_moves_dom : dom knight_moves = list_to_set grid_positions.
Proof. vm_compute. reflexivity. Qed.

Lemma knight_moves_outside (p : position) :
  ¬ in_grid p → knight_moves !! p = None.
Proof.
  intros H. apply not_elem_of_dom. rewrite knight_moves_dom.
  rewrite elem_of_list_to_set, <- in_grid_positions. exact H.
Qed.

Lemma knight_destinations_spec (p q : position) :
  q ∈ knight_destinations p ↔
  ∃ d, d ∈ knight_deltas ∧ q = (p.1 + d.1, p.2 + d.2) ∧ in_grid q.
Proof.
  unfold knight_destinations. rewrite list_elem_of_filter, list_elem_of_fmap.
  split.
  - intros [Hq (d & -> & Hd)]. exists d. auto.
  - intros (d & Hd & -> & Hq). split; [exact Hq | exists d; auto].
Qed.

Lemma knight_destinations_in_grid (p : position) :
  Forall in_grid (knight_destinations p).
Proof.
  apply Forall_forall. intros q Hq.
  apply knight_destinations_spec in Hq. destruct Hq as (d & _ & _ & Hq).
  exact Hq.
Qed.

Lemma edge_in_grid (p q : position) : edge p q → in_grid p ∧ in_grid q.
Proof.
  intros (moves & Hm & Hq).
  destruct (decide (in_grid p)) as [Hp | Hp].
  - split; [exact Hp |]. rewrite knight_moves_lookup in Hm by exact Hp.
    injection Hm as <-.
    exact (proj1 (Forall_forall _ _) (knight_destinations_in_grid p) q Hq).
  - rewrite knight_moves_outside in Hm by exact Hp. discriminate.
Qed.

(** C6. For every position of the 6x6 grid the precomputed table holds the
    list of its in-bounds knight destinations: the positions [p + d], with
    [d] one of the eight knight offsets, that lie inside the grid, and no
    other.  The neighbours of (0,0) are exactly (1,2) and (2,1), and (2,2)
    has 8 neighbours. *)
Theorem knight_moves_exact :
  (∀ p : position, in_grid p →
     knight_moves !! p = Some (knight_destinations p) ∧
     NoDup (knight_destinations p) ∧
     ∀ q, q ∈ knight_destinations p ↔
          ∃ d, d ∈ knight_deltas ∧ q = (p.1 + d.1, p.2 + d.2) ∧ in_grid q) ∧
  (∃ moves, knight_moves !! (0, 0) = Some moves ∧
            ∀ q, q ∈ moves ↔ q = (1, 2) ∨ q = (2, 1)) ∧
  (∃ moves, knight_moves !! (2, 2) = Some moves ∧ length moves = 8%nat).
Proof.
  split; [| split].
  - intros p Hp. split; [exact (knight_moves_lookup p Hp) | split].
    + grid_cases Hp; apply (bool_decide_unpack _); vm_compute; exact I.
    + intros q. apply knight_destinations_spec.
  - exists [(2, 1); (1, 2)]. split; [vm_compute; reflexivity |].
    intros q. rewrite !elem_of_cons, elem_of_nil. tauto.
  - eexists. split; [vm_compute; reflexivity | reflexivity].
Qed.

Lemma knight_moves_exact_witness :
  in_grid (3, 3) ∧
  knight_moves !! (3, 3) = Some (knight_destinations (3, 3)).
Proof.
  split.
  - unfold in_grid. simpl. lia.
  - apply (proj1 knight_moves_exact (3, 3)). unfold in_grid. simpl. lia.
Defined.

(** ** OutputFormatter *)

Lemma chr_letter (col : Z) : 0 ≤ col < 26 → chr (97 + col) = Ok (letter col).
Proof.
  intros H. replace col with (Z.of_nat (Z.to_nat col)) by lia.
  assert (Hn : (Z.to_nat col < 26)%nat) by lia.
  generalize dependent (Z.to_nat col). clear H. intros n Hn.
  do 26 (destruct n as [| n]; [vm_compute; reflexivity |]).
  lia.
Qed.

Lemma format_path_tokens (l : list position) :
  Forall (λ p : position, 0 ≤ p.2 < 26) l →
  Out.mapM (λ '(x, y), try letter := chr (97 + y) in
                       Ok (letter ++ str_int (6 - x))) l
  = Ok (map token l).
Proof.
  induction 1 as [| [x y] l Hy _ IH]; simpl.
  - reflexivity.
  - simpl in Hy. rewrite (chr_letter y Hy). simpl. rewrite IH. reflexivity.
Qed.



(** ** ScoreFunction *)

Lemma py_index_nat {T} (l : list T) (n : nat) :
  py_index l (Z.of_nat n)
  = match l !! n with Some x => Ok x | None => Raise IndexError end.
Proof.
  unfold py_index.
  destruct (Z.ltb_spec (Z.of_nat n) 0) as [Hneg | _]; [lia |].
  rewrite Nat2Z.id.
  destruct (l !! n) as [x |] eqn:Hl.
  - apply lookup_lt_Some in Hl.
    destruct (Z.leb_spec 0 (Z.of_nat n)); [| lia].
    destruct (Z.ltb_spec (Z.of_nat n) (Z.of_nat (length l))); [| lia].
    reflexivity.
  - destruct (_ && _); reflexivity.
Qed.

Lemma score_loop_tail (l : list position) (values : weights) :
  ∀ (rest : list position) (n : nat) (prev : position) (score : Z),
    l !! n = Some prev → drop (S n) l = rest →
    score_loop l values (seqZ (Z.of_nat (S n)) (Z.of_nat (length rest))) score
    = score_tail values prev rest score.
Proof.
  induction rest as [| cur rest IH]; intros n prev score Hprev Hdrop.
  - reflexivity.
  - assert (Hcur : l !! S n = Some cur).
    { rewrite <- (Nat.add_0_r (S n)), <- lookup_drop, Hdrop. reflexivity. }
    assert (Hrest : drop (S (S n)) l = rest).
    { replace (S (S n)) with (S n + 1)%nat by lia.
      rewrite <- drop_drop, Hdrop. reflexivity. }
    rewrite seqZ_cons by (simpl; lia). simpl score_loop.
    rewrite py_index_nat, Hcur. simpl score_tail. simpl Out.bind at 1.
    destruct (cell_class cur) as [curr_val | e]; [| reflexivity].
    simpl Out.bind at 1.
    replace (Z.of_nat (S n) - 1) with (Z.of_nat n) by lia.
    rewrite py_index_nat, Hprev. simpl Out.bind at 1.
    destruct (cell_class prev) as [prev_val | e]; [| reflexivity].
    simpl Out.bind. unfold combine.
    destruct (_ >? target); [reflexivity |].
    replace (Z.succ (Z.of_nat (S n))) with (Z.of_nat (S (S n))) by lia.
    replace (Z.pred _) with (Z.of_nat (length rest)) by (simpl; lia).
    apply IH; assumption.
Qed.

Lemma compute_score_nil (values : weights) :
  compute_score [] values = Raise IndexError.
Proof. reflexivity. Qed.

Lemma compute_score_cons (p0 : position) (rest : list position)
    (values : weights) :
  compute_score (p0 :: rest) values
  = try first_val := cell_class p0 in
    score_tail values p0 rest (weight values first_val).
Proof.
  unfold compute_score. change 0 with (Z.of_nat 0). rewrite py_index_nat.
  simpl lookup. simpl Out.bind at 1.
  destruct (cell_class p0) as [c0 |]; [| reflexivity]. simpl Out.bind.
  unfold range.
  replace (Z.of_nat _ - 1) with (Z.of_nat (length rest))
    by (simpl length; lia).
  apply (score_loop_tail (p0 :: rest) values rest 0 p0); reflexivity.
Qed.

Lemma score_tail_classes (values : weights) :
  ∀ (rest : list position) (prev : position) (pc : cls) (cs : list cls)
    (score : Z),
    cell_class prev = Ok pc → Out.mapM cell_class rest = Ok cs →
    score_tail values prev rest score = Ok (fold_from_early values pc score cs).
Proof.
  induction rest as [| cur rest IH]; intros prev pc cs score Hprev Hcs.
  - injection Hcs as <-. reflexivity.
  - simpl in Hcs. simpl.
    destruct (cell_class cur) as [c |] eqn:Hc; [| discriminate]. simpl in *.
    destruct (Out.mapM cell_class rest) as [cs' |] eqn:Hrest; [| discriminate].
    simpl in Hcs. injection Hcs as <-. rewrite Hprev. simpl.
    destruct (_ >? target); [reflexivity |].
    apply IH; [exact Hc | reflexivity].
Qed.

Lemma score_tail_exact (values : weights) :
  ∀ (rest : list position) (prev : position) (pc : cls) (score s : Z),
    cell_class prev = Ok pc →
    score_tail values prev rest score = Ok s → s ≤ target →
    ∃ cs, Out.mapM cell_class rest = Ok cs ∧ fold_from values pc score cs = s.
Proof.
  induction rest as [| cur rest IH]; intros prev pc score s Hprev Hs Hle.
  - injection Hs as <-. exists []. split; reflexivity.
  - simpl in Hs.
    destruct (cell_class cur) as [c |] eqn:Hc; [| discriminate]. simpl in Hs.
    rewrite Hprev in Hs. simpl in Hs.
    destruct (Z.gtb_spec (combine values pc score c) target) as [Hgt | Hngt].
    + injection Hs as <-. lia.
    + destruct (IH cur c _ s Hc Hs Hle) as (cs & Hcs & Hfold).
      exists (c :: cs). split; [| exact Hfold].
      simpl. rewrite Hc. simpl. rewrite Hcs. reflexivity.
Qed.

Lemma cell_class_in_grid (p : position) :
  in_grid p → ∃ c, cell_class p = Ok c.
Proof. intros H. grid_cases H; eexists; vm_compute; reflexivity. Qed.

Lemma path_classes_in_grid (l : list position) :
  Forall in_grid l → ∃ cs, path_classes l = Ok cs.
Proof.
  unfold path_classes. induction 1 as [| p l Hp _ [cs IH]].
  - exists []. reflexivity.
  - destruct (cell_class_in_grid p Hp) as [c Hc].
    exists (c :: cs). simpl. rewrite Hc. simpl. rewrite IH. reflexivity.
Qed.

Lemma compute_score_early (l : list position) (values : weights) (cs : list cls) :
  l ≠ [] → path_classes l = Ok cs →
  compute_score l values = early_score l values.
Proof.
  intros Hne Hcs. unfold early_score. rewrite Hcs. simpl.
  destruct l as [| p0 rest]; [congruence |].
  rewrite compute_score_cons. unfold path_classes in Hcs. simpl in Hcs.
  destruct (cell_class p0) as [c0 |] eqn:Hc0; [| discriminate]. simpl in *.
  destruct (Out.mapM cell_class rest) as [cs' |] eqn:Hrest; [| discriminate].
  simpl in Hcs. injection Hcs as <-.
  apply score_tail_classes; assumption.
Qed.

Lemma compute_score_exact (l : list position) (values : weights) (s : Z) :
  compute_score l values = Ok s → s ≤ target → exact_score l values = Ok s.
Proof.
  intros Hs Hle. destruct l as [| p0 rest]; [discriminate |].
  rewrite compute_score_cons in Hs. unfold exact_score, path_classes. simpl.
  destruct (cell_class p0) as [c0 |] eqn:Hc0; [| discriminate]. simpl in *.
  destruct (score_tail_exact values rest p0 c0 _ s Hc0 Hs Hle) as (cs & Hcs & Hf).
  rewrite Hcs. simpl. rewrite Hf. reflexivity.
Qed.

(** C3. On a non-empty path over the grid and with an empty cache,
    [calculate_score] returns the fold that starts from the weight of the
    first position's class, adds the weight of each further position whose
    class is that of the position before it, multiplies by it otherwise, and
    returns the running score as soon as a step has taken it above the target
    (the test follows each step, as in the specification).  The score is
    stored in the cache under the path. *)
Theorem calculate_score_is_early_fold
    (l : list position) (values : weights) (slf : solver) :
  l ≠ [] → Forall in_grid l → score_cache slf = ∅ →
  ∃ first rest,
    path_classes l = Ok (first :: rest) ∧
    calculate_score l values slf
    = Ok (fold_from_early values first (weight values first) rest,
          Solver {[ l := fold_from_early values first (weight values first) rest ]}
                 (stdout slf) (Call l values ∅ :: score_calls slf)).
Proof.
  intros Hne Hgrid Hcache.
  destruct (path_classes_in_grid l Hgrid) as [cs Hcs].
  assert (Hc : compute_score l values = early_score l values)
    by exact (compute_score_early l values cs Hne Hcs).
  unfold early_score in Hc. rewrite Hcs in Hc. simpl in Hc.
  destruct cs as [| first rest].
  { destruct l; [congruence |]. unfold path_classes in Hcs. simpl in Hcs.
    destruct (cell_class p); [| discriminate]. simpl in Hcs.
    destruct (Out.mapM cell_class l); discriminate. }
  exists first, rest. split; [exact Hcs |].
  unfold calculate_score, St.bind, St.modify, St.gets, St.pure, St.ret,
    record_call, set_cache.
  simpl. rewrite Hcache, lookup_empty, Hc. simpl.
  rewrite insert_empty. reflexivity.
Qed.

Lemma calculate_score_is_early_fold_witness :
  calculate_score [(0, 0); (2, 1); (1, 3)] (Weights 2 3 5) PuzzleSolver
  = Ok (20, Solver {[ [(0, 0); (2, 1); (1, 3)] := 20 ]} []
                   [Call [(0, 0); (2, 1); (1, 3)] (Weights 2 3 5) ∅]).
Proof.
  destruct (calculate_score_is_early_fold
              [(0, 0); (2, 1); (1, 3)] (Weights 2 3 5) PuzzleSolver)
    as (first & rest & Hcs & Hscore).
  - discriminate.
  - repeat constructor; simpl; lia.
  - reflexivity.
  - rewrite Hscore. vm_compute in Hcs. injection Hcs as <- <-.
    reflexivity.
Defined.

Lemma fresh_for_empty (values : weights) : fresh_for values ∅.
Proof. intros p s H. rewrite lookup_empty in H. discriminate. Qed.

Lemma fresh_for_insert (values : weights) (cache : gmap (list position) Z)
    (l : list position) (s : Z) :
  fresh_for values cache → compute_score l values = Ok s →
  fresh_for values (<[l := s]> cache).
Proof.
  intros Hfresh Hs p s' Hp. destruct (decide (l = p)) as [-> | Hne].
  - rewrite lookup_insert_eq in Hp. congruence.
  - rewrite lookup_insert_ne in Hp by exact Hne. apply Hfresh, Hp.
Qed.

(** On a cache that is fresh for [values], [calculate_score] returns what
    [compute_score] computes, keeps the cache fresh, and records one call. *)
Lemma calculate_score_fresh (l : list position) (values : weights)
    (slf : solver) :
  fresh_for values (score_cache slf) →
  match compute_score l values with
  | Ok s =>
      ∃ slf', calculate_score l values slf = Ok (s, slf') ∧
              fresh_for values (score_cache slf') ∧
              stdout slf' = stdout slf ∧
              score_calls slf'
              = Call l values (score_cache slf) :: score_calls slf
  | Raise e => calculate_score l values slf = Raise e
  end.
Proof.
  intros Hfresh.
  unfold calculate_score, St.bind, St.modify, St.gets, St.pure, St.ret,
    record_call, set_cache. simpl.
  destruct (score_cache slf !! l) as [cached |] eqn:Hl.
  - rewrite (Hfresh l cached Hl). eexists. repeat split. exact Hfresh.
  - destruct (compute_score l values) as [s | e] eqn:Hs; [| reflexivity].
    eexists. repeat split. simpl. apply fresh_for_insert; assumption.
Qed.

Lemma calculate_score_again (l : list position) (values : weights)
    (slf slf' : solver) (r : Z) :
  calculate_score l values slf = Ok (r, slf') →
  score_cache slf' !! l = Some r.
Proof.
  unfold calculate_score, St.bind, St.modify, St.gets, St.pure, St.ret,
    record_call, set_cache. simpl.
  destruct (score_cache slf !! l) as [cached |] eqn:Hl.
  - intros H. injection H as <- <-. exact Hl.
  - destruct (compute_score l values) as [s | e]; [| discriminate].
    intros H. injection H as <- <-. simpl. apply lookup_insert_eq.
Qed.

Lemma calculate_score_hit (l : list position) (values : weights)
    (slf : solver) (r : Z) :
  score_cache slf !! l = Some r →
  result (calculate_score l values slf) = Ok r.
Proof.
  intros Hl.
  unfold calculate_score, St.bind, St.modify, St.gets, St.pure, St.ret,
    record_call. simpl. rewrite Hl. reflexivity.
Qed.

(** The claim C5 as the specification states it fails: an entry left in the
    cache for the same path is returned whatever the weights are.  With the
    entry 7 for the path [(0,0)], the score under the weights 1, 2, 3 comes
    out as 7; on an empty cache it is 1. *)
Lemma calculate_score_depends_on_cache :
  result (calculate_score [(0, 0)] (Weights 1 2 3)
            (Solver {[ [(0, 0)] := 7 ]} [] [])) = Ok 7 ∧
  result (calculate_score [(0, 0)] (Weights 1 2 3) (Solver ∅ [] [])) = Ok 1 ∧
  ¬ (∀ (l : list position) (values : weights) (slf : solver),
       result (calculate_score l values slf)
       = result (calculate_score l values (set_cache (λ _, ∅) slf))).
Proof.
  split; [vm_compute; reflexivity |]. split; [vm_compute; reflexivity |].
  intros H.
  specialize (H [(0, 0)] (Weights 1 2 3) (Solver {[ [(0, 0)] := 7 ]} [] [])).
  vm_compute in H. discriminate.
Qed.

(** C5, amended. Two successive invocations of [calculate_score] on the same
    path and weights return the same score, whatever the cache held before
    the first; and on every cache whose entries are the scores of their paths
    under the weights in use, the result is the one computed with an empty
    cache. *)
Theorem calculate_score_cache_independent :
  (∀ (l : list position) (values : weights) (slf slf' : solver) (r : Z),
     calculate_score l values slf = Ok (r, slf') →
     result (calculate_score l values slf') = Ok r) ∧
  (∀ (l : list position) (values : weights) (slf : solver),
     fresh_for values (score_cache slf) →
     result (calculate_score l values slf)
     = result (calculate_score l values (set_cache (λ _, ∅) slf))).
Proof.
  split.
  - intros l values slf slf' r H.
    apply calculate_score_hit. exact (calculate_score_again _ _ _ _ _ H).
  - intros l values slf Hfresh.
    pose proof (calculate_score_fresh l values slf Hfresh) as H1.
    pose proof (calculate_score_fresh l values (set_cache (λ _, ∅) slf)
                  (fresh_for_empty values)) as H2.
    destruct (compute_score l values) as [s | e].
    + destruct H1 as (s1 & -> & _). destruct H2 as (s2 & -> & _). reflexivity.
    + rewrite H1, H2. reflexivity.
Qed.

Lemma calculate_score_cache_independent_witness :
  result (calculate_score [(0, 0); (2, 1)] (Weights 2 3 5)
            (Solver {[ [(0, 0)] := 2 ]} [] []))
  = result (calculate_score [(0, 0); (2, 1)] (Weights 2 3 5)
              (set_cache (λ _, ∅) (Solver {[ [(0, 0)] := 2 ]} [] []))).
Proof.
  apply (proj2 calculate_score_cache_independent).
  intros p s Hp. simpl in Hp.
  destruct (decide (p = [(0, 0)])) as [-> | Hne].
  - rewrite lookup_singleton_eq in Hp. injection Hp as <-.
    vm_compute. reflexivity.
  - rewrite lookup_singleton_ne in Hp by congruence. discriminate.
Defined.

(** ** Monotonicity of the fold *)

Lemma weight_positive (values : weights) (c : cls) :
  positive values → 0 < weight values c.
Proof. intros (Ha & Hb & Hc). destruct c; assumption. Qed.

Lemma combine_ge (values : weights) (prev cur : cls) (score : Z) :
  positive values → 1 ≤ score → score ≤ combine values prev score cur.
Proof.
  intros Hpos Hs. pose proof (weight_positive values cur Hpos).
  unfold combine. destruct (decide (cur = prev)); nia.
Qed.

Lemma fold_from_ge (values : weights) :
  positive values →
  ∀ (rest : list cls) (prev : cls) (score : Z),
    1 ≤ score → score ≤ fold_from values prev score rest.
Proof.
  intros Hpos. induction rest as [| cur rest IH]; intros prev score Hs; simpl.
  - lia.
  - pose proof (combine_ge values prev cur score Hpos Hs).
    specialize (IH cur (combine values prev score cur)). lia.
Qed.

Lemma fold_from_app (values : weights) :
  ∀ (l1 l2 : list cls) (prev : cls) (score : Z),
    ∃ prev', fold_from values prev score (l1 ++ l2)
             = fold_from values prev' (fold_from values prev score l1) l2.
Proof.
  induction l1 as [| c l1 IH]; intros l2 prev score.
  - exists prev. reflexivity.
  - simpl fold_from. apply IH.
Qed.

Lemma fold_from_early_exact (values : weights) :
  ∀ (rest : list cls) (prev : cls) (score : Z),
    fold_from_early values prev score rest ≤ target →
    fold_from_early values prev score rest = fold_from values prev score rest.
Proof.
  induction rest as [| cur rest IH]; intros prev score; simpl.
  - reflexivity.
  - destruct (Z.gtb_spec (combine values prev score cur) target); [lia |].
    apply IH.
Qed.

Lemma fold_from_exact_early (values : weights) :
  positive values →
  ∀ (rest : list cls) (prev : cls) (score : Z),
    1 ≤ score → fold_from values prev score rest ≤ target →
    fold_from_early values prev score rest = fold_from values prev score rest.
Proof.
  intros Hpos. induction rest as [| cur rest IH]; intros prev score Hs; simpl.
  - reflexivity.
  - intros Hle. pose proof (combine_ge values prev cur score Hpos Hs).
    pose proof (fold_from_ge values Hpos rest cur
                  (combine values prev score cur) ltac:(lia)).
    destruct (Z.gtb_spec (combine values prev score cur) target); [lia |].
    apply IH; [lia | exact Hle].
Qed.

Lemma mapM_take {X Y} (f : X → outcome Y) (n : nat) :
  ∀ (l : list X) (ys : list Y),
    Out.mapM f l = Ok ys → Out.mapM f (take n l) = Ok (take n ys).
Proof.
  induction n as [| n IH]; intros l ys H.
  - reflexivity.
  - destruct l as [| x l]; simpl in *.
    + injection H as <-. reflexivity.
    + destruct (f x) as [y |]; [| discriminate]. simpl in *.
      destruct (Out.mapM f l) as [ys' |] eqn:Hl; [| discriminate].
      simpl in H. injection H as <-. rewrite (IH l ys' Hl). reflexivity.
Qed.

(** The exact score of a prefix never exceeds that of the whole path. *)
Lemma exact_score_prefix (values : weights) (l : list position) (n : nat)
    (s s' : Z) :
  positive values →
  exact_score (take (S n) l) values = Ok s → exact_score l values = Ok s' →
  s ≤ s'.
Proof.
  intros Hpos Hs Hs'. unfold exact_score in *.
  destruct (path_classes l) as [cs |] eqn:Hcs; [| discriminate].
  unfold path_classes in *. rewrite (mapM_take _ (S n) l cs Hcs) in Hs.
  simpl in Hs, Hs'. destruct cs as [| first rest]; [discriminate |].
  simpl in Hs. injection Hs as <-. injection Hs' as <-.
  rewrite <- (take_drop n rest) at 2.
  destruct (fold_from_app values (take n rest) (drop n rest) first
              (weight values first)) as [prev' ->].
  apply fold_from_ge; [exact Hpos |].
  pose proof (weight_positive values first Hpos).
  pose proof (fold_from_ge values Hpos (take n rest) first
                (weight values first) ltac:(lia)). lia.
Qed.

(** C4. Under positive weights, once the exact score of a prefix of a path
    exceeds the target, the exact score of every longer prefix exceeds it
    too, so that no extension scores the target. *)
Theorem score_monotone (values : weights) (l : list position) (k k' : nat)
    (s s' : Z) :
  positive values → (k < k')%nat →
  exact_score (take (S k) l) values = Ok s →
  exact_score (take (S k') l) values = Ok s' →
  target < s → target < s' ∧ s' ≠ target.
Proof.
  intros Hpos Hk Hs Hs' Hgt.
  assert (Hle : s ≤ s').
  { apply (exact_score_prefix values (take (S k') l) k s s' Hpos); [| exact Hs'].
    rewrite take_take. replace (S k `min` S k')%nat with (S k) by lia.
    exact Hs. }
  lia.
Qed.

Lemma score_monotone_witness :
  target < 3000 ∧ target < 4500 ∧ 4500 ≠ target.
Proof.
  split; [reflexivity |].
  apply (score_monotone (Weights 1500 2000 3000)
           [(0, 0); (2, 1); (4, 0); (2, 1)] 1 2 3000 4500).
  - unfold positive. simpl. lia.
  - lia.
  - vm_compute. reflexivity.
  - vm_compute. reflexivity.
  - reflexivity.
Defined.

(** ** Scoring oracles *)

Lemma agrees_cached (values : weights) (cache : gmap (list position) Z) :
  agrees (cached_scorer values cache) values cache.
Proof. intros p. reflexivity. Qed.

Lemma agrees_fresh (values : weights) (cache : gmap (list position) Z) :
  agrees (computed values) values cache ↔ fresh_for values cache.
Proof.
  unfold agrees, computed, cached_scorer, fresh_for. split.
  - intros H p s Hp. specialize (H p). rewrite Hp in H. exact H.
  - intros H p. destruct (cache !! p) as [s |] eqn:Hp; [| reflexivity].
    exact (H p s Hp).
Qed.

(** On a cache that agrees with [score], [calculate_score] answers as
    [score] does, keeps the cache in agreement, prints nothing and records
    one call. *)
Lemma calculate_score_agrees (score : scorer) (l : list position)
    (values : weights) (slf : solver) :
  agrees score values (score_cache slf) →
  match score l with
  | Ok s =>
      ∃ slf', calculate_score l values slf = Ok (s, slf') ∧
              agrees score values (score_cache slf') ∧
              stdout slf' = stdout slf ∧
              score_calls slf'
              = Call l values (score_cache slf) :: score_calls slf
  | Raise e => calculate_score l values slf = Raise e
  end.
Proof.
  intros Hagree. pose proof (Hagree l) as Hl. unfold cached_scorer in Hl.
  unfold calculate_score, St.bind, St.modify, St.gets, St.pure, St.ret,
    record_call, set_cache. simpl.
  destruct (score_cache slf !! l) as [cached |] eqn:Hc.
  - rewrite Hl. eexists. repeat split. exact Hagree.
  - rewrite Hl. destruct (compute_score l values) as [s | e] eqn:Hs;
      [| reflexivity].
    eexists. repeat split. simpl. intros p. unfold cached_scorer.
    destruct (decide (l = p)) as [<- | Hne].
    + rewrite lookup_insert_eq, Hl. reflexivity.
    + rewrite lookup_insert_ne by exact Hne. apply Hagree.
Qed.

(** ** PathSearch: the store discipline of [dfs] *)

(** The table is looked up through [knight_moves_lookup] and
    [knight_moves_outside] from here on. *)
Global Opaque knight_moves.

Lemma search_post_refl (score : scorer) (values : weights) (s : search) :
  search_pre score values s → search_post score values s s None.
Proof.
  intros (_ & Hvis & Hfresh). repeat split; try assumption.
  exists []. split; [reflexivity | constructor].
Qed.

Lemma search_post_trans (score : scorer) (values : weights) (s s1 s2 : search)
    (r : option (list position)) :
  path s1 = path s → stdout (self s1) = stdout (self s) →
  (∃ added, score_calls (self s1) = added ++ score_calls (self s) ∧
            calls_under score values added) →
  search_post score values s1 s2 r → search_post score values s s2 r.
Proof.
  intros Hpath Hout (added1 & Hlog1 & Hunder1)
         (Hvis & Hres & Hfresh & Hout2 & added2 & Hlog2 & Hunder2).
  repeat split; try assumption.
  - destruct (truthy r); congruence.
  - congruence.
  - exists (added2 ++ added1). split.
    + rewrite Hlog2, Hlog1, app_assoc. reflexivity.
    + apply Forall_app. split; assumption.
Qed.

Lemma list_to_set_snoc (l : list position) (x : position) :
  list_to_set (l ++ [x]) =@{gset position} {[x]} ∪ list_to_set l.
Proof.
  apply set_eq. intros y.
  rewrite elem_of_union, !elem_of_list_to_set, elem_of_app, elem_of_singleton,
    list_elem_of_singleton.
  tauto.
Qed.

Lemma list_to_set_unsnoc (l : list position) (x : position) :
  x ∉ l → list_to_set (l ++ [x]) ∖ {[x]} =@{gset position} list_to_set l.
Proof.
  intros Hx. apply set_eq. intros y.
  rewrite elem_of_difference, !elem_of_list_to_set, elem_of_app,
    elem_of_singleton, list_elem_of_singleton.
  split.
  - intros [[Hy | Hy] Hne]; [exact Hy | contradiction].
  - intros Hy. split; [left; exact Hy | intros ->; contradiction].
Qed.

Lemma dfs_moves_sim (score : scorer) (values : weights)
    (dfs_next : position → M search (option (list position)))
    (pure_next : position → outcome (option (list position)))
    (P : list position) :
  (∀ x s, search_pre score values s → path s = P ++ [x] →
          simulates score values s (dfs_next x s) (pure_next x)) →
  ∀ moves s, search_pre score values s → path s = P →
    simulates score values s (dfs_moves dfs_next moves s)
              (pure_moves pure_next P moves).
Proof.
  intros Hnext. induction moves as [| x moves IH]; intros s Hpre HP.
  - exists s. split; [reflexivity | apply search_post_refl, Hpre].
  - destruct Hpre as (Hne & Hvis & Hfresh).
    simpl pure_moves. simpl dfs_moves. unfold St.bind at 1, St.gets at 1.
    destruct (decide (x ∈ P)) as [Hin | Hnin].
    + destruct (decide (x ∉ visited s)) as [Hnv | _].
      { exfalso. apply Hnv. rewrite Hvis, elem_of_list_to_set, HP. exact Hin. }
      apply IH; [repeat split; assumption | exact HP].
    + destruct (decide (x ∉ visited s)) as [_ | Hv].
      2:{ exfalso. apply Hv. rewrite Hvis, elem_of_list_to_set, HP. exact Hnin. }
      unfold St.bind, path_append, visited_add, St.modify. simpl.
      set (s1 := Search (path s ++ [x]) ({[x]} ∪ visited s) (self s)).
      assert (Hpre1 : search_pre score values s1).
      { repeat split; simpl.
        - intros Hnil. apply app_eq_nil in Hnil. destruct Hnil. discriminate.
        - rewrite list_to_set_snoc, Hvis. reflexivity.
        - exact Hfresh. }
      assert (HP1 : path s1 = P ++ [x]) by (simpl; rewrite HP; reflexivity).
      specialize (Hnext x s1 Hpre1 HP1). unfold simulates in Hnext.
      destruct (pure_next x) as [r | e]; simpl.
      2:{ rewrite Hnext. reflexivity. }
      destruct Hnext as (s2 & -> & Hpost2).
      destruct (truthy r) eqn:Hr.
      * exists s2. split; [reflexivity |].
        apply (search_post_trans score values s s s2 r); try reflexivity.
        { exists []. split; [reflexivity | constructor]. }
        destruct Hpost2 as (Hvis2 & Hres2 & Hfresh2 & Hout2 & Hlog2).
        repeat split; try assumption. rewrite Hr in *. exact Hres2.
      * destruct Hpost2 as (Hvis2 & Hres2 & Hfresh2 & Hout2 & Hlog2).
        rewrite Hr in Hres2. rewrite HP1 in Hres2.
        unfold St.ret, visited_remove, path_pop.
        destruct (decide (x ∈ visited s2)) as [_ | Hnv2].
        2:{ exfalso. apply Hnv2. rewrite Hvis2, Hres2, elem_of_list_to_set.
            apply elem_of_app. right. apply list_elem_of_singleton. reflexivity. }
        simpl. rewrite Hres2.
        destruct (P ++ [x]) as [| y l] eqn:HPx.
        { apply app_eq_nil in HPx. destruct HPx. discriminate. }
        rewrite <- HPx, removelast_last.
        set (s4 := Search P (visited s2 ∖ {[x]}) (self s2)).
        assert (Hpre4 : search_pre score values s4).
        { repeat split; simpl.
          - rewrite <- HP. exact Hne.
          - rewrite Hvis2, Hres2, <- HPx.
            apply list_to_set_unsnoc. exact Hnin.
          - exact Hfresh2. }
        specialize (IH s4 Hpre4 eq_refl). unfold simulates in IH |- *.
        destruct (pure_moves pure_next P moves) as [r' | e'];
          [| exact IH].
        destruct IH as (s' & -> & Hpost').
        exists s'. split; [reflexivity |].
        apply (search_post_trans score values s s4 s' r');
          [simpl; congruence | exact Hout2 | exact Hlog2 | exact Hpost'].
Qed.

Lemma calls_under_one (score : scorer) (values : weights)
    (l : list position) (cache : gmap (list position) Z) :
  agrees score values cache → calls_under score values [Call l values cache].
Proof. intros H. constructor; [split; [reflexivity | exact H] | constructor]. Qed.

Lemma truthy_Some_path (l : list position) : l ≠ [] → truthy (Some l) = true.
Proof. destruct l; [congruence | reflexivity]. Qed.

(** One call of [dfs] with a frame to spare, given the simulation for the
    calls it makes; the first thing such a call does when the depth bound
    lets it proceed is to score the current path. *)
Lemma dfs_step_sim (score : scorer) (values : weights) (end_ : position) (fuel : nat) :
  (∀ pos depth max_depth s, search_pre score values s →
     simulates score values s (dfs fuel end_ values pos depth max_depth s)
               (pure_dfs fuel end_ score (path s) pos depth max_depth)) →
  ∀ pos depth max_depth s, search_pre score values s →
    match pure_dfs (S fuel) end_ score (path s) pos depth max_depth with
    | Ok r =>
        ∃ s', dfs (S fuel) end_ values pos depth max_depth s = Ok (r, s') ∧
              search_post score values s s' r ∧
              (depth ≤ max_depth →
               ∃ added, score_calls (self s')
                        = added ++ Call (path s) values (score_cache (self s))
                                :: score_calls (self s))
    | Raise e => dfs (S fuel) end_ values pos depth max_depth s = Raise e
    end.
Proof.
  intros IH pos depth max_depth s Hpre.
  pose proof Hpre as (Hne & Hvis & Hfresh).
  cbn [dfs pure_dfs].
  destruct (Z.gtb_spec depth max_depth) as [Hdeep | Hshallow].
  { exists s. split; [reflexivity |].
    split; [apply search_post_refl, Hpre | intros; lia]. }
  pose proof (calculate_score_agrees score (path s) values (self s) Hfresh) as Hc.
  assert (Hscored : ∀ slf' r,
    stdout slf' = stdout (self s) →
    score_calls slf'
    = Call (path s) values (score_cache (self s)) :: score_calls (self s) →
    agrees score values (score_cache slf') →
    (if truthy r then r = Some (path s) else True) →
    search_post score values s (Search (path s) (visited s) slf') r).
  { intros slf' r Hout Hlog Hfresh' Hr. repeat split; simpl; try assumption.
    - destruct (truthy r); [exact Hr | reflexivity].
    - exists [Call (path s) values (score_cache (self s))].
      split; [exact Hlog | apply calls_under_one, Hfresh]. }
  destruct (decide (pos = end_)) as [Hend | Hnend].
  - unfold St.bind, St.gets, on_self.
    destruct (score (path s)) as [sc | e]; simpl.
    2:{ rewrite Hc. reflexivity. }
    destruct Hc as (slf' & -> & Hfresh' & Hout' & Hlog').
    destruct (sc =? target).
    + eexists. split; [reflexivity |]. split.
      * apply Hscored; try assumption.
        rewrite (truthy_Some_path _ Hne). reflexivity.
      * intros _. exists []. exact Hlog'.
    + eexists. split; [reflexivity |]. split.
      * apply Hscored; try assumption. exact I.
      * intros _. exists []. exact Hlog'.
  - destruct (score (path s)) as [sc | e]; cbn [Out.bind];
      unfold St.bind, St.gets, on_self, St.pure, St.ret, py_getitem.
    2:{ rewrite Hc. reflexivity. }
    destruct Hc as (slf' & -> & Hfresh' & Hout' & Hlog'). cbn beta iota.
    destruct (sc >? target).
    { eexists. split; [reflexivity |]. split.
      * apply Hscored; try assumption. exact I.
      * intros _. exists []. exact Hlog'. }
    destruct (knight_moves !! pos) as [moves |]; cbn [Out.bind];
      [| reflexivity].
    set (s1 := Search (path s) (visited s) slf').
    assert (Hpre1 : search_pre score values s1) by (repeat split; assumption).
    pose proof (dfs_moves_sim score values
      (λ next_pos, dfs fuel end_ values next_pos (depth + 1) max_depth)
      (λ next_pos, pure_dfs fuel end_ score (path s ++ [next_pos]) next_pos
                            (depth + 1) max_depth)
      (path s)) as Hmoves.
    specialize (Hmoves ltac:(intros x s0 Hpre0 Hp0; cbn beta; rewrite <- Hp0;
                             apply IH, Hpre0)
                       moves s1 Hpre1 eq_refl).
    unfold simulates in Hmoves.
    destruct (pure_moves _ (path s) moves) as [r | e]; [| exact Hmoves].
    destruct Hmoves as (s' & -> & Hpost).
    exists s'. split; [reflexivity |].
    assert (Hadded : ∃ added,
      score_calls (self s1) = added ++ score_calls (self s) ∧
      calls_under score values added).
    { exists [Call (path s) values (score_cache (self s))].
      split; [exact Hlog' | apply calls_under_one, Hfresh]. }
    split.
    + apply (search_post_trans score values s s1 s' r);
        [reflexivity | exact Hout' | exact Hadded | exact Hpost].
    + intros _. destruct Hpost as (_ & _ & _ & _ & added & Hlog & _).
      exists added. rewrite Hlog. simpl. rewrite Hlog'. reflexivity.
Qed.

(** [dfs] on the store computes what [pure_dfs] computes, raising included,
    and keeps the discipline of the store. *)
Lemma dfs_sim (score : scorer) (values : weights) (end_ : position) :
  ∀ fuel pos depth max_depth s, search_pre score values s →
    simulates score values s (dfs fuel end_ values pos depth max_depth s)
              (pure_dfs fuel end_ score (path s) pos depth max_depth).
Proof.
  induction fuel as [| fuel IH]; intros pos depth max_depth s Hpre.
  - reflexivity.
  - pose proof (dfs_step_sim score values end_ fuel IH pos depth max_depth s Hpre) as H.
    unfold simulates.
    destruct (pure_dfs (S fuel) end_ score (path s) pos depth max_depth);
      [| exact H].
    destruct H as (s' & H & Hpost & _). exists s'. split; assumption.
Qed.

Lemma recursion_limit_succ : ∃ fuel, recursion_limit = S fuel.
Proof. exists 999%nat. reflexivity. Qed.

Global Opaque recursion_limit.

(** [find_path] on a cache that agrees with an oracle computes what
    [pure_rounds] computes under that oracle and leaves the cache in
    agreement; its calls are made under [values], and the first of them sees
    the cache as [find_path] found it. *)
Lemma find_path_rounds_sim (score : scorer) (values : weights) (start end_ : position) :
  ∀ (depths : list Z) (slf : solver),
    agrees score values (score_cache slf) →
    match pure_rounds start end_ score depths with
    | Ok r =>
        ∃ slf', find_path_rounds start end_ values depths slf = Ok (r, slf') ∧
                agrees score values (score_cache slf') ∧
                stdout slf' = stdout slf ∧
                ∃ added, score_calls slf' = added ++ score_calls slf ∧
                         calls_under score values added ∧
                         (∀ d ds, depths = d :: ds → 0 ≤ d →
                            ∃ added', added
                                      = added' ++ [Call [start] values
                                                        (score_cache slf)])
    | Raise e => find_path_rounds start end_ values depths slf = Raise e
    end.
Proof.
  destruct recursion_limit_succ as [fuel Hfuel].
  induction depths as [| d depths IH]; intros slf Hfresh.
  - exists slf. repeat split; try assumption.
    exists []. repeat split; [constructor | intros; discriminate].
  - cbn [pure_rounds find_path_rounds]. rewrite Hfuel.
    set (s0 := Search [start] {[start]} slf).
    assert (Hpre0 : search_pre score values s0).
    { repeat split; simpl; [discriminate | | exact Hfresh].
      symmetry. apply (right_id_L ∅ (∪)). }
    pose proof (dfs_step_sim score values end_ fuel (dfs_sim score values end_ fuel)
                  start 0 d s0 Hpre0) as Hdfs.
    change (path s0) with [start] in Hdfs.
    destruct (pure_dfs (S fuel) end_ score [start] start 0 d) as [r | e];
      cbn [Out.bind]; [| rewrite Hdfs; reflexivity].
    destruct Hdfs as (s1 & -> & (_ & _ & Hfresh1 & Hout1 & added1 & Hlog1 & Hunder1)
                      & Hfirst).
    simpl in Hout1, Hlog1, Hfirst.
    assert (Hfirst' : 0 ≤ d → ∃ added', added1
              = added' ++ [Call [start] values (score_cache slf)]).
    { intros Hd. destruct (Hfirst Hd) as [added' Hadded'].
      exists added'. rewrite Hlog1 in Hadded'.
      change (?a :: score_calls slf) with ([a] ++ score_calls slf) in Hadded'.
      rewrite app_assoc in Hadded'.
      exact (app_inv_tail _ _ _ Hadded'). }
    destruct (truthy r).
    + exists (self s1). repeat split; try assumption.
      exists added1. repeat split; try assumption.
      intros d' ds Heq Hd. injection Heq as <- <-. apply Hfirst', Hd.
    + specialize (IH (self s1) Hfresh1).
      destruct (pure_rounds start end_ score depths) as [r' | e'];
        [| exact IH].
      destruct IH as (slf' & -> & Hfresh' & Hout' & added & Hlog & Hunder & _).
      exists slf'. repeat split; try assumption; [congruence |].
      exists (added ++ added1). repeat split.
      * rewrite Hlog, Hlog1, app_assoc. reflexivity.
      * apply Forall_app. split; assumption.
      * intros d' ds Heq Hd. injection Heq as <- <-.
        destruct (Hfirst' Hd) as [added' ->].
        exists (added ++ added'). rewrite app_assoc. reflexivity.
Qed.

(** [find_path] returns what the search without store returns under the
    oracle of the cache it starts on. *)
Lemma find_path_pure (values : weights) (start end_ : position) (slf : solver) :
  result (find_path start end_ values slf)
  = pure_rounds start end_ (cached_scorer values (score_cache slf))
                (range 4 12).
Proof.
  unfold find_path.
  pose proof (find_path_rounds_sim _ values start end_ (range 4 12) slf
                (agrees_cached values (score_cache slf))) as H.
  destruct (pure_rounds start end_ _ (range 4 12)) as [r | e].
  - destruct H as (slf' & -> & _). reflexivity.
  - rewrite H. reflexivity.
Qed.

Lemma find_path_pure_fresh (values : weights) (start end_ : position)
    (slf : solver) :
  fresh_for values (score_cache slf) →
  result (find_path start end_ values slf)
  = pure_rounds start end_ (computed values) (range 4 12).
Proof.
  intros Hfresh. unfold find_path.
  pose proof (find_path_rounds_sim (computed values) values start end_
                (range 4 12) slf (proj2 (agrees_fresh _ _) Hfresh)) as H.
  destruct (pure_rounds start end_ _ (range 4 12)) as [r | e].
  - destruct H as (slf' & -> & _). reflexivity.
  - rewrite H. reflexivity.
Qed.

(** ** PathSearch: what a found path is *)

Lemma pure_moves_inv (next : position → outcome (option (list position)))
    (P moves : list position) (r : option (list position)) :
  pure_moves next P moves = Ok r →
  r = None ∨ (truthy r = true ∧ ∃ x, x ∈ moves ∧ (x ∉ P) ∧ next x = Ok r).
Proof.
  induction moves as [| x moves IH]; simpl.
  - intros H. injection H as <-. left. reflexivity.
  - destruct (decide (x ∈ P)) as [Hin | Hnin].
    + intros H. destruct (IH H) as [-> | (Ht & y & Hy & Hny & Hnext)];
        [left; reflexivity | right].
      split; [exact Ht |]. exists y. split; [right; exact Hy | auto].
    + destruct (next x) as [found |] eqn:Hx; simpl; [| discriminate].
      destruct (truthy found) eqn:Hf.
      * intros H. injection H as <-. right. split; [exact Hf |].
        exists x. split; [left | auto].
      * intros H. destruct (IH H) as [-> | (Ht & y & Hy & Hny & Hnext)];
          [left; reflexivity | right].
        split; [exact Ht |]. exists y. split; [right; exact Hy | auto].
Qed.

Lemma knight_walk_one (p : position) : knight_walk [p].
Proof.
  intros l1 a b l2 H. apply (f_equal length) in H.
  rewrite length_app in H. simpl in H. lia.
Qed.

Lemma knight_walk_snoc (P : list position) (pos x : position) :
  knight_walk P → last P = Some pos → edge pos x → knight_walk (P ++ [x]).
Proof.
  intros Hwalk Hlast Hedge l1 a b l2 H.
  destruct l2 as [| y l2 _] using rev_ind.
  - change (l1 ++ [a; b]) with (l1 ++ [a] ++ [b]) in H.
    rewrite app_assoc in H. apply app_inj_tail in H. destruct H as [-> <-].
    rewrite last_snoc in Hlast. injection Hlast as ->. exact Hedge.
  - change (l1 ++ a :: b :: l2 ++ [y]) with (l1 ++ (a :: b :: l2) ++ [y]) in H.
    rewrite app_assoc in H. apply app_inj_tail in H. destruct H as [-> _].
    exact (Hwalk l1 a b l2 eq_refl).
Qed.

Lemma knight_walk_edge (P : list position) (pos x : position)
    (ext : list position) :
  knight_walk (P ++ x :: ext) → last P = Some pos → edge pos x.
Proof.
  intros Hwalk Hlast.
  destruct P as [| y P _] using rev_ind; [discriminate |].
  rewrite last_snoc in Hlast. injection Hlast as ->.
  apply (Hwalk P pos x ext). rewrite <- app_assoc. reflexivity.
Qed.

Lemma knight_walk_prefix (P ext : list position) :
  knight_walk (P ++ ext) → knight_walk P.
Proof.
  intros Hwalk l1 a b l2 ->. apply (Hwalk l1 a b (l2 ++ ext)).
  rewrite <- app_assoc. reflexivity.
Qed.

(** A path that [pure_dfs] finds extends the current path by in-grid
    positions along edges, without repeating a position, ends at [end_], has
    at most [max_depth] moves, and the score computed for it is the target. *)
Lemma pure_dfs_sound (score : scorer) (end_ : position) (max_depth : Z) :
  ∀ (fuel : nat) (P : list position) (pos : position) (depth : Z)
    (q : list position),
    pure_dfs fuel end_ score P pos depth max_depth = Ok (Some q) →
    last P = Some pos → Z.of_nat (length P) = depth + 1 →
    NoDup P → knight_walk P →
    ∃ ext, q = P ++ ext ∧ last q = Some end_ ∧ NoDup q ∧ knight_walk q ∧
           Forall in_grid ext ∧ Z.of_nat (length q) ≤ max_depth + 1 ∧
           score q = Ok target.
Proof.
  induction fuel as [| fuel IH]; intros P pos depth q Hq Hlast Hlen Hnd Hwalk.
  - discriminate.
  - cbn [pure_dfs] in Hq.
    destruct (Z.gtb_spec depth max_depth) as [| Hdepth]; [discriminate |].
    destruct (decide (pos = end_)) as [-> | Hnend].
    + destruct (score P) as [sc |] eqn:Hscore;
        [| discriminate]. cbn [Out.bind] in Hq.
      destruct (Z.eqb_spec sc target) as [-> |]; [| discriminate].
      injection Hq as <-. exists []. rewrite app_nil_r.
      repeat split; try assumption; [constructor | lia].
    + destruct (score P) as [sc |]; [| discriminate].
      cbn [Out.bind] in Hq.
      destruct (sc >? target); [discriminate |].
      unfold py_getitem in Hq.
      destruct (knight_moves !! pos) as [moves |] eqn:Hmoves; [| discriminate].
      cbn [Out.bind] in Hq.
      apply pure_moves_inv in Hq.
      destruct Hq as [Hq | (_ & x & Hx & Hnx & Hq)]; [discriminate |].
      assert (Hedge : edge pos x) by (exists moves; auto).
      apply IH in Hq.
      * destruct Hq as (ext & -> & Hl & Hnd' & Hw' & Hg & Hlen' & Hs).
        exists (x :: ext). rewrite <- app_assoc in *. simpl in *.
        repeat split; try assumption.
        constructor; [exact (proj2 (edge_in_grid _ _ Hedge)) | exact Hg].
      * apply last_snoc.
      * rewrite length_app. simpl. lia.
      * apply NoDup_app. repeat split; [exact Hnd | | apply NoDup_singleton].
        intros y Hy Hyx. apply list_elem_of_singleton in Hyx. subst y.
        contradiction.
      * exact (knight_walk_snoc P pos x Hwalk Hlast Hedge).
Qed.

Lemma pure_rounds_inv (score : scorer) (start end_ : position) :
  ∀ (depths : list Z) (r : option (list position)),
    pure_rounds start end_ score depths = Ok r →
    r = None ∨
    (truthy r = true ∧
     ∃ d, d ∈ depths ∧
          pure_dfs recursion_limit end_ score [start] start 0 d = Ok r).
Proof.
  induction depths as [| d depths IH]; intros r; cbn [pure_rounds].
  - intros H. injection H as <-. left. reflexivity.
  - destruct (pure_dfs recursion_limit end_ score [start] start 0 d)
      as [found |] eqn:Hd; cbn [Out.bind]; [| discriminate].
    destruct (truthy found) eqn:Hf.
    + intros H. injection H as <-. right. split; [exact Hf |].
      exists d. split; [left | exact Hd].
    + intros H. destruct (IH r H) as [-> | (Ht & d' & Hd' & Hr)];
        [left; reflexivity | right].
      split; [exact Ht |]. exists d'. split; [right; exact Hd' | exact Hr].
Qed.

Lemma elem_of_range (a b x : Z) : x ∈ range a b ↔ a ≤ x < b.
Proof. unfold range. rewrite elem_of_seqZ. lia. Qed.

(** What [find_path] returns, when it returns a path, whatever the cache
    holds. *)
Lemma find_path_shape (values : weights) (start end_ : position)
    (slf slf' : solver) (q : list position) :
  find_path start end_ values slf = Ok (Some q, slf') →
  ∃ ext, q = start :: ext ∧ last q = Some end_ ∧ NoDup q ∧ knight_walk q ∧
         Forall in_grid ext ∧ Z.of_nat (length q) ≤ 12 ∧
         cached_scorer values (score_cache slf) q = Ok target.
Proof.
  intros Hfind.
  pose proof (find_path_pure values start end_ slf) as Hpure.
  rewrite Hfind in Hpure. cbn [result] in Hpure. symmetry in Hpure.
  apply pure_rounds_inv in Hpure.
  destruct Hpure as [| (_ & d & Hd & Hq)]; [discriminate |].
  apply elem_of_range in Hd.
  apply pure_dfs_sound in Hq;
    [| reflexivity | reflexivity | apply NoDup_singleton | apply knight_walk_one].
  destruct Hq as (ext & -> & Hl & Hnd & Hw & Hg & Hlen & Hs).
  exists ext. repeat split; try assumption. lia.
Qed.

(** On a fresh cache the exact score of the path found is the target. *)
Lemma find_path_sound (values : weights) (start end_ : position)
    (slf slf' : solver) (q : list position) :
  fresh_for values (score_cache slf) →
  find_path start end_ values slf = Ok (Some q, slf') →
  exact_score q values = Ok target.
Proof.
  intros Hfresh Hfind.
  destruct (find_path_shape values start end_ slf slf' q Hfind)
    as (ext & _ & _ & _ & _ & _ & _ & Hs).
  rewrite <- (proj2 (agrees_fresh _ _) Hfresh q) in Hs.
  apply compute_score_exact; [exact Hs | reflexivity].
Qed.

(** ** PathSearch: the search returns, and finds a path when there is one *)

Lemma compute_score_in_grid (l : list position) (values : weights) :
  Forall in_grid l → l ≠ [] → ∃ s, compute_score l values = Ok s.
Proof.
  intros Hg Hne. destruct (path_classes_in_grid l Hg) as [cs Hcs].
  rewrite (compute_score_early l values cs Hne Hcs).
  unfold early_score. rewrite Hcs. cbn [Out.bind].
  destruct cs as [| first rest]; [| eexists; reflexivity].
  destruct l as [| p l]; [congruence |].
  unfold path_classes in Hcs. simpl in Hcs.
  destruct (cell_class p); [| discriminate]. simpl in Hcs.
  destruct (Out.mapM cell_class l); discriminate.
Qed.

Lemma cached_scorer_in_grid (values : weights)
    (cache : gmap (list position) Z) (l : list position) :
  Forall in_grid l → l ≠ [] → ∃ s, cached_scorer values cache l = Ok s.
Proof.
  intros Hg Hne. unfold cached_scorer.
  destruct (cache !! l) as [s |]; [exists s; reflexivity |].
  apply compute_score_in_grid; assumption.
Qed.

Lemma pure_moves_total (next : position → outcome (option (list position)))
    (P moves : list position) :
  (∀ x, x ∈ moves → x ∉ P → ∃ r, next x = Ok r) →
  ∃ r, pure_moves next P moves = Ok r.
Proof.
  induction moves as [| x moves IH]; intros Hnext; simpl.
  - exists None. reflexivity.
  - assert (Hrest : ∃ r, pure_moves next P moves = Ok r).
    { apply IH. intros y Hy. apply Hnext. right. exact Hy. }
    destruct (decide (x ∈ P)) as [Hin | Hnin]; [exact Hrest |].
    destruct (Hnext x ltac:(left) Hnin) as [r ->]. cbn [Out.bind].
    destruct (truthy r); [exists r; reflexivity | exact Hrest].
Qed.

Lemma last_in_grid (P : list position) (pos : position) :
  Forall in_grid P → last P = Some pos → in_grid pos.
Proof.
  intros Hg Hlast. apply (proj1 (Forall_forall _ _) Hg).
  destruct P as [| y P _] using rev_ind; [discriminate |].
  rewrite last_snoc in Hlast. injection Hlast as ->.
  apply elem_of_app. right. apply list_elem_of_singleton. reflexivity.
Qed.

(** With frames enough for the depth bound, and an oracle that answers on
    the paths of the grid, the search from a path of the grid returns. *)
Lemma pure_dfs_total (score : scorer) (end_ : position) (max_depth : Z) :
  (∀ l, Forall in_grid l → l ≠ [] → ∃ s, score l = Ok s) →
  ∀ (fuel : nat) (P : list position) (pos : position) (depth : Z),
    Forall in_grid P → P ≠ [] → last P = Some pos →
    0 < Z.of_nat fuel → max_depth - depth + 1 < Z.of_nat fuel →
    ∃ r, pure_dfs fuel end_ score P pos depth max_depth = Ok r.
Proof.
  intros Hscore.
  induction fuel as [| fuel IH]; intros P pos depth Hg Hne Hlast Hf Hfuel.
  - lia.
  - cbn [pure_dfs].
    destruct (Z.gtb_spec depth max_depth) as [| Hdepth];
      [exists None; reflexivity |].
    destruct (Hscore P Hg Hne) as [sc ->]. cbn [Out.bind].
    destruct (decide (pos = end_)).
    { destruct (sc =? target); eexists; reflexivity. }
    destruct (sc >? target); [exists None; reflexivity |].
    pose proof (last_in_grid P pos Hg Hlast) as Hpos.
    unfold py_getitem. rewrite (knight_moves_lookup pos Hpos). cbn [Out.bind].
    apply pure_moves_total. intros x Hx Hnx. apply IH.
    + apply Forall_app. split; [exact Hg |].
      constructor; [| constructor].
      exact (proj1 (Forall_forall _ _) (knight_destinations_in_grid pos) x Hx).
    + intros Hnil. apply app_eq_nil in Hnil. destruct Hnil. discriminate.
    + apply last_snoc.
    + lia.
    + lia.
Qed.

Lemma exact_score_compute (l : list position) (values : weights) (s : Z) :
  positive values → exact_score l values = Ok s → s ≤ target →
  compute_score l values = Ok s.
Proof.
  intros Hpos Hs Hle. unfold exact_score in Hs.
  destruct (path_classes l) as [cs |] eqn:Hcs; [| discriminate].
  cbn [Out.bind] in Hs. destruct cs as [| first rest]; [discriminate |].
  injection Hs as <-.
  assert (Hne : l ≠ []) by (intros ->; discriminate).
  rewrite (compute_score_early l values _ Hne Hcs).
  unfold early_score. rewrite Hcs. cbn [Out.bind]. f_equal.
  apply fold_from_exact_early; [exact Hpos | | exact Hle].
  pose proof (weight_positive values first Hpos). lia.
Qed.

Lemma exact_score_take (l : list position) (values : weights) (n : nat)
    (s : Z) :
  exact_score l values = Ok s →
  ∃ s', exact_score (take (S n) l) values = Ok s'.
Proof.
  unfold exact_score, path_classes. intros Hs.
  destruct (Out.mapM cell_class l) as [cs |] eqn:Hcs; [| discriminate].
  rewrite (mapM_take _ (S n) l cs Hcs). cbn [Out.bind] in *.
  destruct cs as [| first rest]; [discriminate |]. eexists. reflexivity.
Qed.

(** Under positive weights, the computed score of a non-empty prefix of a
    path that scores the target stays within the target. *)
Lemma prefix_within_target (values : weights) (P ext : list position) :
  positive values → P ≠ [] →
  exact_score (P ++ ext) values = Ok target →
  ∃ s, compute_score P values = Ok s ∧ s ≤ target.
Proof.
  intros Hpos Hne Hq.
  destruct P as [| p P]; [congruence |].
  destruct (exact_score_take _ values (length P) _ Hq) as [s Hs].
  pose proof (exact_score_prefix values _ (length P) s target Hpos Hs Hq) as Hle.
  replace (take (S (length P)) ((p :: P) ++ ext)) with (p :: P) in Hs.
  2:{ change (S (length P)) with (length (p :: P)).
      rewrite take_app_length. reflexivity. }
  exists s. split; [| exact Hle].
  apply exact_score_compute; assumption.
Qed.

Lemma pure_moves_complete (next : position → outcome (option (list position)))
    (P moves : list position) (x : position) :
  x ∈ moves → x ∉ P →
  (∃ r, next x = Ok r ∧ truthy r = true) →
  (∀ y, y ∈ moves → y ∉ P → ∃ r, next y = Ok r) →
  ∃ r, pure_moves next P moves = Ok r ∧ truthy r = true.
Proof.
  intros Hx Hnx (rx & Hrx & Htx).
  induction moves as [| y moves IH]; intros Htotal.
  - apply elem_of_nil in Hx. contradiction.
  - simpl. destruct (decide (y ∈ P)) as [Hin | Hnin].
    + apply elem_of_cons in Hx. destruct Hx as [-> | Hx]; [contradiction |].
      apply IH; [exact Hx |]. intros z Hz. apply Htotal. right. exact Hz.
    + destruct (Htotal y ltac:(left) Hnin) as [r Hr]. rewrite Hr.
      cbn [Out.bind]. destruct (truthy r) eqn:Ht.
      * exists r. split; [reflexivity | exact Ht].
      * apply elem_of_cons in Hx. destruct Hx as [-> | Hx].
        { rewrite Hrx in Hr. injection Hr as ->. congruence. }
        apply IH; [exact Hx |]. intros z Hz. apply Htotal. right. exact Hz.
Qed.

(** Under positive weights, when the current path extends to a path that
    ends at [end_] within the depth bound and scores the target, the search
    finds a path. *)
Lemma pure_dfs_complete (values : weights) (end_ : position) (max_depth : Z) :
  positive values →
  ∀ (ext : list position) (fuel : nat) (P : list position) (pos : position)
    (depth : Z),
    Forall in_grid P → P ≠ [] → last P = Some pos →
    Z.of_nat (length P) = depth + 1 →
    NoDup (P ++ ext) → knight_walk (P ++ ext) →
    last (P ++ ext) = Some end_ →
    Z.of_nat (length (P ++ ext)) ≤ max_depth + 1 →
    exact_score (P ++ ext) values = Ok target →
    max_depth - depth + 1 < Z.of_nat fuel →
    ∃ r, pure_dfs fuel end_ (computed values) P pos depth max_depth = Ok r ∧
         truthy r = true.
Proof.
  intros Hpos.
  induction ext as [| x ext IH];
    intros fuel P pos depth Hg Hne Hlast Hlen Hnd Hwalk Hend Hbound Hscore Hfuel.
  - rewrite app_nil_r in *.
    destruct fuel as [| fuel]; [lia |]. cbn [pure_dfs].
    destruct (Z.gtb_spec depth max_depth) as [| _]; [lia |].
    assert (pos = end_) as -> by congruence.
    destruct (decide (end_ = end_)) as [_ |]; [| congruence].
    unfold computed.
    rewrite (exact_score_compute P values target Hpos Hscore ltac:(lia)).
    cbn [Out.bind]. rewrite Z.eqb_refl.
    exists (Some P). split; [reflexivity | apply truthy_Some_path, Hne].
  - rewrite length_app in Hbound. simpl in Hbound.
    destruct fuel as [| fuel]; [lia |]. cbn [pure_dfs].
    destruct (Z.gtb_spec depth max_depth) as [| _]; [lia |].
    assert (Hx : x ∉ P).
    { intros Hin. apply NoDup_app in Hnd. destruct Hnd as (_ & Hdisj & _).
      apply (Hdisj x Hin). left. }
    destruct (decide (pos = end_)) as [-> | _].
    { exfalso. apply NoDup_app in Hnd. destruct Hnd as (_ & Hdisj & _).
      apply (Hdisj end_).
      - apply last_Some_elem_of, Hlast.
      - rewrite last_app_cons in Hend. apply last_Some_elem_of, Hend. }
    destruct (prefix_within_target values P (x :: ext) Hpos Hne Hscore)
      as (s & Hs & Hle).
    unfold computed at 1. rewrite Hs. cbn [Out.bind].
    destruct (Z.gtb_spec s target) as [| _]; [lia |].
    pose proof (knight_walk_edge P pos x ext Hwalk Hlast) as Hedge.
    pose proof (edge_in_grid pos x Hedge) as [Hpg Hxg].
    destruct Hedge as (moves & Hmoves & Hxm).
    unfold py_getitem. rewrite Hmoves. cbn [Out.bind].
    assert (HgP : ∀ y, in_grid y → Forall in_grid (P ++ [y])).
    { intros y Hy. apply Forall_app. split; [exact Hg |].
      constructor; [exact Hy | constructor]. }
    assert (HneP : ∀ y, P ++ [y] ≠ []).
    { intros y Hnil. apply app_eq_nil in Hnil. destruct Hnil. discriminate. }
    apply (pure_moves_complete _ P moves x Hxm Hx).
    + apply IH; try (rewrite <- app_assoc; assumption).
      * apply HgP, Hxg.
      * apply HneP.
      * apply last_snoc.
      * rewrite length_app. simpl. lia.
      * rewrite <- app_assoc, length_app. simpl. lia.
      * lia.
    + intros y Hy Hny.
      apply pure_dfs_total.
      * intros l Hl Hlne. apply compute_score_in_grid; assumption.
      * apply HgP. rewrite knight_moves_lookup in Hmoves by exact Hpg.
        injection Hmoves as <-.
        exact (proj1 (Forall_forall _ _) (knight_destinations_in_grid pos) y Hy).
      * apply HneP.
      * apply last_snoc.
      * lia.
      * lia.
Qed.

Lemma recursion_limit_val : Z.of_nat recursion_limit = 1000.
Proof. vm_compute. reflexivity. Qed.

(** One round from [start]: it returns; a path it finds is a qualifying
    path of that round; and it finds a path when the round has one. *)
Lemma pure_round_total (score : scorer) (start end_ : position) (d : Z) :
  (∀ l, Forall in_grid l → l ≠ [] → ∃ s, score l = Ok s) →
  in_grid start → d < 990 →
  ∃ r, pure_dfs recursion_limit end_ score [start] start 0 d = Ok r.
Proof.
  intros Hscore Hstart Hd. pose proof recursion_limit_val.
  apply pure_dfs_total; try assumption; try lia.
  - constructor; [exact Hstart | constructor].
  - discriminate.
  - reflexivity.
Qed.

Lemma pure_round_complete (values : weights) (start end_ : position)
    (d : Z) (q : list position) :
  positive values → in_grid start → d < 990 →
  qualifying start end_ values d q →
  ∃ r, pure_dfs recursion_limit end_ (computed values) [start] start 0 d = Ok r ∧
       truthy r = true.
Proof.
  intros Hpos Hstart Hd (Hhead & Hlast & Hnd & Hwalk & Hlen & Hscore).
  pose proof recursion_limit_val.
  apply head_Some in Hhead. destruct Hhead as [ext ->].
  apply (pure_dfs_complete values end_ d Hpos ext recursion_limit [start]);
    try assumption; try lia.
  - constructor; [exact Hstart | constructor].
  - discriminate.
  - reflexivity.
  - reflexivity.
Qed.

Lemma pure_round_sound (score : scorer) (start end_ : position) (d : Z)
    (r : option (list position)) :
  pure_dfs recursion_limit end_ score [start] start 0 d = Ok r →
  truthy r = true →
  ∃ ext, r = Some (start :: ext) ∧ last (start :: ext) = Some end_ ∧
         NoDup (start :: ext) ∧ knight_walk (start :: ext) ∧
         Forall in_grid ext ∧ Z.of_nat (length (start :: ext)) ≤ d + 1 ∧
         score (start :: ext) = Ok target.
Proof.
  intros Hr Ht. destruct r as [q |]; [| discriminate].
  apply pure_dfs_sound in Hr;
    [| reflexivity | reflexivity | apply NoDup_singleton | apply knight_walk_one].
  destruct Hr as (ext & -> & H). exists ext. split; [reflexivity | exact H].
Qed.

(** Iterative deepening over the depths [a, a+1, ...]: when some round [m]
    among them has a qualifying path, a path is found, and it is found in a
    round not later than [m]. *)
Lemma pure_rounds_complete (values : weights) (start end_ : position) :
  positive values → in_grid start →
  ∀ (n : nat) (a m : Z) (q : list position),
    a + Z.of_nat n < 990 → a ≤ m < a + Z.of_nat n →
    qualifying start end_ values m q →
    ∃ p, pure_rounds start end_ (computed values) (seqZ a (Z.of_nat n))
         = Ok (Some p) ∧
         p ≠ [] ∧ Z.of_nat (length p) ≤ m + 1.
Proof.
  intros Hpos Hstart.
  induction n as [| n IH]; intros a m q Hfuel Hm Hq; [lia |].
  rewrite seqZ_cons by lia. cbn [pure_rounds].
  destruct (pure_round_total (computed values) start end_ a) as [r Hr];
    [intros l Hl Hne; apply compute_score_in_grid; assumption
    | exact Hstart | lia |].
  rewrite Hr. cbn [Out.bind]. destruct (truthy r) eqn:Ht.
  - destruct (pure_round_sound _ start end_ a r Hr Ht)
      as (ext & -> & _ & _ & _ & _ & Hlen & _).
    exists (start :: ext). split; [reflexivity |]. split; [discriminate | lia].
  - destruct (decide (m = a)) as [-> | Hne].
    + destruct (pure_round_complete values start end_ a q Hpos Hstart
                  ltac:(lia) Hq) as (r' & Hr' & Ht').
      congruence.
    + replace (Z.pred (Z.of_nat (S n))) with (Z.of_nat n) by lia.
      apply (IH (Z.succ a) m q); [lia | lia | exact Hq].
Qed.

Lemma pure_rounds_total (score : scorer) (start end_ : position) :
  (∀ l, Forall in_grid l → l ≠ [] → ∃ s, score l = Ok s) →
  in_grid start →
  ∀ depths, (∀ d, d ∈ depths → d < 990) →
    ∃ r, pure_rounds start end_ score depths = Ok r.
Proof.
  intros Hscore Hstart. induction depths as [| d depths IH]; intros Hd.
  - exists None. reflexivity.
  - cbn [pure_rounds].
    destruct (pure_round_total score start end_ d Hscore Hstart) as [r ->].
    { apply Hd. left. }
    cbn [Out.bind]. destruct (truthy r); [exists r; reflexivity |].
    apply IH. intros d' Hd'. apply Hd. right. exact Hd'.
Qed.

(** From an in-grid start [find_path] returns, whatever the cache holds. *)
Lemma find_path_total (values : weights) (start end_ : position)
    (slf : solver) :
  in_grid start →
  ∃ r slf', find_path start end_ values slf = Ok (r, slf').
Proof.
  intros Hstart.
  pose proof (find_path_pure values start end_ slf) as Hpure.
  destruct (pure_rounds_total (cached_scorer values (score_cache slf))
              start end_) with (depths := range 4 12) as [r Hr].
  - intros l Hl Hne. apply cached_scorer_in_grid; assumption.
  - exact Hstart.
  - intros d Hd. apply elem_of_range in Hd. lia.
  - rewrite Hr in Hpure.
    destruct (find_path start end_ values slf) as [[r' slf'] | e];
      [| discriminate].
    exists r', slf'. reflexivity.
Qed.

Lemma find_path_qualifying (values : weights) (start end_ : position)
    (slf slf' : solver) (q : list position) :
  fresh_for values (score_cache slf) →
  find_path start end_ values slf = Ok (Some q, slf') →
  qualifying start end_ values 11 q.
Proof.
  intros Hfresh Hfind.
  destruct (find_path_shape values start end_ slf slf' q Hfind)
    as (ext & -> & Hlast & Hnd & Hwalk & _ & Hlen & _).
  split; [reflexivity |]. split; [exact Hlast |]. split; [exact Hnd |].
  split; [exact Hwalk |]. split; [lia |].
  exact (find_path_sound values start end_ slf slf' _ Hfresh Hfind).
Qed.

Lemma run_0_0_2_1_eq :
  find_path (0, 0) (2, 1) (Weights 1012 1013 1014) PuzzleSolver = run_0_0_2_1.
Proof. vm_compute. reflexivity. Qed.

(** C1. A path that [find_path] returns, when invoked with an empty score
    cache, begins at [start], ends at [end_], repeats no position, has every
    consecutive pair of positions joined by an edge of the precomputed
    knight-move table, and its exact score under the weights is the target.
    (The weights need not be positive for this.) *)
Theorem find_path_returns_target_path (start end_ : position)
    (values : weights) (slf slf' : solver) (q : list position) :
  score_cache slf = ∅ →
  find_path start end_ values slf = Ok (Some q, slf') →
  head q = Some start ∧ last q = Some end_ ∧ NoDup q ∧ knight_walk q ∧
  exact_score q values = Ok target.
Proof.
  intros Hempty Hfind.
  assert (Hfresh : fresh_for values (score_cache slf))
    by (rewrite Hempty; apply fresh_for_empty).
  destruct (find_path_qualifying values start end_ slf slf' q Hfresh Hfind)
    as (Hhead & Hlast & Hnd & Hwalk & _ & Hscore).
  repeat split; assumption.
Qed.

Lemma find_path_returns_target_path_witness :
  head [(0, 0); (2, 1)] = Some (0, 0) ∧ last [(0, 0); (2, 1)] = Some (2, 1) ∧
  NoDup [(0, 0); (2, 1)] ∧ knight_walk [(0, 0); (2, 1)] ∧
  exact_score [(0, 0); (2, 1)] (Weights 1012 1013 1014) = Ok target.
Proof.
  pose proof run_0_0_2_1_eq as H. unfold run_0_0_2_1 in H.
  exact (find_path_returns_target_path (0, 0) (2, 1) (Weights 1012 1013 1014)
           PuzzleSolver _ [(0, 0); (2, 1)] eq_refl H).
Defined.

(** At a node that is [end_], [dfs] scores the current path and returns it
    or fails: it never extends the path. *)
Lemma dfs_stops_at_end (fuel : nat) (end_ : position) (values : weights)
    (depth max_depth : Z) (s s' : search) (r : option (list position)) :
  dfs fuel end_ values end_ depth max_depth s = Ok (r, s') →
  path s' = path s ∧ visited s' = visited s ∧ (r = None ∨ r = Some (path s)).
Proof.
  destruct fuel as [| fuel]; [discriminate |]. cbn [dfs].
  destruct (depth >? max_depth).
  { intros H. injection H as <- <-. auto. }
  destruct (decide (end_ = end_)) as [_ |]; [| congruence].
  unfold St.bind, St.gets, on_self, St.ret.
  destruct (calculate_score (path s) values (self s)) as [[sc slf'] |];
    [| discriminate].
  destruct (sc =? target); intros H; injection H as <- <-; auto.
Qed.

(** C10. A path that [find_path] returns for distinct [start] and [end_]
    holds [end_] exactly once, as its last element; and [dfs] stops at a
    node equal to [end_], returning the current path or failure without
    extending it. *)
Theorem find_path_ends_once (start end_ : position) (values : weights) :
  (∀ (slf slf' : solver) (q : list position),
     start ≠ end_ →
     find_path start end_ values slf = Ok (Some q, slf') →
     ∃ body, q = start :: body ++ [end_] ∧ end_ ∉ start :: body) ∧
  (∀ (fuel : nat) (depth max_depth : Z) (s s' : search)
     (r : option (list position)),
     dfs fuel end_ values end_ depth max_depth s = Ok (r, s') →
     path s' = path s ∧ (r = None ∨ r = Some (path s))).
Proof.
  split.
  - intros slf slf' q Hne Hfind.
    destruct (find_path_shape values start end_ slf slf' q Hfind)
      as (ext & -> & Hlast & Hnd & _).
    apply last_Some in Hlast. destruct Hlast as [l' Hl'].
    destruct l' as [| x body].
    { simpl in Hl'. injection Hl' as -> _. congruence. }
    simpl in Hl'. injection Hl' as <- ->.
    exists body. split; [reflexivity |].
    change (start :: body ++ [end_]) with ((start :: body) ++ [end_]) in Hnd.
    apply NoDup_app in Hnd. destruct Hnd as (_ & Hdisj & _).
    intros Hin. apply (Hdisj end_ Hin).
    apply list_elem_of_singleton. reflexivity.
  - intros fuel depth max_depth s s' r H.
    destruct (dfs_stops_at_end fuel end_ values depth max_depth s s' r H)
      as (Hp & _ & Hr).
    split; assumption.
Qed.

Lemma find_path_ends_once_witness :
  ∃ body, [(0, 0); (2, 1)] = (0, 0) :: body ++ [(2, 1)] ∧
          (2, 1) ∉ (0, 0) :: body.
Proof.
  pose proof run_0_0_2_1_eq as H. unfold run_0_0_2_1 in H.
  refine (proj1 (find_path_ends_once (0, 0) (2, 1) (Weights 1012 1013 1014))
            PuzzleSolver _ [(0, 0); (2, 1)] _ H).
  discriminate.
Defined.

(** One round of [find_path] on a solver whose cache agrees with an oracle
    returns what the search without store returns under that oracle. *)
Lemma round_sim (score : scorer) (values : weights) (start end_ : position)
    (d : Z) (slf : solver) :
  agrees score values (score_cache slf) →
  match pure_dfs recursion_limit end_ score [start] start 0 d with
  | Ok r =>
      ∃ s', dfs recursion_limit end_ values start 0 d
                (Search [start] {[start]} slf) = Ok (r, s')
  | Raise e =>
      dfs recursion_limit end_ values start 0 d (Search [start] {[start]} slf)
      = Raise e
  end.
Proof.
  intros Hagree.
  assert (Hpre : search_pre score values (Search [start] {[start]} slf)).
  { repeat split; simpl; [discriminate | | exact Hagree].
    symmetry. apply (right_id_L ∅ (∪)). }
  pose proof (dfs_sim score values end_ recursion_limit start 0 d _ Hpre) as H.
  unfold simulates in H. cbn [path] in H.
  destruct (pure_dfs recursion_limit end_ score [start] start 0 d) as [r | e];
    [| exact H].
  destruct H as (s' & H & _). exists s'. exact H.
Qed.

Lemma pure_rounds_None (score : scorer) (start end_ : position) :
  ∀ depths : list Z,
    pure_rounds start end_ score depths = Ok None ↔
    ∀ d, d ∈ depths →
         ∃ r, pure_dfs recursion_limit end_ score [start] start 0 d = Ok r ∧
              truthy r = false.
Proof.
  induction depths as [| d depths IH]; cbn [pure_rounds].
  - split; [| reflexivity]. intros _ d Hd. apply elem_of_nil in Hd. destruct Hd.
  - destruct (pure_dfs recursion_limit end_ score [start] start 0 d)
      as [found | e] eqn:Hd; cbn [Out.bind].
    + destruct (truthy found) eqn:Ht.
      * split.
        -- intros H. injection H as ->. discriminate.
        -- intros H. destruct (H d ltac:(left)) as (r & Hr & Hf).
           rewrite Hd in Hr. injection Hr as <-. congruence.
      * rewrite IH. split.
        -- intros H d' Hd'. apply elem_of_cons in Hd'.
           destruct Hd' as [-> | Hd']; [| exact (H d' Hd')].
           exists found. split; assumption.
        -- intros H d' Hd'. apply H. right. exact Hd'.
    + split; [discriminate |].
      intros H. destruct (H d ltac:(left)) as (r & Hr & _).
      rewrite Hd in Hr. discriminate.
Qed.

Lemma pure_rounds_Some (score : scorer) (start end_ : position)
    (p : list position) :
  ∀ depths : list Z,
    pure_rounds start end_ score depths = Ok (Some p) →
    ∃ (i : nat) (d : Z),
      depths !! i = Some d ∧
      pure_dfs recursion_limit end_ score [start] start 0 d = Ok (Some p) ∧
      ∀ (j : nat) (d' : Z), (j < i)%nat → depths !! j = Some d' →
        ∃ r, pure_dfs recursion_limit end_ score [start] start 0 d' = Ok r ∧
             truthy r = false.
Proof.
  induction depths as [| d depths IH]; cbn [pure_rounds]; [discriminate |].
  destruct (pure_dfs recursion_limit end_ score [start] start 0 d)
    as [found | e] eqn:Hd; cbn [Out.bind]; [| discriminate].
  destruct (truthy found) eqn:Ht.
  - intros H. injection H as ->. exists 0%nat, d.
    split; [reflexivity |]. split; [exact Hd |]. intros j d' Hj. lia.
  - intros H. destruct (IH H) as (i & d0 & Hi & Hp & Hbefore).
    exists (S i), d0. split; [exact Hi |]. split; [exact Hp |].
    intros [| j] d' Hj Hd'.
    + injection Hd' as <-. exists found. split; [exact Hd | exact Ht].
    + apply (Hbefore j d'); [lia | exact Hd'].
Qed.

(** C7. From a start position of the grid, [find_path] returns rather than
    raises, and a path it returns has at most 12 positions (11 moves).  It
    returns [None] exactly when each of the rounds with maximum depth 4 to 11
    fails, a round being [dfs] from [start] on a path and a visited set that
    hold [start] alone, with the cache as the rounds before it left it.  A
    path it returns is the one returned by the first round that succeeds, the
    maximum depths 4 to 11 being tried in increasing order: there is a depth
    [d] from 4 to 11 whose round returns this very path while the round of
    every depth from 4 below [d] fails.  On a fresh cache and under positive
    weights [None] is returned exactly when no simple knight path from [start]
    to [end_] of at most 11 moves scores the target; and a returned path has
    at most [m + 1] positions whenever such a path of at most [m] moves
    exists for a depth [m] from 4 to 11. *)
Theorem find_path_iterative_deepening (start end_ : position)
    (values : weights) (slf : solver) :
  in_grid start →
  ∃ r slf',
    find_path start end_ values slf = Ok (r, slf') ∧
    (∀ p, r = Some p → Z.of_nat (length p) ≤ 12) ∧
    (r = None ↔
     ∀ d slf_d,
       4 ≤ d ≤ 11 →
       agrees (cached_scorer values (score_cache slf)) values
              (score_cache slf_d) →
       ∃ r_d s_d,
         dfs recursion_limit end_ values start 0 d
             (Search [start] {[start]} slf_d) = Ok (r_d, s_d) ∧
         truthy r_d = false) ∧
    (∀ p, r = Some p →
       ∃ d, 4 ≤ d ≤ 11 ∧
         (∀ slf_d,
            agrees (cached_scorer values (score_cache slf)) values
                   (score_cache slf_d) →
            ∃ s_d,
              dfs recursion_limit end_ values start 0 d
                  (Search [start] {[start]} slf_d) = Ok (Some p, s_d)) ∧
         (∀ d' slf_d,
            4 ≤ d' < d →
            agrees (cached_scorer values (score_cache slf)) values
                   (score_cache slf_d) →
            ∃ r_d s_d,
              dfs recursion_limit end_ values start 0 d'
                  (Search [start] {[start]} slf_d) = Ok (r_d, s_d) ∧
              truthy r_d = false)) ∧
    (positive values → fresh_for values (score_cache slf) →
     (r = None ↔ ¬ ∃ q, qualifying start end_ values 11 q) ∧
     (∀ p m q, r = Some p → 4 ≤ m ≤ 11 →
               qualifying start end_ values m q →
               Z.of_nat (length p) ≤ m + 1)).
Proof.
  intros Hstart.
  destruct (find_path_total values start end_ slf Hstart) as (r & slf' & Hfind).
  exists r, slf'. split; [exact Hfind |]. split; [| split; [| split]].
  - intros p ->.
    destruct (find_path_shape values start end_ slf slf' p Hfind)
      as (ext & _ & _ & _ & _ & _ & Hlen & _).
    exact Hlen.
  - pose proof (find_path_pure values start end_ slf) as Hpure.
    rewrite Hfind in Hpure. cbn [result] in Hpure.
    set (score := cached_scorer values (score_cache slf)) in *.
    split.
    + intros -> d slf_d Hd Hagree. symmetry in Hpure.
      destruct (proj1 (pure_rounds_None score start end_ (range 4 12)) Hpure d)
        as (r_d & Hr & Ht); [apply elem_of_range; lia |].
      pose proof (round_sim score values start end_ d slf_d Hagree) as Hsim.
      rewrite Hr in Hsim. destruct Hsim as [s_d Hs].
      exists r_d, s_d. split; assumption.
    + intros Hrounds.
      assert (Hnone : pure_rounds start end_ score (range 4 12) = Ok None).
      { apply pure_rounds_None. intros d Hd. apply elem_of_range in Hd.
        destruct (Hrounds d slf ltac:(lia) (agrees_cached _ _))
          as (r_d & s_d & Hs & Ht).
        pose proof (round_sim score values start end_ d slf
                      (agrees_cached _ _)) as Hsim.
        destruct (pure_dfs recursion_limit end_ score [start] start 0 d)
          as [r' | e].
        - destruct Hsim as [s' Hs']. rewrite Hs in Hs'. injection Hs' as <- _.
          exists r_d. split; [reflexivity | exact Ht].
        - rewrite Hs in Hsim. discriminate. }
      rewrite Hnone in Hpure. injection Hpure as ->. reflexivity.
  - intros p ->.
    pose proof (find_path_pure values start end_ slf) as Hpure.
    rewrite Hfind in Hpure. cbn [result] in Hpure. symmetry in Hpure.
    set (score := cached_scorer values (score_cache slf)) in *.
    destruct (pure_rounds_Some score start end_ p (range 4 12) Hpure)
      as (i & d & Hi & Hd & Hbefore).
    unfold range in Hi, Hbefore. apply lookup_seqZ in Hi.
    exists d. split; [lia |]. split.
    + intros slf_d Hagree.
      pose proof (round_sim score values start end_ d slf_d Hagree) as Hsim.
      rewrite Hd in Hsim. exact Hsim.
    + intros d' slf_d Hd' Hagree.
      destruct (Hbefore (Z.to_nat (d' - 4)) d' ltac:(lia))
        as (r_d & Hr & Ht); [apply lookup_seqZ; lia |].
      pose proof (round_sim score values start end_ d' slf_d Hagree) as Hsim.
      rewrite Hr in Hsim. destruct Hsim as [s_d Hs].
      exists r_d, s_d. split; assumption.
  - intros Hpos Hfresh.
    pose proof (find_path_pure_fresh values start end_ slf Hfresh) as Hpure.
    rewrite Hfind in Hpure. cbn [result] in Hpure.
    change (range 4 12) with (seqZ 4 (Z.of_nat 8)) in Hpure.
    assert (Hround : ∀ m q, 4 ≤ m ≤ 11 → qualifying start end_ values m q →
                     ∃ p, r = Some p ∧ Z.of_nat (length p) ≤ m + 1).
    { intros m q Hm Hq.
      destruct (pure_rounds_complete values start end_ Hpos Hstart 8 4 m q)
        as (p & Hp & _ & Hlen); [lia | lia | exact Hq |].
      exists p. split; [congruence | exact Hlen]. }
    split; [split |].
    + intros -> (q & Hq).
      destruct (Hround 11 q ltac:(lia) Hq) as (p & Hp & _). discriminate.
    + intros Hnone. destruct r as [p |]; [| reflexivity].
      exfalso. apply Hnone. exists p.
      exact (find_path_qualifying values start end_ slf slf' p Hfresh Hfind).
    + intros p m q -> Hm Hq.
      destruct (Hround m q Hm Hq) as (p' & Hp' & Hlen).
      injection Hp' as ->. exact Hlen.
Qed.

Lemma find_path_iterative_deepening_witness :
  in_grid (0, 0) ∧
  ∃ r slf',
    find_path (0, 0) (2, 1) (Weights 1012 1013 1014) PuzzleSolver = Ok (r, slf') ∧
    (∀ p, r = Some p → Z.of_nat (length p) ≤ 12).
Proof.
  assert (Hstart : in_grid (0, 0)) by (unfold in_grid; simpl; lia).
  split; [exact Hstart |].
  destruct (find_path_iterative_deepening (0, 0) (2, 1)
              (Weights 1012 1013 1014) PuzzleSolver Hstart) as (r & slf' & Hfind & Hlen & _).
  exists r, slf'. split; assumption.
Defined.

(** ** ParameterOptimizer *)

(** [find_path] from a start of the grid on a cache that is fresh for the
    weights: it returns what it returns on an empty cache, leaves the cache
    fresh, and every call it makes is under these weights on a fresh cache,
    the first of them on the cache as it was. *)
Lemma find_path_spec (values : weights) (start end_ : position)
    (slf : solver) :
  in_grid start → fresh_for values (score_cache slf) →
  ∃ r slf' added,
    find_path start end_ values slf = Ok (r, slf') ∧
    result (find_path start end_ values PuzzleSolver) = Ok r ∧
    (r = None ∨ ∃ x ext, r = Some (x :: ext) ∧ Forall in_grid (x :: ext)) ∧
    fresh_for values (score_cache slf') ∧
    score_calls slf'
    = added ++ Call [start] values (score_cache slf) :: score_calls slf ∧
    Forall (λ c, call_values c = values ∧ fresh_for values (call_cache c))
           (added ++ [Call [start] values (score_cache slf)]).
Proof.
  intros Hstart Hfresh.
  pose proof (find_path_pure_fresh values start end_ slf Hfresh) as Hpure.
  pose proof (find_path_pure_fresh values start end_ PuzzleSolver
                (fresh_for_empty values)) as Hpure0.
  pose proof (find_path_rounds_sim (computed values) values start end_
                (range 4 12) slf (proj2 (agrees_fresh _ _) Hfresh)) as Hsim.
  destruct (find_path_total values start end_ slf Hstart) as (r & slf' & Hfind).
  rewrite Hfind in Hpure. cbn [result] in Hpure. rewrite <- Hpure in Hsim.
  cbn beta iota in Hsim.
  destruct Hsim as (slf'' & Hfind' & Hfresh' & _ & added & Hlog & Hunder & Hfirst).
  change (find_path_rounds start end_ values (range 4 12) slf)
    with (find_path start end_ values slf) in Hfind'.
  rewrite Hfind in Hfind'. injection Hfind' as <-.
  destruct (Hfirst 4 (seqZ 5 7) eq_refl ltac:(lia)) as [added' ->].
  exists r, slf', added'. split; [exact Hfind |].
  split; [rewrite Hpure0; symmetry; exact Hpure |].
  split; [| split; [| split]].
  - destruct r as [q |]; [right | left; reflexivity].
    destruct (find_path_shape values start end_ slf slf' q Hfind)
      as (ext & -> & _ & _ & _ & Hg & _).
    exists start, ext. split; [reflexivity |]. constructor; assumption.
  - apply agrees_fresh. exact Hfresh'.
  - rewrite Hlog, <- app_assoc. reflexivity.
  - eapply Forall_impl; [exact Hunder |].
    intros c [Hv Ha]. split; [exact Hv | apply agrees_fresh, Ha].
Qed.

Lemma format_path_in_grid (l : list position) :
  Forall in_grid l → ∃ f, format_path l = Ok f.
Proof.
  intros Hg. eexists. unfold format_path.
  rewrite format_path_tokens; [reflexivity |].
  eapply Forall_impl; [exact Hg |]. intros p [_ Hp]. lia.
Qed.

Lemma format_solution_in_grid (A B C : Z) (p1 p2 : list position) :
  Forall in_grid p1 → Forall in_grid p2 →
  ∃ f, format_solution A B C p1 p2 = Ok f.
Proof.
  intros H1 H2. unfold format_solution.
  destruct (format_path_in_grid p1 H1) as [f1 ->].
  destruct (format_path_in_grid p2 H2) as [f2 ->].
  eexists. reflexivity.
Qed.

Global Opaque find_path.

(** *** Loops *)

Lemma for_each_ext {S T} (items : list T) (body1 body2 : T → M S flow) (s : S) :
  (∀ x s, x ∈ items → body1 x s = body2 x s) →
  for_each items body1 s = for_each items body2 s.
Proof.
  revert s. induction items as [| x items IH]; intros s Hext.
  - reflexivity.
  - cbn [for_each]. unfold St.bind. rewrite (Hext x s ltac:(left)).
    destruct (body2 x s) as [[[|] s'] |]; try reflexivity.
    apply IH. intros y s0 Hy. apply Hext. right. exact Hy.
Qed.

(** A loop whose body never breaks runs over a concatenation as over its
    parts in turn. *)
Lemma for_each_app {S T} (xs ys : list T) (body : T → M S flow) (s : S) :
  (∀ x s c s', body x s = Ok (c, s') → c = Next) →
  for_each (xs ++ ys) body s
  = (run for_each xs body in for_each ys body) s.
Proof.
  intros Hnext. revert s. induction xs as [| x xs IH]; intros s.
  - reflexivity.
  - cbn [app for_each]. unfold St.bind.
    destruct (body x s) as [[c s'] |] eqn:Hx; [| reflexivity].
    rewrite (Hnext x s c s' Hx). rewrite IH. reflexivity.
Qed.

Lemma for_each_bind {S T U} (f : T → list U) (xs : list T)
    (body : U → M S flow) (s : S) :
  (∀ x s c s', body x s = Ok (c, s') → c = Next) →
  for_each (xs ≫= f) body s
  = for_each xs (λ x, run for_each (f x) body in St.ret Next) s.
Proof.
  intros Hnext. revert s. induction xs as [| x xs IH]; intros s.
  - reflexivity.
  - change ((x :: xs) ≫= f) with (f x ++ (xs ≫= f)).
    rewrite (for_each_app _ _ _ _ Hnext). cbn [for_each].
    unfold St.bind, St.ret.
    destruct (for_each (f x) body s) as [[[] s'] |]; [| reflexivity].
    apply IH.
Qed.

Lemma for_each_singletons {S T U} (g : T → U) (xs : list T)
    (body : U → M S flow) (s : S) :
  for_each (xs ≫= λ x, [g x]) body s = for_each xs (λ x, body (g x)) s.
Proof.
  revert s. induction xs as [| x xs IH]; intros s.
  - reflexivity.
  - change ((x :: xs) ≫= λ x, [g x]) with (g x :: (xs ≫= λ x, [g x])).
    cbn [for_each]. unfold St.bind.
    destruct (body (g x) s) as [[[|] s'] |]; try reflexivity. apply IH.
Qed.

(** The invariant rule for a loop whose body never breaks. *)
Lemma for_each_inv {S T} (I : list T → S → Prop) (body : T → M S flow)
    (items : list T) :
  (∀ pre x post s, items = pre ++ x :: post → I pre s →
     ∃ s', body x s = Ok (Next, s') ∧ I (pre ++ [x]) s') →
  ∀ s, I [] s → ∃ s', for_each items body s = Ok (tt, s') ∧ I items s'.
Proof.
  intros Hbody.
  assert (H : ∀ post pre s, items = pre ++ post → I pre s →
              ∃ s', for_each post body s = Ok (tt, s') ∧ I items s').
  { induction post as [| x post IH]; intros pre s Hitems Hpre.
    - rewrite app_nil_r in Hitems. subst pre. exists s. split; [reflexivity | exact Hpre].
    - destruct (Hbody pre x post s Hitems Hpre) as (s1 & Hx & H1).
      cbn [for_each]. unfold St.bind. rewrite Hx.
      apply (IH (pre ++ [x])); [| exact H1].
      rewrite <- app_assoc. exact Hitems. }
  intros s Hs. exact (H items [] s eq_refl Hs).
Qed.

(** *** The body of the loops *)

Lemma start1_in_grid : in_grid (5, 0).
Proof. unfold in_grid. simpl. lia. Qed.

Lemma start2_in_grid : in_grid (0, 0).
Proof. unfold in_grid. simpl. lia. Qed.

(** One run of the body.  It never breaks and never raises.  It leaves
    everything as it is when the sum does not improve on the best sum;
    otherwise it clears the cache, searches, and records the triple with its
    two paths exactly when both searches succeed. *)
Lemma solve_body_run (A B C : Z) (l : locals) :
  ∃ l', solve_body A B C l = Ok (Next, l') ∧
    if ge_bound (A + B + C) (best_sum l) then l' = l
    else
      (∃ added,
         score_calls (this l')
         = added ++ Call [(5, 0)] (Weights A B C) ∅ :: score_calls (this l) ∧
         Forall (λ c, call_values c = Weights A B C ∧
                      fresh_for (Weights A B C) (call_cache c))
                (added ++ [Call [(5, 0)] (Weights A B C) ∅])) ∧
      ((∃ p1 p2, both_found (Weights A B C) p1 p2 ∧
                 best_sum l' = fin (A + B + C) ∧
                 best_solution l' = Some (A, B, C, p1, p2)) ∨
       (¬ succeeds (Weights A B C) ∧ best_sum l' = best_sum l ∧
        best_solution l' = best_solution l)).
Proof.
  unfold solve_body. unfold St.bind at 1, St.gets at 1.
  destruct (ge_bound (A + B + C) (best_sum l)) eqn:Hge.
  { exists l. split; reflexivity. }
  unfold St.bind at 1, on_this at 1, St.modify at 1, set_cache. cbn [this].
  set (slf0 := Solver ∅ (stdout (this l)) (score_calls (this l))).
  destruct (find_path_spec (Weights A B C) (5, 0) (0, 5) slf0
              start1_in_grid (fresh_for_empty _))
    as (r1 & slf1 & added1 & Hfind1 & Hres1 & Hshape1 & Hfresh1 & Hlog1 & Hunder1).
  unfold St.bind at 1, on_this at 1.
  cbn [this best_sum best_solution]. rewrite Hfind1.
  assert (Hfail1 : ∀ p1 p2, r1 ≠ Some p1 → ¬ both_found (Weights A B C) p1 p2).
  { intros p1 p2 Hne [H1 _]. rewrite Hres1 in H1. congruence. }
  destruct Hshape1 as [-> | (x1 & ext1 & -> & Hg1)].
  { eexists. split; [reflexivity |]. cbn [this best_sum best_solution].
    split; [exists added1; split; assumption |].
    right. split; [| split; reflexivity].
    intros (p1 & p2 & H). exact (Hfail1 p1 p2 ltac:(discriminate) H). }
  destruct (find_path_spec (Weights A B C) (0, 0) (5, 5) slf1
              start2_in_grid Hfresh1)
    as (r2 & slf2 & added2 & Hfind2 & Hres2 & Hshape2 & Hfresh2 & Hlog2 & Hunder2).
  unfold St.bind at 1, on_this at 1.
  cbn [this best_sum best_solution]. rewrite Hfind2.
  assert (Hlog : ∃ added,
    score_calls slf2
    = added ++ Call [(5, 0)] (Weights A B C) ∅ :: score_calls (this l) ∧
    Forall (λ c, call_values c = Weights A B C ∧
                 fresh_for (Weights A B C) (call_cache c))
           (added ++ [Call [(5, 0)] (Weights A B C) ∅])).
  { exists (added2 ++ Call [(0, 0)] (Weights A B C) (score_cache slf1) :: added1).
    split.
    - rewrite Hlog2, Hlog1, <- app_assoc. reflexivity.
    - rewrite <- app_assoc. apply Forall_app in Hunder2.
      destruct Hunder2 as [Hu2 Hu2'].
      apply Forall_app. split; [exact Hu2 |].
      constructor; [exact (Forall_inv Hu2') | exact Hunder1]. }
  destruct Hshape2 as [-> | (x2 & ext2 & -> & Hg2)].
  { eexists. split; [reflexivity |]. cbn [this best_sum best_solution].
    split; [exact Hlog |].
    right. split; [| split; reflexivity].
    intros (p1 & p2 & [_ H2]). rewrite Hres2 in H2. discriminate. }
  unfold St.bind at 1, St.modify at 1.
  unfold St.bind at 1, on_this at 1, print at 1, St.modify at 1.
  cbn [this best_sum best_solution stdout score_cache score_calls].
  assert (Hdone : ∃ p1 p2, both_found (Weights A B C) p1 p2 ∧
            fin (A + B + C) = fin (A + B + C) ∧
            Some (A, B, C, x1 :: ext1, x2 :: ext2) = Some (A, B, C, p1, p2)).
  { exists (x1 :: ext1), (x2 :: ext2). repeat split; assumption. }
  destruct (A + B + C <? 20).
  - destruct (format_solution_in_grid A B C _ _ Hg1 Hg2) as [f Hf].
    unfold St.bind at 1, St.pure at 1. rewrite Hf.
    unfold St.bind at 1, on_this at 1, print at 1, St.modify at 1, St.ret.
    cbn [this best_sum best_solution stdout score_cache score_calls].
    eexists. split; [reflexivity |]. cbn [this best_sum best_solution score_calls].
    split; [exact Hlog | left; exact Hdone].
  - unfold St.ret. eexists. split; [reflexivity |].
    cbn [this best_sum best_solution score_calls].
    split; [exact Hlog | left; exact Hdone].
Qed.

Lemma solve_body_next (A B C : Z) (l l' : locals) (c : flow) :
  solve_body A B C l = Ok (c, l') → c = Next.
Proof.
  destruct (solve_body_run A B C l) as (l1 & -> & _). congruence.
Qed.

Lemma solve_body_skip (A B C : Z) (l : locals) :
  ge_bound (A + B + C) (best_sum l) = true →
  solve_body A B C l = Ok (Next, l).
Proof.
  intros Hge. destruct (solve_body_run A B C l) as (l1 & -> & H).
  rewrite Hge in H. rewrite H. reflexivity.
Qed.

(** A block of calls under one weight triple whose first call sees an empty
    cache keeps a history cleared on switch. *)
Lemma cleared_on_switch_block (values : weights) (p : list position)
    (block earlier : list call) :
  Forall (λ c, call_values c = values) block →
  cleared_on_switch earlier →
  cleared_on_switch (block ++ Call p values ∅ :: earlier).
Proof.
  intros Hblock Hearlier. induction Hblock as [| c block Hc Hrest IH].
  - simpl. split; [| exact Hearlier]. destruct earlier; [reflexivity | auto].
  - change ((c :: block) ++ Call p values ∅ :: earlier)
      with (c :: (block ++ Call p values ∅ :: earlier)).
    cbn [cleared_on_switch]. split; [| exact IH].
    destruct block as [| c' block]; simpl.
    + intros Hne. congruence.
    + intros Hne. exfalso. apply Hne.
      rewrite Hc. symmetry. exact (Forall_inv Hrest).
Qed.

(** The body keeps the invariant of the loops. *)
Lemma solve_triple_inv (log0 : list call) (done : list (Z * Z * Z))
    (A B C : Z) (l : locals) :
  solve_inv log0 done l → in_space A B C →
  ∃ l', solve_triple (A, B, C) l = Ok (Next, l') ∧
        solve_inv log0 (done ++ [(A, B, C)]) l'.
Proof.
  intros [Hbest (added & Hlog & Hspace & Hswitch & Hsome)] Hin.
  unfold solve_triple. cbn [fst snd].
  destruct (solve_body_run A B C l) as (l' & Hrun & Hcases).
  exists l'. split; [exact Hrun |].
  destruct (ge_bound (A + B + C) (best_sum l)) eqn:Hge.
  - subst l'.
    assert (Hadded : added ≠ []).
    { destruct Hsome as [-> | Hne]; [| exact Hne]. exfalso.
      destruct (best_solution l) as [[[[[a b] c] p1] p2] |].
      - destruct Hbest as (_ & Hdone & _). apply elem_of_nil in Hdone.
        exact Hdone.
      - destruct Hbest as [Hsum _]. rewrite Hsum in Hge. discriminate. }
    split; [| exists added; auto].
    destruct (best_solution l) as [[[[[a b] c] p1] p2] |].
    + destruct Hbest as (Hsum & Hdone & Hfound & Hmin).
      rewrite Hsum in Hge. simpl in Hge. apply Z.leb_le in Hge.
      split; [exact Hsum |]. split; [| split; [exact Hfound |]].
      * apply elem_of_app. left. exact Hdone.
      * intros t Ht Hsucc. apply elem_of_app in Ht.
        destruct Ht as [Ht | Ht]; [exact (Hmin t Ht Hsucc) |].
        apply list_elem_of_singleton in Ht. subst t. exact Hge.
    + destruct Hbest as [Hsum _]. rewrite Hsum in Hge. discriminate.
  - destruct Hcases as [(new & Hlog' & Hunder) Hresult]. split.
    + destruct Hresult as [(p1 & p2 & Hfound & Hsum' & Hbest')
                          | (Hfail & Hsum' & Hbest')];
        rewrite Hbest'.
      * split; [exact Hsum' |]. split; [| split; [exact Hfound |]].
        { apply elem_of_app. right. apply list_elem_of_singleton. reflexivity. }
        intros t Ht Hsucc. apply elem_of_app in Ht.
        destruct Ht as [Ht | Ht].
        2:{ apply list_elem_of_singleton in Ht. subst t.
            unfold triple_sum. simpl. lia. }
        destruct (best_solution l) as [[[[[a b] c] q1] q2] |].
        -- destruct Hbest as (Hsum & _ & _ & Hmin).
           rewrite Hsum in Hge. simpl in Hge. apply Z.leb_gt in Hge.
           specialize (Hmin t Ht Hsucc). lia.
        -- destruct Hbest as [_ Hnone]. destruct (Hnone t Ht Hsucc).
      * destruct (best_solution l) as [[[[[a b] c] q1] q2] |].
        -- destruct Hbest as (Hsum & Hdone & Hfound & Hmin).
           split; [congruence |]. split; [| split; [exact Hfound |]].
           ++ apply elem_of_app. left. exact Hdone.
           ++ intros t Ht Hsucc. apply elem_of_app in Ht.
              destruct Ht as [Ht | Ht]; [exact (Hmin t Ht Hsucc) |].
              apply list_elem_of_singleton in Ht. subst t.
              destruct (Hfail Hsucc).
        -- destruct Hbest as [Hsum Hnone]. split; [congruence |].
           intros t Ht Hsucc. apply elem_of_app in Ht.
           destruct Ht as [Ht | Ht]; [exact (Hnone t Ht Hsucc) |].
           apply list_elem_of_singleton in Ht. subst t.
           exact (Hfail Hsucc).
    + exists (new ++ Call [(5, 0)] (Weights A B C) ∅ :: added).
      split; [| split; [| split]].
      * rewrite Hlog', Hlog, <- app_assoc. reflexivity.
      * unfold calls_in_space.
        change (new ++ Call [(5, 0)] (Weights A B C) ∅ :: added)
          with (new ++ [Call [(5, 0)] (Weights A B C) ∅] ++ added).
        rewrite app_assoc. apply Forall_app. split; [| exact Hspace].
        eapply Forall_impl; [exact Hunder |].
        intros c [Hv Hf]. split; [| rewrite Hv; exact Hf].
        exists A, B, C. split; [exact Hin | exact Hv].
      * apply cleared_on_switch_block; [| exact Hswitch].
        apply Forall_app in Hunder. destruct Hunder as [Hunder _].
        eapply Forall_impl; [exact Hunder |]. intros c [Hv _]. exact Hv.
      * right. intros Hnil. apply app_eq_nil in Hnil. destruct Hnil.
        discriminate.
Qed.

(** *** The enumeration *)

Lemma elem_of_triples (A B C : Z) : (A, B, C) ∈ triples ↔ in_space A B C.
Proof.
  unfold triples, in_space, target. rewrite list_elem_of_bind. split.
  - intros (a & Hb & Ha). apply elem_of_range in Ha.
    apply list_elem_of_bind in Hb. destruct Hb as (b & Hc & Hb).
    apply elem_of_range in Hb.
    apply list_elem_of_bind in Hc. destruct Hc as (c & Ht & Hc).
    apply elem_of_range in Hc.
    apply list_elem_of_singleton in Ht. injection Ht as -> -> ->. nia.
  - intros (Ha & Hb & Hc). exists A. split; [| apply elem_of_range; lia].
    apply list_elem_of_bind. exists B. split; [| apply elem_of_range; lia].
    apply list_elem_of_bind. exists C. split; [| apply elem_of_range; lia].
    apply list_elem_of_singleton. reflexivity.
Qed.

(** The three loops of [solve], whose [break]s never fire, run the body on
    every triple of the space in turn. *)
Lemma solve_loops_flat (l : locals) :
  solve_loops l = for_each triples solve_triple l.
Proof.
  assert (Hnext : ∀ t s c s', solve_triple t s = Ok (c, s') → c = Next).
  { intros [[a b] c'] s c s'. apply solve_body_next. }
  unfold solve_loops, triples.
  rewrite (for_each_bind _ _ _ _ Hnext).
  apply for_each_ext. intros A s HA. apply elem_of_range in HA.
  destruct (Z.gtb_spec A target) as [Hgt | _]; [unfold target in Hgt; lia |].
  unfold St.bind. rewrite (for_each_bind _ _ _ _ Hnext).
  erewrite for_each_ext; [reflexivity |].
  intros B s0 HB. apply elem_of_range in HB. cbn beta.
  destruct (Z.gtb_spec (A * B) target) as [Hgt | _];
    [unfold target in Hgt; nia |].
  unfold St.bind. rewrite for_each_singletons. reflexivity.
Qed.

(** *** The whole of [solve] *)

Lemma solve_loops_inv (slf : solver) :
  ∃ l, solve_loops (Locals inf None slf) = Ok (tt, l) ∧
       solve_inv (score_calls slf) triples l.
Proof.
  rewrite solve_loops_flat.
  apply (for_each_inv (solve_inv (score_calls slf)) solve_triple triples).
  - intros pre [[A B] C] post l Htriples Hinv.
    apply solve_triple_inv; [exact Hinv |].
    apply elem_of_triples. rewrite Htriples.
    apply elem_of_app. right. left.
  - split; [split; [reflexivity |] |].
    + intros t Ht. apply elem_of_nil in Ht. destruct Ht.
    + exists []. repeat split; [constructor | left; reflexivity].
Qed.

Lemma found_in_grid (values : weights) (start end_ : position)
    (p : list position) :
  in_grid start →
  result (find_path start end_ values PuzzleSolver) = Ok (Some p) →
  Forall in_grid p.
Proof.
  intros Hstart Hres.
  destruct (find_path start end_ values PuzzleSolver) as [[r slf'] |] eqn:Hfind;
    [| discriminate].
  cbn [result] in Hres. injection Hres as ->.
  destruct (find_path_shape values start end_ PuzzleSolver slf' p Hfind)
    as (ext & -> & _ & _ & _ & Hg & _).
  constructor; assumption.
Qed.

(** [solve] returns: the loops end with their invariant over the whole
    space, and the string is the formatted best solution, or the fixed
    sentence when there is none. *)
Lemma solve_run (slf : solver) :
  ∃ out l,
    solve slf = Ok (out, this l) ∧
    solve_inv (score_calls slf) triples l ∧
    match best_solution l with
    | Some (a, b, c, p1, p2) => format_solution a b c p1 p2 = Ok out
    | None => out = lit "No solution found"
    end.
Proof.
  destruct (solve_loops_inv slf) as (l & Hloops & Hinv).
  unfold solve. rewrite Hloops.
  pose proof Hinv as [Hbest _].
  destruct (best_solution l) as [[[[[a b] c] p1] p2] |] eqn:Hb.
  - destruct Hbest as (_ & _ & [H1 H2] & _).
    destruct (format_solution_in_grid a b c p1 p2
                (found_in_grid _ _ _ _ start1_in_grid H1)
                (found_in_grid _ _ _ _ start2_in_grid H2)) as [f Hf].
    rewrite Hf. exists f, l. rewrite Hb.
    split; [reflexivity | split; [exact Hinv | exact Hf]].
  - exists (lit "No solution found"), l. rewrite Hb.
    split; [reflexivity | split; [exact Hinv | reflexivity]].
Qed.

(** C2. [solve] returns.  Every weight triple under which it invokes the
    scoring, hence every triple it attempts, satisfies 1 <= A < B < C and
    lies in the pruned space.  The loops run the body on every triple of
    that space in turn (no [break] fires, and a success does not stop them);
    the body does nothing on a triple whose sum is not strictly below the
    best sum so far.  The string returned is the fixed sentence when no
    triple of the space has both searches succeed, and otherwise the
    formatted solution of a triple of the space on which both succeed and
    whose sum is minimal among all of those. *)
Theorem solve_minimal_sum (slf : solver) :
  ∃ out slf' added,
    solve slf = Ok (out, slf') ∧
    score_calls slf' = added ++ score_calls slf ∧
    (∀ c, c ∈ added →
       ∃ A B C, call_values c = Weights A B C ∧ in_space A B C ∧
                1 ≤ A ∧ A < B ∧ B < C) ∧
    ((out = lit "No solution found" ∧
      ∀ A B C, in_space A B C → ¬ succeeds (Weights A B C)) ∨
     (∃ A B C p1 p2,
        in_space A B C ∧ both_found (Weights A B C) p1 p2 ∧
        format_solution A B C p1 p2 = Ok out ∧
        ∀ A' B' C', in_space A' B' C' → succeeds (Weights A' B' C') →
                    A + B + C ≤ A' + B' + C')) ∧
    (∀ l, solve_loops l = for_each triples solve_triple l) ∧
    (∀ A B C, (A, B, C) ∈ triples ↔ in_space A B C) ∧
    (∀ A B C l, ge_bound (A + B + C) (best_sum l) = true →
                solve_body A B C l = Ok (Next, l)).
Proof.
  destruct (solve_run slf)
    as (out & l & Hsolve & [Hbest (added & Hlog & Hspace & _)] & Hout).
  exists out, (this l), added.
  split; [exact Hsolve |]. split; [exact Hlog |].
  split; [| split; [| split; [| split]]].
  - intros c Hc.
    destruct (proj1 (Forall_forall _ _) Hspace c Hc) as [(A & B & C & Hin & Hv) _].
    exists A, B, C. split; [exact Hv |]. split; [exact Hin |].
    unfold in_space in Hin. lia.
  - destruct (best_solution l) as [[[[[a b] c] p1] p2] |].
    + right. destruct Hbest as (_ & Hdone & Hfound & Hmin).
      exists a, b, c, p1, p2.
      split; [apply elem_of_triples, Hdone |]. split; [exact Hfound |].
      split; [exact Hout |].
      intros A' B' C' Hin Hsucc.
      exact (Hmin (A', B', C') (proj2 (elem_of_triples A' B' C') Hin) Hsucc).
    + left. destruct Hbest as [_ Hnone]. split; [exact Hout |].
      intros A B C Hin.
      exact (Hnone (A, B, C) (proj2 (elem_of_triples A B C) Hin)).
  - exact solve_loops_flat.
  - exact elem_of_triples.
  - exact solve_body_skip.
Qed.

(** C8. Whatever the cache holds when [solve] starts: every invocation of
    [calculate_score] that [solve] makes finds a cache all of whose entries
    are the scores of their paths under the weights of that invocation; in
    the sequence of these invocations, each one either has the weights of
    the invocation before it or finds the cache empty, and so does the first
    of all.  In the body of the loops, once the sum improves on the best sum,
    the first invocation is that of the first search on its start, on an empty
    cache, and all those of the two searches are under the new weights. *)
Theorem solve_clears_cache (slf : solver) :
  (∃ out slf' added,
     solve slf = Ok (out, slf') ∧
     score_calls slf' = added ++ score_calls slf ∧
     added ≠ [] ∧
     Forall (λ c, fresh_for (call_values c) (call_cache c)) added ∧
     cleared_on_switch added) ∧
  (∀ A B C l,
     ge_bound (A + B + C) (best_sum l) = false →
     ∃ l' added,
       solve_body A B C l = Ok (Next, l') ∧
       score_calls (this l')
       = added ++ Call [(5, 0)] (Weights A B C) ∅ :: score_calls (this l) ∧
       Forall (λ c, call_values c = Weights A B C ∧
                    fresh_for (Weights A B C) (call_cache c)) added).
Proof.
  split.
  - destruct (solve_run slf)
      as (out & l & Hsolve & [_ (added & Hlog & Hspace & Hswitch & Hsome)] & _).
    exists out, (this l), added.
    split; [exact Hsolve |]. split; [exact Hlog |].
    split; [| split; [| exact Hswitch]].
    + destruct Hsome as [Hnil | Hne]; [| exact Hne].
      apply (f_equal length) in Hnil. vm_compute in Hnil. discriminate.
    + eapply Forall_impl; [exact Hspace |]. intros c [_ Hf]. exact Hf.
  - intros A B C l Hge.
    destruct (solve_body_run A B C l) as (l' & Hrun & Hcases).
    rewrite Hge in Hcases. destruct Hcases as [(added & Hlog & Hunder) _].
    exists l', added. split; [exact Hrun |]. split; [exact Hlog |].
    apply Forall_app in Hunder. exact (proj1 Hunder).
Qed.

(** The program runs to its end: [main] prints its lines and raises
    nothing. *)
Lemma main_returns : ∃ lines, main = Ok lines.
Proof.
  destruct (solve_run PuzzleSolver) as (out & l & Hsolve & _).
  unfold main, St.bind. rewrite Hsolve. eexists. reflexivity.
Qed.

(** * Further properties of the code *)

(** ** The table of knight moves as a graph *)

Lemma knight_deltas_opp (d : Z * Z) :
  d ∈ knight_deltas → (- d.1, - d.2) ∈ knight_deltas.
Proof.
  unfold knight_deltas. rewrite !elem_of_cons, !elem_of_nil.
  intros H. repeat (destruct H as [-> | H]; [simpl; tauto |]). destruct H.
Qed.

Lemma knight_deltas_nonzero (d : Z * Z) :
  d ∈ knight_deltas → d.1 ≠ 0 ∧ d.2 ≠ 0.
Proof.
  unfold knight_deltas. rewrite !elem_of_cons, !elem_of_nil.
  intros H. repeat (destruct H as [-> | H]; [simpl; lia |]). destruct H.
Qed.

Lemma edge_destination (p q : position) :
  edge p q ↔ in_grid p ∧ q ∈ knight_destinations p.
Proof.
  split.
  - intros Hedge. destruct (edge_in_grid p q Hedge) as [Hp _].
    destruct Hedge as (moves & Hm & Hq).
    rewrite (knight_moves_lookup p Hp) in Hm. injection Hm as <-. auto.
  - intros [Hp Hq]. exists (knight_destinations p).
    split; [exact (knight_moves_lookup p Hp) | exact Hq].
Qed.

(** X1. The table is the adjacency of an undirected graph without loops on
    the grid: when [q] is listed under [p], then [p] is listed under [q],
    the two differ, and both are positions of the grid. *)
Theorem knight_moves_symmetric (p q : position) :
  edge p q → edge q p ∧ p ≠ q ∧ in_grid p ∧ in_grid q.
Proof.
  intros Hedge. destruct (edge_in_grid p q Hedge) as [Hp Hq].
  apply edge_destination in Hedge. destruct Hedge as [_ Hdest].
  apply knight_destinations_spec in Hdest.
  destruct Hdest as (d & Hd & Heq & _).
  split; [| split; [| split; assumption]].
  - apply edge_destination. split; [exact Hq |].
    apply knight_destinations_spec. exists (- d.1, - d.2).
    split; [exact (knight_deltas_opp d Hd) |]. split; [| exact Hp].
    subst q. destruct p as [i j]. simpl. f_equal; lia.
  - intros ->. destruct (knight_deltas_nonzero d Hd) as [H1 _].
    destruct q as [i j]. simpl in Heq. injection Heq as Hi Hj. lia.
Qed.

Lemma knight_moves_symmetric_witness :
  edge (2, 1) (0, 0) ∧ (0, 0) ≠ (2, 1) ∧ in_grid (0, 0) ∧ in_grid (2, 1).
Proof.
  apply (knight_moves_symmetric (0, 0) (2, 1)).
  apply edge_destination. split.
  - unfold in_grid. simpl. lia.
  - apply (bool_decide_unpack _). vm_compute. exact I.
Defined.

(** X2. The keys of the table are exactly the 36 positions of the grid: a
    lookup outside the grid is a missing key, which [dfs] turns into
    [KeyError]; and every position of the grid has at least 2 and at most 8
    moves, none of them listed twice. *)
Theorem knight_moves_keys (p : position) :
  (knight_moves !! p = None ↔ ¬ in_grid p) ∧
  (py_getitem knight_moves p = Raise KeyError ↔ ¬ in_grid p) ∧
  (in_grid p →
   ∃ moves, knight_moves !! p = Some moves ∧ NoDup moves ∧
            (2 ≤ length moves ≤ 8)%nat).
Proof.
  assert (Hnone : knight_moves !! p = None ↔ ¬ in_grid p).
  { split.
    - intros Hn Hp. rewrite (knight_moves_lookup p Hp) in Hn. discriminate.
    - apply knight_moves_outside. }
  split; [exact Hnone | split].
  - rewrite <- Hnone. unfold py_getitem.
    destruct (knight_moves !! p); split; congruence.
  - intros Hp. exists (knight_destinations p).
    split; [exact (knight_moves_lookup p Hp) |].
    grid_cases Hp;
      (split; [apply (bool_decide_unpack _); vm_compute; exact I
              | vm_compute; split; lia]).
Qed.

Lemma knight_moves_keys_witness :
  ∃ moves, knight_moves !! (5, 5) = Some moves ∧ NoDup moves ∧
           (2 ≤ length moves ≤ 8)%nat.
Proof.
  apply (proj2 (proj2 (knight_moves_keys (5, 5)))).
  unfold in_grid. simpl. lia.
Defined.

(** ** Indexing the grid *)

Lemma py_index_range {T} (l : list T) (i : Z) :
  (- Z.of_nat (length l) ≤ i < Z.of_nat (length l) →
   ∃ x, py_index l i = Ok x ∧
        l !! Z.to_nat (i mod Z.of_nat (length l)) = Some x) ∧
  (¬ (- Z.of_nat (length l) ≤ i < Z.of_nat (length l)) →
   py_index l i = Raise IndexError).
Proof.
  unfold py_index. set (n := Z.of_nat (length l)).
  assert (Hlook : ∀ k, 0 ≤ k < n → ∃ x, l !! Z.to_nat k = Some x).
  { intros k Hk. apply lookup_lt_is_Some. unfold n in Hk. lia. }
  split.
  - intros Hi. destruct (Z.ltb_spec i 0) as [Hneg | Hpos].
    + replace (i mod n) with (i + n)
        by (apply Z.mod_unique with (q := -1); lia).
      destruct (Hlook (i + n) ltac:(lia)) as [x Hx]. exists x.
      destruct (Z.leb_spec 0 (i + n)); [| lia].
      destruct (Z.ltb_spec (i + n) n); [| lia]. simpl. rewrite Hx. auto.
    + rewrite Z.mod_small by lia.
      destruct (Hlook i ltac:(lia)) as [x Hx]. exists x.
      destruct (Z.leb_spec 0 i); [| lia].
      destruct (Z.ltb_spec i n); [| lia]. simpl. rewrite Hx. auto.
  - intros Hi. destruct (Z.ltb_spec i 0) as [Hneg | Hpos].
    + destruct (Z.leb_spec 0 (i + n)); [| reflexivity].
      destruct (Z.ltb_spec (i + n) n); [lia | reflexivity].
    + destruct (Z.leb_spec 0 i); [| reflexivity].
      destruct (Z.ltb_spec i n); [lia | reflexivity].
Qed.

Lemma py_index_raise {T} (l : list T) (i : Z) (e : exn) :
  py_index l i = Raise e → e = IndexError.
Proof.
  unfold py_index. destruct (_ && _).
  - destruct (l !! _); [discriminate | congruence].
  - congruence.
Qed.

Lemma cell_class_raise (p : position) (e : exn) :
  cell_class p = Raise e → e = IndexError.
Proof.
  unfold cell_class.
  destruct (py_index grid_values p.1) as [row |] eqn:Hrow; cbn [Out.bind].
  - apply py_index_raise.
  - intros H. apply (py_index_raise grid_values p.1). congruence.
Qed.

Lemma grid_rows_length (row : list cls) :
  row ∈ grid_values → length row = 6%nat.
Proof.
  unfold grid_values. rewrite !elem_of_cons, elem_of_nil.
  intros H. repeat (destruct H as [-> | H]; [reflexivity |]). destruct H.
Qed.

Lemma cell_class_outside (p : position) :
  ¬ (-6 ≤ p.1 < 6 ∧ -6 ≤ p.2 < 6) → cell_class p = Raise IndexError.
Proof.
  intros Hout. unfold cell_class.
  destruct (decide (-6 ≤ p.1 < 6)) as [Hrow | Hrow].
  - destruct (proj1 (py_index_range grid_values p.1) Hrow) as (row & -> & Hl).
    cbn [Out.bind]. apply list_elem_of_lookup_2 in Hl.
    apply grid_rows_length in Hl.
    apply (proj2 (py_index_range row p.2)). rewrite Hl. simpl. lia.
  - rewrite (proj2 (py_index_range grid_values p.1) Hrow). reflexivity.
Qed.

Lemma cell_class_wrap (p : position) :
  -6 ≤ p.1 < 6 → -6 ≤ p.2 < 6 →
  in_grid (p.1 mod 6, p.2 mod 6) ∧
  ∃ c, cell_class p = Ok c ∧ cell_class (p.1 mod 6, p.2 mod 6) = Ok c.
Proof.
  destruct p as [i j]. simpl. intros Hi Hj. split.
  - unfold in_grid. simpl.
    pose proof (Z.mod_pos_bound i 6 ltac:(lia)).
    pose proof (Z.mod_pos_bound j 6 ltac:(lia)). lia.
  - assert (Hc : i = -6 ∨ i = -5 ∨ i = -4 ∨ i = -3 ∨ i = -2 ∨ i = -1 ∨
                i = 0 ∨ i = 1 ∨ i = 2 ∨ i = 3 ∨ i = 4 ∨ i = 5) by lia.
    assert (Hd : j = -6 ∨ j = -5 ∨ j = -4 ∨ j = -3 ∨ j = -2 ∨ j = -1 ∨
                j = 0 ∨ j = 1 ∨ j = 2 ∨ j = 3 ∨ j = 4 ∨ j = 5) by lia.
    clear Hi Hj.
    destruct Hc as [->|[->|[->|[->|[->|[->|[->|[->|[->|[->|[->| ->]]]]]]]]]]];
    destruct Hd as [->|[->|[->|[->|[->|[->|[->|[->|[->|[->|[->| ->]]]]]]]]]]];
      eexists; split; vm_compute; reflexivity.
Qed.

Lemma compute_score_one (p : position) (values : weights) :
  compute_score [p] values
  = try c := cell_class p in Ok (weight values c).
Proof. rewrite compute_score_cons. reflexivity. Qed.

Lemma calculate_score_miss (l : list position) (values : weights)
    (slf : solver) :
  score_cache slf !! l = None →
  calculate_score l values slf
  = match compute_score l values with
    | Ok s => Ok (s, Solver (<[l := s]> (score_cache slf)) (stdout slf)
                            (Call l values (score_cache slf) :: score_calls slf))
    | Raise e => Raise e
    end.
Proof.
  intros Hl.
  unfold calculate_score, St.bind, St.modify, St.gets, St.pure, St.ret,
    record_call, set_cache. simpl. rewrite Hl.
  destruct (compute_score l values); reflexivity.
Qed.

(** X3. The grid is indexed the Python way.  A position with a coordinate in
    [-6, 0) is read from the end of the grid, so that the score of the
    one-position path [p], when the cache has no entry for it, is the weight
    of the class at (row mod 6, col mod 6); with a coordinate outside
    [-6, 6) the call raises [IndexError]. *)
Theorem calculate_score_index_bounds (p : position) (values : weights)
    (slf : solver) :
  score_cache slf !! [p] = None →
  (-6 ≤ p.1 < 6 ∧ -6 ≤ p.2 < 6 →
   in_grid (p.1 mod 6, p.2 mod 6) ∧
   ∃ c, cell_class (p.1 mod 6, p.2 mod 6) = Ok c ∧
        result (calculate_score [p] values slf) = Ok (weight values c)) ∧
  (¬ (-6 ≤ p.1 < 6 ∧ -6 ≤ p.2 < 6) →
   calculate_score [p] values slf = Raise IndexError).
Proof.
  intros Hmiss. rewrite (calculate_score_miss _ values slf Hmiss).
  rewrite compute_score_one. split.
  - intros [Hi Hj]. destruct (cell_class_wrap p Hi Hj) as [Hg (c & Hc & Hw)].
    split; [exact Hg |]. exists c. split; [exact Hw |].
    rewrite Hc. reflexivity.
  - intros Hout. rewrite (cell_class_outside p Hout). reflexivity.
Qed.

Lemma calculate_score_index_bounds_witness :
  in_grid (5, 5) ∧
  ∃ c, cell_class (5, 5) = Ok c ∧
       result (calculate_score [(-1, -1)] (Weights 2 3 5) PuzzleSolver)
       = Ok (weight (Weights 2 3 5) c).
Proof.
  apply (proj1 (calculate_score_index_bounds (-1, -1) (Weights 2 3 5)
                  PuzzleSolver (lookup_empty _))).
  simpl. lia.
Defined.

(** ** What [calculate_score] does to the solver, and how it fails *)

Lemma score_tail_raise (values : weights) :
  ∀ (rest : list position) (prev : position) (score : Z) (e : exn),
    score_tail values prev rest score = Raise e →
    e = IndexError ∧ ∃ p, p ∈ prev :: rest ∧ cell_class p = Raise IndexError.
Proof.
  induction rest as [| cur rest IH]; intros prev score e H; [discriminate |].
  simpl in H.
  destruct (cell_class cur) as [c |] eqn:Hc; cbn [Out.bind] in H.
  2:{ injection H as <-. pose proof (cell_class_raise _ _ Hc) as ->.
      split; [reflexivity |]. exists cur. split; [right; left | exact Hc]. }
  destruct (cell_class prev) as [pc |] eqn:Hp; cbn [Out.bind] in H.
  2:{ injection H as <-. pose proof (cell_class_raise _ _ Hp) as ->.
      split; [reflexivity |]. exists prev. split; [left | exact Hp]. }
  destruct (_ >? target); [discriminate |].
  destruct (IH cur _ e H) as (He & p & Hin & Hraise).
  split; [exact He |]. exists p. split; [right; exact Hin | exact Hraise].
Qed.

Lemma compute_score_raise (l : list position) (values : weights) (e : exn) :
  compute_score l values = Raise e →
  e = IndexError ∧ (l = [] ∨ ∃ p, p ∈ l ∧ cell_class p = Raise IndexError).
Proof.
  destruct l as [| p0 rest].
  - rewrite compute_score_nil. intros H. injection H as <-. auto.
  - rewrite compute_score_cons.
    destruct (cell_class p0) as [c0 |] eqn:Hc; cbn [Out.bind].
    + intros H. destruct (score_tail_raise values rest p0 _ e H)
        as (He & p & Hin & Hraise).
      split; [exact He |]. right. exists p. auto.
    + intros H. injection H as <-. pose proof (cell_class_raise _ _ Hc) as ->.
      split; [reflexivity |]. right. exists p0. split; [left | exact Hc].
Qed.

(** The effect of a call of [calculate_score] that returns. *)
Lemma calculate_score_effect (l : list position) (values : weights)
    (slf slf' : solver) (r : Z) :
  calculate_score l values slf = Ok (r, slf') →
  score_cache slf' = <[l := r]> (score_cache slf) ∧
  (∀ q s, score_cache slf !! q = Some s → score_cache slf' !! q = Some s) ∧
  (∀ q s, score_cache slf' !! q = Some s →
          score_cache slf !! q = Some s ∨
          (q = l ∧ compute_score l values = Ok s)) ∧
  stdout slf' = stdout slf ∧
  score_calls slf' = Call l values (score_cache slf) :: score_calls slf.
Proof.
  destruct (score_cache slf !! l) as [cached |] eqn:Hl.
  - unfold calculate_score, St.bind, St.modify, St.gets, St.pure, St.ret,
      record_call. simpl. rewrite Hl. intros H. injection H as <- <-. simpl.
    rewrite (insert_id _ _ _ Hl). auto.
  - rewrite (calculate_score_miss l values slf Hl).
    destruct (compute_score l values) as [s |] eqn:Hs; [| discriminate].
    intros H. injection H as <- <-. simpl.
    split; [reflexivity |]. split; [| split; [| split; reflexivity]].
    + intros q s' Hq. rewrite lookup_insert_ne; [exact Hq | congruence].
    + intros q s' Hq. destruct (decide (l = q)) as [<- | Hne].
      * rewrite lookup_insert_eq in Hq. injection Hq as <-. auto.
      * rewrite lookup_insert_ne in Hq by exact Hne. auto.
Qed.

(** X4. A call of [calculate_score] that returns [r] leaves the cache equal
    to the old cache with the entry [l := r]: no entry that was there is
    removed or changed (a hit stores nothing new), an entry that is new is
    the score computed for the path of the call, and nothing is printed. *)
Theorem calculate_score_stores (l : list position) (values : weights)
    (slf slf' : solver) (r : Z) :
  calculate_score l values slf = Ok (r, slf') →
  score_cache slf' = <[l := r]> (score_cache slf) ∧
  (∀ q s, score_cache slf !! q = Some s → score_cache slf' !! q = Some s) ∧
  (∀ q s, score_cache slf' !! q = Some s →
          score_cache slf !! q = Some s ∨
          (q = l ∧ compute_score l values = Ok s)) ∧
  stdout slf' = stdout slf.
Proof.
  intros H.
  destruct (calculate_score_effect l values slf slf' r H)
    as (H1 & H2 & H3 & H4 & _).
  auto.
Qed.

Lemma calculate_score_stores_witness :
  score_cache (Solver {[ [(0, 0); (2, 1)] := 4 ]} []
                 [Call [(0, 0); (2, 1)] (Weights 2 3 5) ∅])
  = <[ [(0, 0); (2, 1)] := 4 ]> (score_cache PuzzleSolver).
Proof.
  apply (calculate_score_stores [(0, 0); (2, 1)] (Weights 2 3 5) PuzzleSolver).
  vm_compute. reflexivity.
Defined.

(** X5. [calculate_score] raises nothing but [IndexError], and only on a
    path that is not in the cache and that is empty or holds a position off
    the index range of the grid; on the empty path, absent from the cache, it
    does raise. *)
Theorem calculate_score_raises (l : list position) (values : weights)
    (slf : solver) :
  (∀ e, calculate_score l values slf = Raise e →
        e = IndexError ∧ score_cache slf !! l = None ∧
        (l = [] ∨ ∃ p, p ∈ l ∧ ¬ (-6 ≤ p.1 < 6 ∧ -6 ≤ p.2 < 6))) ∧
  (score_cache slf !! [] = None →
   calculate_score [] values slf = Raise IndexError).
Proof.
  split.
  - intros e H. destruct (score_cache slf !! l) as [cached |] eqn:Hl.
    + unfold calculate_score, St.bind, St.modify, St.gets, St.pure, St.ret,
        record_call in H. simpl in H. rewrite Hl in H. discriminate.
    + rewrite (calculate_score_miss l values slf Hl) in H.
      destruct (compute_score l values) as [s |] eqn:Hs; [discriminate |].
      injection H as <-.
      destruct (compute_score_raise l values _ Hs) as [-> [-> | (p & Hp & Hr)]].
      * auto.
      * split; [reflexivity |]. split; [reflexivity |]. right.
        exists p. split; [exact Hp |]. intros [Hi Hj].
        destruct (cell_class_wrap p Hi Hj) as [_ (c & Hc & _)]. congruence.
  - intros Hmiss. rewrite (calculate_score_miss [] values slf Hmiss).
    reflexivity.
Qed.

Lemma calculate_score_raises_witness :
  calculate_score [] (Weights 2 3 5) PuzzleSolver = Raise IndexError.
Proof.
  apply (proj2 (calculate_score_raises [] (Weights 2 3 5) PuzzleSolver)).
  apply lookup_empty.
Defined.

(** ** The early exit against the exact score *)

Lemma fold_from_early_le (values : weights) :
  positive values →
  ∀ (rest : list cls) (prev : cls) (score : Z),
    1 ≤ score →
    fold_from_early values prev score rest ≤ fold_from values prev score rest.
Proof.
  intros Hpos. induction rest as [| cur rest IH]; intros prev score Hs; simpl.
  - lia.
  - pose proof (combine_ge values prev cur score Hpos Hs).
    destruct (Z.gtb_spec (combine values prev score cur) target).
    + apply fold_from_ge; [exact Hpos | lia].
    + apply IH. lia.
Qed.

(** X6. Under positive weights the early exit is safe for the two tests that
    [dfs] makes on a score.  When the exact score [e] of a path is defined,
    the score [s] that [calculate_score] computes for it is at most [e],
    equals [e] as soon as it is within the target, and exceeds the target
    exactly when [e] does; so [s] is the target exactly when [e] is. *)
Theorem early_exit_safe (l : list position) (values : weights) (e : Z) :
  positive values → exact_score l values = Ok e →
  ∃ s, compute_score l values = Ok s ∧ s ≤ e ∧ (s ≤ target → s = e) ∧
       (target < s ↔ target < e) ∧ (s = target ↔ e = target).
Proof.
  intros Hpos He. unfold exact_score in He.
  destruct (path_classes l) as [cs |] eqn:Hcs; [| discriminate].
  cbn [Out.bind] in He. destruct cs as [| first rest]; [discriminate |].
  injection He as <-.
  assert (Hne : l ≠ []) by (intros ->; discriminate).
  rewrite (compute_score_early l values _ Hne Hcs).
  unfold early_score. rewrite Hcs. cbn [Out.bind].
  pose proof (weight_positive values first Hpos) as Hw.
  pose proof (fold_from_early_le values Hpos rest first (weight values first)
                ltac:(lia)) as Hle.
  pose proof (fold_from_early_exact values rest first (weight values first))
    as Hexact.
  set (s := fold_from_early values first (weight values first) rest) in *.
  set (e := fold_from values first (weight values first) rest) in *.
  exists s. split; [reflexivity |]. split; [exact Hle |].
  split; [exact Hexact |].
  destruct (Z.le_gt_cases s target) as [Hst | Hst].
  - specialize (Hexact Hst). split; split; intros H; lia.
  - split; split; intros H; lia.
Qed.

Lemma early_exit_safe_witness :
  ∃ s, compute_score [(0, 0); (2, 1); (1, 3); (0, 5)] (Weights 30 40 50) = Ok s ∧
       s ≤ 3050 ∧ (s ≤ target → s = 3050) ∧
       (target < s ↔ target < 3050) ∧ (s = target ↔ 3050 = target).
Proof.
  apply (early_exit_safe [(0, 0); (2, 1); (1, 3); (0, 5)] (Weights 30 40 50)).
  - unfold positive. simpl. lia.
  - vm_compute. reflexivity.
Defined.

(** ** The store of [dfs] *)

Lemma pure_dfs_extends (score : scorer) (end_ : position) (max_depth : Z) :
  ∀ (fuel : nat) (P : list position) (pos : position) (depth : Z)
    (q : list position),
    pure_dfs fuel end_ score P pos depth max_depth = Ok (Some q) →
    ∃ ext, q = P ++ ext.
Proof.
  induction fuel as [| fuel IH]; intros P pos depth q Hq; [discriminate |].
  cbn [pure_dfs] in Hq.
  destruct (depth >? max_depth); [discriminate |].
  destruct (score P) as [sc |]; [| destruct (decide (pos = end_)); discriminate].
  cbn [Out.bind] in Hq.
  destruct (decide (pos = end_)).
  - destruct (sc =? target); [| discriminate]. injection Hq as <-.
    exists []. rewrite app_nil_r. reflexivity.
  - destruct (sc >? target); [discriminate |].
    destruct (py_getitem knight_moves pos) as [moves |]; [| discriminate].
    cbn [Out.bind] in Hq. apply pure_moves_inv in Hq.
    destruct Hq as [Hq | (_ & x & _ & _ & Hq)]; [discriminate |].
    destruct (IH _ _ _ _ Hq) as [ext ->].
    exists (x :: ext). rewrite <- app_assoc. reflexivity.
Qed.

Lemma run_dfs_out_of_reach_eq :
  dfs 5 (5, 5) (Weights 1012 1013 1014) (0, 0) 0 1
      (Search [(0, 0)] {[(0, 0)]} PuzzleSolver)
  = run_dfs_out_of_reach.
Proof. vm_compute. reflexivity. Qed.

(** X7. The discipline of [dfs] on the two lists it shares with its recursive
    calls, whatever the cache holds.  Entered with a non-empty [path] and with
    [visited] the set of its positions, a call that returns leaves [visited]
    the set of the positions of [path]; when it fails, [path] and [visited]
    are exactly as they were on entry (every append and add has been undone);
    when it succeeds, the list returned is the content of [path], and it
    extends the path of entry.  [visited.remove] and [path.pop] never raise:
    the call returns what the search without store returns, which removes
    and pops nothing, and raises only where that search raises, the same
    exception; and entered on a path of the grid that ends at [pos], with
    frames enough for the depth bound, it raises nothing at all. *)
Theorem dfs_backtracks (fuel : nat) (end_ : position) (values : weights)
    (pos : position) (depth max_depth : Z) (s : search) :
  path s ≠ [] → visited s = list_to_set (path s) →
  match dfs fuel end_ values pos depth max_depth s with
  | Ok (r, s') =>
      pure_dfs fuel end_ (cached_scorer values (score_cache (self s)))
               (path s) pos depth max_depth = Ok r ∧
      visited s' = list_to_set (path s') ∧
      (r = None → path s' = path s ∧ visited s' = visited s) ∧
      (∀ q, r = Some q → path s' = q ∧ ∃ ext, q = path s ++ ext)
  | Raise e =>
      pure_dfs fuel end_ (cached_scorer values (score_cache (self s)))
               (path s) pos depth max_depth = Raise e
  end ∧
  (Forall in_grid (path s) → last (path s) = Some pos →
   max_depth - depth + 1 < Z.of_nat fuel → 0 < Z.of_nat fuel →
   ∃ r s', dfs fuel end_ values pos depth max_depth s = Ok (r, s')).
Proof.
  intros Hne Hvis.
  set (score := cached_scorer values (score_cache (self s))).
  assert (Hpre : search_pre score values s).
  { split; [exact Hne |]. split; [exact Hvis | apply agrees_cached]. }
  pose proof (dfs_sim score values end_ fuel pos depth max_depth s Hpre) as Hsim.
  unfold simulates in Hsim.
  split.
  - destruct (pure_dfs fuel end_ score (path s) pos depth max_depth)
      as [r0 | e0] eqn:Hpure.
    2: { rewrite Hsim. reflexivity. }
    destruct Hsim as (s0 & -> & Hvis' & Hres & _).
    split; [reflexivity |]. split; [exact Hvis' |]. split.
    + intros ->. simpl in Hres. split; [exact Hres | congruence].
    + intros q ->.
      destruct (pure_dfs_extends score end_ max_depth fuel _ _ _ q Hpure)
        as [ext Hext].
      assert (Ht : truthy (Some q) = true).
      { apply truthy_Some_path. rewrite Hext. destruct (path s); [congruence |].
        discriminate. }
      rewrite Ht in Hres. injection Hres as <-.
      split; [reflexivity | exists ext; exact Hext].
  - intros Hg Hlast Hfuel Hpos.
    destruct (pure_dfs_total score end_ max_depth
                (cached_scorer_in_grid values (score_cache (self s)))
                fuel (path s) pos depth Hg Hne Hlast Hpos Hfuel) as [r Hr].
    rewrite Hr in Hsim. destruct Hsim as (s' & Hrun & _).
    exists r, s'. exact Hrun.
Qed.

Lemma dfs_backtracks_witness :
  ∃ s', run_dfs_out_of_reach = Ok (None, s') ∧
        path s' = [(0, 0)] ∧ visited s' = {[(0, 0)]}.
Proof.
  assert (Hne : path (Search [(0, 0)] {[(0, 0)]} PuzzleSolver) ≠ [])
    by discriminate.
  assert (Hvis : visited (Search [(0, 0)] {[(0, 0)]} PuzzleSolver)
                 = list_to_set (path (Search [(0, 0)] {[(0, 0)]} PuzzleSolver)))
    by (symmetry; apply (right_id_L ∅ (∪))).
  pose proof (dfs_backtracks 5 (5, 5) (Weights 1012 1013 1014) (0, 0) 0 1
                (Search [(0, 0)] {[(0, 0)]} PuzzleSolver)) as H0.
  specialize (H0 Hne). specialize (H0 Hvis). destruct H0 as [H _].
  rewrite run_dfs_out_of_reach_eq in H. unfold run_dfs_out_of_reach in H.
  unfold run_dfs_out_of_reach. eexists. split; [reflexivity |].
  exact (proj1 (proj2 (proj2 H)) eq_refl).
Defined.

(** ** What [find_path] leaves of the solver *)

(** A property of the solver object that [calculate_score] keeps is kept by
    [dfs], which touches the solver through [calculate_score] alone. *)
Lemma dfs_moves_frame (Q : solver → Prop)
    (dfs_next : position → M search (option (list position))) :
  (∀ x s r s', Q (self s) → dfs_next x s = Ok (r, s') → Q (self s')) →
  ∀ moves s r s',
    Q (self s) → dfs_moves dfs_next moves s = Ok (r, s') → Q (self s').
Proof.
  intros Hnext. induction moves as [| x moves IH]; intros s r s' HQ.
  - intros H. injection H as <- <-. exact HQ.
  - cbn [dfs_moves]. unfold St.bind at 1, St.gets at 1.
    destruct (decide (x ∉ visited s)); [| apply IH; exact HQ].
    unfold St.bind, path_append, visited_add, St.modify. simpl.
    destruct (dfs_next x _) as [[r1 s1] |] eqn:H1; [| discriminate].
    apply Hnext in H1; [| exact HQ].
    destruct (truthy r1).
    + unfold St.ret. intros H. injection H as <- <-. exact H1.
    + unfold visited_remove.
      destruct (decide (x ∈ visited s1)); [| discriminate].
      unfold path_pop. simpl. destruct (path s1); [discriminate |].
      apply IH. exact H1.
Qed.

Lemma dfs_frame (Q : solver → Prop) (end_ : position) (values : weights) :
  (∀ l slf r slf', Q slf → calculate_score l values slf = Ok (r, slf') →
                   Q slf') →
  ∀ fuel pos depth max_depth s r s',
    Q (self s) → dfs fuel end_ values pos depth max_depth s = Ok (r, s') →
    Q (self s').
Proof.
  intros Hcalc. induction fuel as [| fuel IH];
    intros pos depth max_depth s r s' HQ; [discriminate |].
  cbn [dfs]. destruct (depth >? max_depth).
  { intros H. injection H as <- <-. exact HQ. }
  assert (Hscore : ∀ sc slf1,
    calculate_score (path s) values (self s) = Ok (sc, slf1) → Q slf1)
    by (intros sc slf1; apply Hcalc; exact HQ).
  destruct (decide (pos = end_)).
  - unfold St.bind, St.gets, on_self, St.ret.
    destruct (calculate_score (path s) values (self s)) as [[sc slf1] |];
      [| discriminate].
    specialize (Hscore sc slf1 eq_refl).
    destruct (sc =? target); intros H; injection H as <- <-; exact Hscore.
  - unfold St.bind at 1, St.gets at 1. unfold St.bind at 1, on_self.
    destruct (calculate_score (path s) values (self s)) as [[sc slf1] |];
      [| discriminate].
    specialize (Hscore sc slf1 eq_refl).
    destruct (sc >? target).
    { intros H. injection H as <- <-. exact Hscore. }
    unfold St.bind at 1, St.pure.
    destruct (py_getitem knight_moves pos) as [moves |]; [| discriminate].
    apply (dfs_moves_frame Q); [| exact Hscore].
    intros x s0 r0 s0'. apply IH.
Qed.

Lemma find_path_rounds_frame (Q : solver → Prop) (start end_ : position)
    (values : weights) :
  (∀ l slf r slf', Q slf → calculate_score l values slf = Ok (r, slf') →
                   Q slf') →
  ∀ depths slf r slf',
    Q slf → find_path_rounds start end_ values depths slf = Ok (r, slf') →
    Q slf'.
Proof.
  intros Hcalc. induction depths as [| d depths IH]; intros slf r slf' HQ.
  - intros H. injection H as <- <-. exact HQ.
  - cbn [find_path_rounds].
    destruct (dfs recursion_limit end_ values start 0 d _)
      as [[r1 s1] |] eqn:Hd; [| discriminate].
    apply (dfs_frame Q end_ values Hcalc) in Hd; [| exact HQ].
    destruct (truthy r1).
    + intros H. injection H as <- <-. exact Hd.
    + apply IH. exact Hd.
Qed.

(** X8. What a call of [find_path] that returns leaves of the solver,
    whatever the cache held.  It prints nothing.  It removes and changes no
    entry of the cache; an entry it adds is the score computed for its path
    under the weights of the call, so a cache that was fresh for these
    weights is still fresh.  The invocations of [calculate_score] it makes are
    all under the weights of the call. *)
Theorem find_path_frame (start end_ : position) (values : weights)
    (slf slf' : solver) (r : option (list position)) :
  find_path start end_ values slf = Ok (r, slf') →
  stdout slf' = stdout slf ∧
  (∀ q s, score_cache slf !! q = Some s → score_cache slf' !! q = Some s) ∧
  (∀ q s, score_cache slf' !! q = Some s →
          score_cache slf !! q = Some s ∨ compute_score q values = Ok s) ∧
  (fresh_for values (score_cache slf) →
   fresh_for values (score_cache slf')) ∧
  ∃ added, score_calls slf' = added ++ score_calls slf ∧
           Forall (λ c, call_values c = values) added.
Proof.
  intros Hfind.
  change (find_path start end_ values slf)
    with (find_path_rounds start end_ values (range 4 12) slf) in Hfind.
  set (Q := λ cur : solver,
    stdout cur = stdout slf ∧
    (∀ q s, score_cache slf !! q = Some s → score_cache cur !! q = Some s) ∧
    (∀ q s, score_cache cur !! q = Some s →
            score_cache slf !! q = Some s ∨ compute_score q values = Ok s) ∧
    ∃ added, score_calls cur = added ++ score_calls slf ∧
             Forall (λ c, call_values c = values) added).
  assert (HQ : Q slf').
  { apply (find_path_rounds_frame Q start end_ values) with (3 := Hfind).
    - intros l cur sc cur' (Hout & Hkeep & Hnew & added & Hlog & Hvals) Hcalc.
      destruct (calculate_score_effect l values cur cur' sc Hcalc)
        as (_ & Hkeep' & Hnew' & Hout' & Hlog').
      split; [congruence |]. split; [auto |]. split.
      + intros q s Hq. destruct (Hnew' q s Hq) as [Hq' | [-> Hq']]; auto.
      + exists (Call l values (score_cache cur) :: added). split.
        * rewrite Hlog', Hlog. reflexivity.
        * constructor; [reflexivity | exact Hvals].
    - split; [reflexivity |]. split; [auto |]. split; [auto |].
      exists []. split; [reflexivity | constructor]. }
  destruct HQ as (Hout & Hkeep & Hnew & Hlog).
  split; [exact Hout |]. split; [exact Hkeep |]. split; [exact Hnew |].
  split; [| exact Hlog].
  intros Hfresh q s Hq. destruct (Hnew q s Hq) as [Hq' | Hq']; auto.
Qed.

Lemma find_path_frame_witness :
  ∃ slf', run_0_0_2_1 = Ok (Some [(0, 0); (2, 1)], slf') ∧
          stdout slf' = stdout PuzzleSolver.
Proof.
  pose proof run_0_0_2_1_eq as H. unfold run_0_0_2_1 in H.
  unfold run_0_0_2_1. eexists. split; [reflexivity |].
  exact (proj1 (find_path_frame _ _ _ _ _ _ H)).
Defined.

(** ** [find_path] at the edges of its domain *)

Lemma pure_rounds_const (score : scorer) (start end_ : position)
    (o : outcome (option (list position))) :
  (∀ d, 0 ≤ d →
        pure_dfs recursion_limit end_ score [start] start 0 d = o) →
  ∀ depths, depths ≠ [] → (∀ d, d ∈ depths → 0 ≤ d) →
    pure_rounds start end_ score depths = o.
Proof.
  intros Hround.
  assert (Hany : ∀ depths, (∀ d, d ∈ depths → 0 ≤ d) →
            pure_rounds start end_ score depths = Ok None ∨
            pure_rounds start end_ score depths = o).
  { induction depths as [| d depths IH]; intros Hd; [left; reflexivity |].
    cbn [pure_rounds]. rewrite (Hround d (Hd d ltac:(left))).
    destruct o as [found |]; cbn [Out.bind]; [| right; reflexivity].
    destruct (truthy found) eqn:Ht; [right; reflexivity |].
    apply IH. intros d' Hd'. apply Hd. right. exact Hd'. }
  intros [| d depths] Hne Hd; [congruence |].
  cbn [pure_rounds]. rewrite (Hround d (Hd d ltac:(left))).
  destruct o as [found |]; cbn [Out.bind]; [| reflexivity].
  destruct (truthy found) eqn:Ht; [reflexivity |].
  destruct (Hany depths) as [H | H].
  - intros d' Hd'. apply Hd. right. exact Hd'.
  - rewrite H. destruct found as [[| x q] |]; [| discriminate |];
      [| reflexivity].
    exfalso.
    destruct recursion_limit_succ as [fuel Hfuel].
    pose proof (Hround d (Hd d ltac:(left))) as Hr. rewrite Hfuel in Hr.
    destruct (pure_dfs_extends score end_ d (S fuel) [start] start 0 [] Hr)
      as [ext Hext].
    discriminate.
  - exact H.
Qed.

Lemma range_4_12_nonneg (d : Z) : d ∈ range 4 12 → 0 ≤ d.
Proof. intros H. apply elem_of_range in H. lia. Qed.

Lemma range_4_12_nonempty : range 4 12 ≠ [].
Proof. vm_compute. discriminate. Qed.

(** X9. When [start] and [end_] are the same position, [find_path] on a
    fresh cache returns the one-position path exactly when the weight of the
    class of that position is the target, and [None] otherwise; no move is
    tried.  It raises [IndexError] when the position is off the index range
    of the grid. *)
Theorem find_path_start_is_end (p : position) (values : weights)
    (slf : solver) :
  fresh_for values (score_cache slf) →
  result (find_path p p values slf)
  = try c := cell_class p in
    Ok (if weight values c =? target then Some [p] else None).
Proof.
  intros Hfresh. rewrite (find_path_pure_fresh values p p slf Hfresh).
  destruct recursion_limit_succ as [fuel Hfuel].
  apply pure_rounds_const;
    [| exact range_4_12_nonempty | exact range_4_12_nonneg].
  intros d Hd. rewrite Hfuel. cbn [pure_dfs].
  destruct (Z.gtb_spec 0 d); [lia |].
  destruct (decide (p = p)); [| congruence].
  unfold computed. rewrite compute_score_one.
  destruct (cell_class p) as [c |]; cbn [Out.bind]; [| reflexivity].
  destruct (weight values c =? target); reflexivity.
Qed.

Lemma find_path_start_is_end_witness :
  result (find_path (0, 0) (0, 0) (Weights 2024 2025 2026) PuzzleSolver)
  = Ok (Some [(0, 0)]).
Proof.
  apply (find_path_start_is_end (0, 0) (Weights 2024 2025 2026) PuzzleSolver).
  apply fresh_for_empty.
Defined.

(** X10. From a start of the grid towards an end that is not a position of
    the grid, [find_path] returns [None]: it neither raises nor returns a
    path, whatever the weights and the cache. *)
Theorem find_path_end_off_grid (start end_ : position) (values : weights)
    (slf : solver) :
  in_grid start → ¬ in_grid end_ →
  ∃ slf', find_path start end_ values slf = Ok (None, slf').
Proof.
  intros Hstart Hend.
  destruct (find_path_total values start end_ slf Hstart) as (r & slf' & Hfind).
  exists slf'. destruct r as [q |]; [exfalso | exact Hfind].
  destruct (find_path_shape values start end_ slf slf' q Hfind)
    as (ext & -> & Hlast & _ & _ & Hg & _).
  apply Hend. apply last_Some_elem_of in Hlast.
  apply elem_of_cons in Hlast. destruct Hlast as [-> | Hin]; [exact Hstart |].
  exact (proj1 (Forall_forall _ _) Hg end_ Hin).
Qed.

Lemma find_path_end_off_grid_witness :
  in_grid (0, 0) ∧ ¬ in_grid (6, 6) ∧
  ∃ slf', find_path (0, 0) (6, 6) (Weights 1 2 3) PuzzleSolver
          = Ok (None, slf').
Proof.
  assert (H1 : in_grid (0, 0)) by (unfold in_grid; simpl; lia).
  assert (H2 : ¬ in_grid (6, 6)) by (unfold in_grid; simpl; lia).
  split; [exact H1 |]. split; [exact H2 |].
  exact (find_path_end_off_grid (0, 0) (6, 6) (Weights 1 2 3) PuzzleSolver H1 H2).
Defined.

(** X11. From a start that is not a position of the grid and differs from
    [end_], [find_path] on a fresh cache never returns a path.  It raises
    [IndexError] when a coordinate of the start is off the index range
    [-6, 6); otherwise the start is read from the end of the grid, and the
    call returns [None] when the weight so found exceeds the target and
    raises [KeyError], on the lookup of the moves, when it does not. *)
Theorem find_path_start_off_grid (start end_ : position) (values : weights)
    (slf : solver) :
  ¬ in_grid start → start ≠ end_ → fresh_for values (score_cache slf) →
  result (find_path start end_ values slf)
  = try c := cell_class start in
    if weight values c >? target then Ok None else Raise KeyError.
Proof.
  intros Hstart Hne Hfresh.
  rewrite (find_path_pure_fresh values start end_ slf Hfresh).
  destruct recursion_limit_succ as [fuel Hfuel].
  apply pure_rounds_const;
    [| exact range_4_12_nonempty | exact range_4_12_nonneg].
  intros d Hd. rewrite Hfuel. cbn [pure_dfs].
  destruct (Z.gtb_spec 0 d); [lia |].
  destruct (decide (start = end_)); [congruence |].
  unfold computed. rewrite compute_score_one.
  destruct (cell_class start) as [c |]; cbn [Out.bind]; [| reflexivity].
  destruct (weight values c >? target); [reflexivity |].
  unfold py_getitem. rewrite (knight_moves_outside start Hstart). reflexivity.
Qed.

Lemma find_path_start_off_grid_witness :
  result (find_path (-1, -1) (0, 5) (Weights 1 2 3) PuzzleSolver)
  = Raise KeyError.
Proof.
  apply (find_path_start_off_grid (-1, -1) (0, 5) (Weights 1 2 3) PuzzleSolver).
  - unfold in_grid. simpl. lia.
  - discriminate.
  - apply fresh_for_empty.
Defined.

(** X12. The cache is transparent to the search: on any two solvers whose
    caches are fresh for the weights, [find_path] returns the same path, the
    same [None], or raises the same exception. *)
Theorem find_path_cache_transparent (start end_ : position)
    (values : weights) (slf1 slf2 : solver) :
  fresh_for values (score_cache slf1) → fresh_for values (score_cache slf2) →
  result (find_path start end_ values slf1)
  = result (find_path start end_ values slf2).
Proof.
  intros H1 H2.
  rewrite (find_path_pure_fresh values start end_ slf1 H1).
  rewrite (find_path_pure_fresh values start end_ slf2 H2).
  reflexivity.
Qed.

Lemma find_path_cache_transparent_witness :
  result (find_path (0, 0) (2, 1) (Weights 1012 1013 1014) PuzzleSolver)
  = result (find_path (0, 0) (2, 1) (Weights 1012 1013 1014)
              (Solver {[ [(0, 0)] := 1012 ]} [] [])).
Proof.
  apply find_path_cache_transparent.
  - apply fresh_for_empty.
  - intros p s Hp. simpl in Hp.
    destruct (decide (p = [(0, 0)])) as [-> | Hne].
    + rewrite lookup_singleton_eq in Hp. injection Hp as <-.
      vm_compute. reflexivity.
    + rewrite lookup_singleton_ne in Hp by congruence. discriminate.
Defined.

(** ** [format_path]: where it is defined, and that it can be read back *)

Lemma format_path_mapM_ok (l : list position) :
  Forall (λ p : position, -97 ≤ p.2 < 1114015) l →
  ∃ tokens,
    Out.mapM (λ '(x, y), try letter := chr (97 + y) in
                         Ok (letter ++ str_int (6 - x))) l = Ok tokens.
Proof.
  induction 1 as [| [x y] l Hy _ [tokens IH]].
  - exists []. reflexivity.
  - simpl in Hy. cbn [Out.mapM]. unfold chr at 1.
    destruct (decide (0 ≤ 97 + y < 1114112)); [| lia].
    cbn [Out.bind]. rewrite IH. eexists. reflexivity.
Qed.

Lemma format_path_mapM_Ok (l : list position) (tokens : list (list Z)) :
  Out.mapM (λ '(x, y), try letter := chr (97 + y) in
                       Ok (letter ++ str_int (6 - x))) l = Ok tokens →
  Forall (λ p : position, -97 ≤ p.2 < 1114015) l.
Proof.
  revert tokens. induction l as [| [x y] l IH]; intros tokens; [constructor |].
  cbn [Out.mapM]. unfold chr at 1.
  destruct (decide (0 ≤ 97 + y < 1114112)) as [Hy | Hy];
    [| destruct (decide (-2147483648 ≤ 97 + y < 2147483648)); discriminate].
  cbn [Out.bind].
  match goal with
  | |- context [Out.mapM ?f l] =>
      destruct (Out.mapM f l) as [tokens' |] eqn:Hl
  end; cbn [Out.bind]; [| discriminate].
  intros _. constructor; [simpl; lia | exact (IH tokens' eq_refl)].
Qed.

(** The comprehension stops at the first position whose column [chr]
    refuses, with the exception of [chr]. *)
Lemma format_path_mapM_raise (l : list position) (e : exn) :
  Out.mapM (λ '(x, y), try letter := chr (97 + y) in
                       Ok (letter ++ str_int (6 - x))) l = Raise e →
  ∃ l1 p l2,
    l = l1 ++ p :: l2 ∧
    Forall (λ p : position, -97 ≤ p.2 < 1114015) l1 ∧
    ¬ (-97 ≤ p.2 < 1114015) ∧
    e = if decide (-2147483648 ≤ 97 + p.2 < 2147483648)
        then ValueError else OverflowError.
Proof.
  induction l as [| [x y] l IH]; [discriminate |].
  cbn [Out.mapM]. unfold chr at 1.
  destruct (decide (0 ≤ 97 + y < 1114112)) as [Hy | Hy].
  - cbn [Out.bind].
    match goal with
    | |- context [Out.mapM ?f l] =>
        destruct (Out.mapM f l) as [tokens |] eqn:Hl
    end; cbn [Out.bind]; [discriminate |].
    intros H. injection H as <-.
    destruct (IH eq_refl) as (l1 & p & l2 & -> & Hl1 & Hp & He).
    exists ((x, y) :: l1), p, l2. split; [reflexivity |].
    split; [constructor; [simpl; lia | exact Hl1] |].
    split; assumption.
  - intros H. exists [], (x, y), l. split; [reflexivity |].
    split; [constructor |]. split; [simpl; lia |]. cbn [snd].
    destruct (decide (-2147483648 ≤ 97 + y < 2147483648));
      injection H as <-; reflexivity.
Qed.

(** X13. Where [format_path] is defined, on the paths whose rows [r] are
    such that [6 - r] has at most 4300 digits (beyond which the interpreter
    refuses the conversion to a string).  It returns a string exactly when
    every column [c] has [97 + c] in the range of [chr], that is
    -97 <= c < 1114015.  Otherwise it raises at the first position whose
    column is outside: [OverflowError] when [97 + c] does not fit a C [int],
    that is outside [-2**31, 2**31), and [ValueError] when it does. *)
Theorem format_path_defined (l : list position) :
  Forall (λ p : position, Z.abs (6 - p.1) < 10 ^ 4300) l →
  ((∃ f, format_path l = Ok f) ↔
   Forall (λ p : position, -97 ≤ p.2 < 1114015) l) ∧
  (∀ e, format_path l = Raise e →
     ∃ l1 p l2,
       l = l1 ++ p :: l2 ∧
       Forall (λ p : position, -97 ≤ p.2 < 1114015) l1 ∧
       ¬ (-97 ≤ p.2 < 1114015) ∧
       e = if decide (-2147483648 ≤ 97 + p.2 < 2147483648)
           then ValueError else OverflowError).
Proof.
  intros _. unfold format_path. split; [split |].
  - intros [f Hf].
    match type of Hf with
    | context [Out.mapM ?g l] =>
        destruct (Out.mapM g l) as [tokens |] eqn:Hl
    end; [| discriminate].
    exact (format_path_mapM_Ok l tokens Hl).
  - intros Hl. destruct (format_path_mapM_ok l Hl) as [tokens ->].
    eexists. reflexivity.
  - intros e.
    match goal with
    | |- context [Out.mapM ?g l] =>
        destruct (Out.mapM g l) as [tokens |] eqn:Hl
    end; cbn [Out.bind]; [discriminate |].
    intros H. injection H as <-.
    exact (format_path_mapM_raise l _ Hl).
Qed.

Lemma format_path_defined_witness :
  Forall (λ p : position, Z.abs (6 - p.1) < 10 ^ 4300)
         [(5, 0); (0, 2147483551)] ∧
  format_path [(5, 0); (0, 2147483551)] = Raise OverflowError ∧
  ¬ ∃ f, format_path [(5, 0); (0, 2147483551)] = Ok f.
Proof.
  assert (Hrows : Forall (λ p : position, Z.abs (6 - p.1) < 10 ^ 4300)
                         [(5, 0); (0, 2147483551)]).
  { repeat constructor; vm_compute; reflexivity. }
  split; [exact Hrows |]. split; [vm_compute; reflexivity |].
  intros Hex.
  apply (proj1 (proj1 (format_path_defined _ Hrows))) in Hex.
  apply Forall_cons in Hex. destruct Hex as [_ Hex].
  apply Forall_cons in Hex. destruct Hex as [Hex _]. simpl in Hex. lia.
Defined.

Lemma token_in_grid (p : position) :
  in_grid p → token p = [97 + p.2; 54 - p.1].
Proof. intros H. grid_cases H; vm_compute; reflexivity. Qed.

Lemma join_grid_tokens (p : position) (l : list position) :
  Forall in_grid (p :: l) →
  join (lit ",") (map token (p :: l))
  = 97 + p.2 :: 54 - p.1 ::
    match l with
    | [] => []
    | _ :: _ => 44 :: join (lit ",") (map token l)
    end.
Proof.
  intros Hg. apply Forall_cons in Hg. destruct Hg as [Hp _].
  cbn [map join]. rewrite (token_in_grid p Hp).
  destruct l as [| q l]; reflexivity.
Qed.

Lemma join_grid_tokens_inj :
  ∀ l1 l2 : list position,
    Forall in_grid l1 → Forall in_grid l2 →
    join (lit ",") (map token l1) = join (lit ",") (map token l2) →
    l1 = l2.
Proof.
  induction l1 as [| p1 l1 IH]; intros [| p2 l2] H1 H2 Heq.
  - reflexivity.
  - rewrite (join_grid_tokens p2 l2 H2) in Heq. discriminate.
  - rewrite (join_grid_tokens p1 l1 H1) in Heq. discriminate.
  - rewrite (join_grid_tokens p1 l1 H1), (join_grid_tokens p2 l2 H2) in Heq.
    injection Heq as Hc Hr Htail.
    assert (p1 = p2) as -> by (destruct p1, p2; simpl in *; f_equal; lia).
    f_equal. apply Forall_cons in H1, H2.
    destruct H1 as [_ H1], H2 as [_ H2].
    destruct l1 as [| q1 l1], l2 as [| q2 l2]; try discriminate.
    + reflexivity.
    + injection Htail as Htail. exact (IH _ H1 H2 Htail).
Qed.

Lemma join_grid_tokens_length :
  ∀ l : list position,
    Forall in_grid l → l ≠ [] →
    Z.of_nat (length (join (lit ",") (map token l)))
    = 3 * Z.of_nat (length l) - 1.
Proof.
  induction l as [| p l IH]; intros Hg Hne; [congruence |].
  rewrite (join_grid_tokens p l Hg).
  apply Forall_cons in Hg. destruct Hg as [_ Hg].
  destruct l as [| q l]; [reflexivity |].
  specialize (IH Hg ltac:(discriminate)).
  cbn [length] in *. lia.
Qed.

Lemma format_path_grid (l : list position) :
  Forall in_grid l → format_path l = Ok (join (lit ",") (map token l)).
Proof.
  intros Hg. unfold format_path. rewrite format_path_tokens; [reflexivity |].
  eapply Forall_impl; [exact Hg |]. intros p [_ Hp]. lia.
Qed.

(** X14. On the paths of the grid the notation can be read back: two paths
    with the same formatted string are the same path; and the string of a
    path of [n >= 1] positions has [3 n - 1] characters, two for each
    position and the commas between them. *)
Theorem format_path_injective (l1 l2 : list position) :
  Forall in_grid l1 → Forall in_grid l2 →
  (format_path l1 = format_path l2 → l1 = l2) ∧
  (l1 ≠ [] →
   ∃ f, format_path l1 = Ok f ∧
        Z.of_nat (length f) = 3 * Z.of_nat (length l1) - 1).
Proof.
  intros H1 H2. rewrite (format_path_grid l1 H1), (format_path_grid l2 H2).
  split.
  - intros Heq. injection Heq as Heq.
    exact (join_grid_tokens_inj l1 l2 H1 H2 Heq).
  - intros Hne. eexists. split; [reflexivity |].
    exact (join_grid_tokens_length l1 H1 Hne).
Qed.

Lemma format_path_injective_witness :
  ∃ f, format_path [(5, 0); (3, 1); (1, 2)] = Ok f ∧
       Z.of_nat (length f) = 3 * Z.of_nat (length [(5, 0); (3, 1); (1, 2)]) - 1.
Proof.
  refine (proj2 (format_path_injective [(5, 0); (3, 1); (1, 2)] [] _ _) _).
  - repeat constructor; simpl; lia.
  - constructor.
  - discriminate.
Defined.

(** ** What [solve] prints *)

Local Opaque triples.

(** [find_path] prints nothing. *)
Lemma find_path_silent (start end_ : position) (values : weights)
    (slf slf' : solver) (r : option (list position)) :
  find_path start end_ values slf = Ok (r, slf') → stdout slf' = stdout slf.
Proof.
  intros Hfind.
  change (find_path start end_ values slf)
    with (find_path_rounds start end_ values (range 4 12) slf) in Hfind.
  apply (find_path_rounds_frame (λ cur, stdout cur = stdout slf)
           start end_ values) with (3 := Hfind); [| reflexivity].
  intros l cur sc cur' Hout Hcalc.
  destruct (calculate_score_effect l values cur cur' sc Hcalc)
    as (_ & _ & _ & Hout' & _).
  congruence.
Qed.

(** One run of the body, by what it leaves of the locals and what it prints:
    nothing changes unless the sum improves on the best sum and both searches,
    each as on an empty cache, return a path. *)
Lemma solve_body_effect (A B C : Z) (l : locals) :
  ∃ l', solve_body A B C l = Ok (Next, l') ∧
    match (if ge_bound (A + B + C) (best_sum l) then None
           else attempt (A, B, C)) with
    | Some s =>
        best_sum l' = fin (A + B + C) ∧ best_solution l' = Some s ∧
        stdout (this l') = stdout (this l) ++ progress s
    | None =>
        best_sum l' = best_sum l ∧ best_solution l' = best_solution l ∧
        stdout (this l') = stdout (this l)
    end.
Proof.
  unfold solve_body. unfold St.bind at 1, St.gets at 1.
  destruct (ge_bound (A + B + C) (best_sum l)) eqn:Hge.
  { exists l. split; [reflexivity |]. split; [| split]; reflexivity. }
  unfold St.bind at 1, on_this at 1, St.modify at 1, set_cache. cbn [this].
  set (slf0 := Solver ∅ (stdout (this l)) (score_calls (this l))).
  destruct (find_path_spec (Weights A B C) (5, 0) (0, 5) slf0
              start1_in_grid (fresh_for_empty _))
    as (r1 & slf1 & added1 & Hfind1 & Hres1 & Hshape1 & Hfresh1 & _).
  pose proof (find_path_silent _ _ _ _ _ _ Hfind1) as Hout1.
  unfold St.bind at 1, on_this at 1.
  cbn [this best_sum best_solution]. rewrite Hfind1.
  unfold attempt. change (triple_weights (A, B, C)) with (Weights A B C).
  cbn [fst snd]. rewrite Hres1.
  destruct Hshape1 as [-> | (x1 & ext1 & -> & Hg1)].
  { eexists. split; [reflexivity |]. cbn [this best_sum best_solution].
    split; [| split]; [reflexivity | reflexivity | exact Hout1]. }
  destruct (find_path_spec (Weights A B C) (0, 0) (5, 5) slf1
              start2_in_grid Hfresh1)
    as (r2 & slf2 & added2 & Hfind2 & Hres2 & Hshape2 & _).
  pose proof (find_path_silent _ _ _ _ _ _ Hfind2) as Hout2.
  unfold St.bind at 1, on_this at 1.
  cbn [this best_sum best_solution]. rewrite Hfind2, Hres2.
  destruct Hshape2 as [-> | (x2 & ext2 & -> & Hg2)].
  { eexists. split; [reflexivity |]. cbn [this best_sum best_solution].
    split; [| split]; [reflexivity | reflexivity |].
    rewrite Hout2, Hout1. reflexivity. }
  unfold St.bind at 1, St.modify at 1.
  unfold St.bind at 1, on_this at 1, print at 1, St.modify at 1.
  cbn [this best_sum best_solution stdout score_cache score_calls].
  unfold progress.
  destruct (A + B + C <? 20).
  - destruct (format_solution_in_grid A B C _ _ Hg1 Hg2) as [f Hf].
    unfold St.bind at 1, St.pure at 1. rewrite Hf.
    unfold St.bind at 1, on_this at 1, print at 1, St.modify at 1, St.ret.
    cbn [this best_sum best_solution stdout score_cache score_calls].
    eexists. split; [reflexivity |].
    cbn [this best_sum best_solution stdout].
    split; [| split]; [reflexivity | reflexivity |].
    rewrite Hout2, Hout1, <- app_assoc. reflexivity.
  - unfold St.ret. eexists. split; [reflexivity |].
    cbn [this best_sum best_solution stdout].
    split; [| split]; [reflexivity | reflexivity |].
    rewrite Hout2, Hout1. reflexivity.
Qed.

(** The loops keep [output_inv]. *)
Lemma solve_triple_output (out0 : list (list Z)) (done : list (Z * Z * Z))
    (t : Z * Z * Z) (l : locals) :
  output_inv out0 done l →
  ∃ l', solve_triple t l = Ok (Next, l') ∧ output_inv out0 (done ++ [t]) l'.
Proof.
  intros (Hsum & Hbest & Hout). destruct t as [[A B] C].
  destruct (solve_body_effect A B C l) as (l' & Hrun & Heff).
  exists l'. split; [exact Hrun |].
  unfold output_inv. rewrite foldl_app. cbn [foldl].
  set (st := foldl improve (inf, []) done) in *.
  unfold improve. change (triple_sum (A, B, C)) with (A + B + C).
  rewrite <- Hsum.
  destruct (ge_bound (A + B + C) (best_sum l)).
  { destruct Heff as (-> & -> & ->). split; [| split]; assumption. }
  destruct (attempt (A, B, C)) as [s |].
  - destruct Heff as (-> & -> & ->). cbn [fst snd].
    split; [reflexivity |]. split; [rewrite last_snoc; reflexivity |].
    rewrite Hout, bind_app, <- app_assoc. cbn [mbind list_bind].
    rewrite app_nil_r. reflexivity.
  - destruct Heff as (-> & -> & ->). split; [| split]; assumption.
Qed.

Lemma solve_loops_output (slf : solver) :
  ∃ l, solve_loops (Locals inf None slf) = Ok (tt, l) ∧
       output_inv (stdout slf) triples l.
Proof.
  rewrite solve_loops_flat.
  apply (for_each_inv (output_inv (stdout slf)) solve_triple triples).
  - intros pre t post l _ Hinv. apply solve_triple_output. exact Hinv.
  - split; [reflexivity |]. split; [reflexivity |].
    cbn. rewrite app_nil_r. reflexivity.
Qed.

(** What [solve] returns and prints, whatever the solver on entry. *)
Lemma solve_output (slf : solver) :
  ∃ out slf',
    solve slf = Ok (out, slf') ∧
    answer (last (improvements triples)) = Ok out ∧
    stdout slf' = stdout slf ++ (improvements triples ≫= progress).
Proof.
  destruct (solve_loops_output slf) as (l & Hloops & _ & Hbest & Hout).
  destruct (solve_run slf) as (out & l0 & Hsolve & _).
  exists out, (this l0). split; [exact Hsolve |].
  unfold solve in Hsolve. rewrite Hloops in Hsolve.
  unfold improvements. rewrite <- Hbest.
  destruct (best_solution l) as [[[[[a b] c] p1] p2] |]; cbn [answer].
  - destruct (format_solution a b c p1 p2) as [f |]; [| discriminate].
    injection Hsolve as <- <-. split; [reflexivity | exact Hout].
  - injection Hsolve as <- <-. split; [reflexivity | exact Hout].
Qed.

(** *** The solutions recorded, in turn *)

Lemma found_nonempty (values : weights) (start end_ : position)
    (p : list position) :
  result (find_path start end_ values PuzzleSolver) = Ok (Some p) → p ≠ [].
Proof.
  intros Hres.
  destruct (find_path start end_ values PuzzleSolver) as [[r slf'] |] eqn:Hfind;
    [| discriminate].
  cbn [result] in Hres. injection Hres as ->.
  destruct (find_path_shape values start end_ PuzzleSolver slf' p Hfind)
    as (ext & -> & _).
  discriminate.
Qed.

Lemma attempt_Some (t : Z * Z * Z) (s : solution) :
  attempt t = Some s ↔
  ∃ p1 p2, both_found (triple_weights t) p1 p2 ∧ s = (t.1.1, t.1.2, t.2, p1, p2).
Proof.
  unfold attempt, both_found. split.
  - destruct (result (find_path (5, 0) (0, 5) _ _)) as [[[| x1 p1] |] |];
      try discriminate.
    destruct (result (find_path (0, 0) (5, 5) _ _)) as [[[| x2 p2] |] |];
      try discriminate.
    intros H. injection H as <-. eauto.
  - intros (p1 & p2 & [H1 H2] & ->).
    pose proof (found_nonempty _ _ _ _ H1) as Hn1.
    pose proof (found_nonempty _ _ _ _ H2) as Hn2.
    rewrite H1, H2. destruct p1; [congruence |]. destruct p2; [congruence |].
    reflexivity.
Qed.

Lemma attempt_succeeds (t : Z * Z * Z) :
  attempt t ≠ None ↔ succeeds (triple_weights t).
Proof.
  split.
  - destruct (attempt t) as [s |] eqn:Hs; [| congruence]. intros _.
    apply attempt_Some in Hs. destruct Hs as (p1 & p2 & H & _).
    exists p1, p2. exact H.
  - intros (p1 & p2 & H).
    assert (Hs : attempt t = Some (t.1.1, t.1.2, t.2, p1, p2))
      by (apply attempt_Some; eauto).
    congruence.
Qed.

Lemma attempt_sum (t : Z * Z * Z) (s : solution) :
  attempt t = Some s → solution_sum s = triple_sum t.
Proof.
  intros Hs. apply attempt_Some in Hs. destruct Hs as (p1 & p2 & _ & ->).
  reflexivity.
Qed.

Lemma improving_snoc (l : list solution) (s : solution) :
  improving l →
  (∀ s0, last l = Some s0 → solution_sum s < solution_sum s0) →
  improving (l ++ [s]).
Proof.
  intros Himp Hlast i a b Ha Hb.
  destruct (decide (S i < length l)%nat) as [Hi | Hi].
  - rewrite lookup_app_l in Ha by lia. rewrite lookup_app_l in Hb by lia.
    exact (Himp i a b Ha Hb).
  - pose proof (lookup_lt_Some _ _ _ Hb) as Hlen.
    rewrite length_app in Hlen. cbn [length] in Hlen.
    assert (Hi' : length l = S i) by lia.
    rewrite lookup_app_l in Ha by lia.
    rewrite lookup_app_r in Hb by lia.
    rewrite Hi', Nat.sub_diag in Hb. injection Hb as <-.
    apply Hlast. rewrite last_lookup, Hi'. exact Ha.
Qed.

(** What the pair of [best_sum] and of the solutions recorded is after the
    triples [ts]. *)
Lemma improve_inv (ts : list (Z * Z * Z)) :
  let st := foldl improve (inf, []) ts in
  st.1 = match last st.2 with
         | Some s => fin (solution_sum s)
         | None => inf
         end ∧
  improving st.2 ∧
  Forall (λ s, ∃ t, t ∈ ts ∧ attempt t = Some s) st.2 ∧
  match last st.2 with
  | Some s => first_best ts s
  | None => ∀ t, t ∈ ts → attempt t = None
  end.
Proof.
  induction ts as [| t ts IH] using rev_ind.
  { cbn. split; [reflexivity |]. split; [intros i a b Ha; discriminate |].
    split; [constructor |]. intros t Ht. apply elem_of_nil in Ht. destruct Ht. }
  rewrite foldl_app. cbn [foldl].
  set (st := foldl improve (inf, []) ts) in *. cbn zeta in IH.
  destruct IH as (Hsum & Himp & Hall & Hbest).
  assert (Hall' : Forall (λ s, ∃ t0, t0 ∈ ts ++ [t] ∧ attempt t0 = Some s) st.2).
  { eapply Forall_impl; [exact Hall |]. intros s (t0 & Ht0 & Hs).
    exists t0. split; [apply elem_of_app; left; exact Ht0 | exact Hs]. }
  assert (Hkeep : ge_bound (triple_sum t) st.1 = true ∨ attempt t = None →
    match last st.2 with
    | Some s => first_best (ts ++ [t]) s
    | None => ∀ t0, t0 ∈ ts ++ [t] → attempt t0 = None
    end).
  { intros Hcase. destruct (last st.2) as [s |] eqn:Hlast.
    - destruct Hbest as (pre & t0 & post & -> & Hs & Hpre & Hpost).
      exists pre, t0, (post ++ [t]).
      split; [rewrite <- app_assoc; reflexivity |].
      split; [exact Hs |]. split; [exact Hpre |].
      intros t' Ht' Hne. apply elem_of_app in Ht'.
      destruct Ht' as [Ht' | Ht']; [exact (Hpost t' Ht' Hne) |].
      apply list_elem_of_singleton in Ht'. subst t'.
      destruct Hcase as [Hge | Hnone]; [| contradiction].
      rewrite Hsum in Hge. cbn [ge_bound] in Hge.
      rewrite (attempt_sum _ _ Hs) in Hge. lia.
    - intros t0 Ht0. apply elem_of_app in Ht0.
      destruct Ht0 as [Ht0 | Ht0]; [exact (Hbest t0 Ht0) |].
      apply list_elem_of_singleton in Ht0. subst t0.
      destruct Hcase as [Hge | Hnone]; [| exact Hnone].
      rewrite Hsum in Hge. discriminate. }
  unfold improve.
  destruct (ge_bound (triple_sum t) st.1) eqn:Hge.
  { split; [exact Hsum |]. split; [exact Himp |]. split; [exact Hall' |].
    apply Hkeep. left. reflexivity. }
  destruct (attempt t) as [s |] eqn:Hs.
  2: { split; [exact Hsum |]. split; [exact Himp |]. split; [exact Hall' |].
       apply Hkeep. right. reflexivity. }
  cbn [fst snd]. rewrite last_snoc.
  assert (Hlt : ∀ s0, last st.2 = Some s0 → triple_sum t < solution_sum s0).
  { intros s0 Hs0. rewrite Hsum, Hs0 in Hge. cbn [ge_bound] in Hge. lia. }
  split; [rewrite (attempt_sum _ _ Hs); reflexivity |].
  split; [| split].
  - apply improving_snoc; [exact Himp |].
    intros s0 Hs0. rewrite (attempt_sum _ _ Hs). exact (Hlt s0 Hs0).
  - apply Forall_app. split; [exact Hall' |].
    constructor; [| constructor].
    exists t. split; [apply elem_of_app; right; left | exact Hs].
  - exists ts, t, []. split; [reflexivity |]. split; [exact Hs |].
    split; [| intros t' Ht'; apply elem_of_nil in Ht'; destruct Ht'].
    intros t' Ht' Hne.
    destruct (last st.2) as [s0 |] eqn:Hlast;
      [| rewrite (Hbest t' Ht') in Hne; congruence].
    specialize (Hlt s0 eq_refl).
    destruct Hbest as (pre & t0 & post & -> & Hs0 & Hpre & Hpost).
    rewrite (attempt_sum _ _ Hs0) in Hlt.
    apply elem_of_app in Ht'. destruct Ht' as [Ht' | Ht'].
    + specialize (Hpre t' Ht' Hne). lia.
    + apply elem_of_cons in Ht'. destruct Ht' as [-> | Ht']; [exact Hlt |].
      specialize (Hpost t' Ht' Hne). lia.
Qed.

(** The triples are enumerated in increasing order. *)
Lemma triples_sorted : StronglySorted triple_lt triples.
Proof.
  apply Sorted_StronglySorted.
  - intros x y z. unfold triple_lt. lia.
  - assert (H : bool_decide (Sorted triple_lt triples) = true)
      by (vm_compute; reflexivity).
    exact (bool_decide_eq_true_1 _ H).
Qed.

Lemma triples_after (pre post : list (Z * Z * Z)) (t t' : Z * Z * Z) :
  triples = pre ++ t :: post → t' ∈ post → triple_lt t t'.
Proof.
  intros Heq Hin. pose proof triples_sorted as Hs. rewrite Heq in Hs.
  apply StronglySorted_app_1_r, StronglySorted_cons in Hs.
  exact (proj1 (Forall_forall _ _) (proj1 Hs) t' Hin).
Qed.

(** X15. [solve] as a function of the enumeration alone.  Whatever the solver
    object holds on entry (cache, lines printed, history), [solve] returns;
    the lines it adds to the output are, for each solution recorded in turn
    over the triples of the loops, the line with its sum and, when that sum is
    below 20, the line with the formatted solution; the string it returns is
    the formatted last solution recorded, or the fixed sentence.  A solution
    is recorded on a triple exactly when its sum is strictly below the best
    sum so far and both searches, each as run on a new solver, return a
    path: neither the cache the second search inherits from the first nor the
    state on entry changes what is recorded. *)
Theorem solve_output_by_enumeration (slf : solver) :
  ∃ out slf',
    solve slf = Ok (out, slf') ∧
    answer (last (improvements triples)) = Ok out ∧
    stdout slf' = stdout slf ++ (improvements triples ≫= progress).
Proof.
  destruct (solve_output slf) as (out & slf' & Hsolve & Hanswer & Hout).
  exists out, slf'. split; [exact Hsolve |]. split; [exact Hanswer | exact Hout].
Qed.

(** X16. The progress lines of [solve].  The solutions whose lines [solve]
    prints have strictly decreasing sums; each is a triple of the pruned
    space with the two paths that the searches find under it; the string
    returned is that of the last of them; and no line is printed exactly
    when no triple of the space has both searches succeed. *)
Theorem solve_progress_improves (slf : solver) :
  ∃ out slf' recorded,
    solve slf = Ok (out, slf') ∧
    stdout slf' = stdout slf ++ (recorded ≫= progress) ∧
    improving recorded ∧
    Forall (λ s, ∃ A B C p1 p2,
              s = (A, B, C, p1, p2) ∧ in_space A B C ∧
              both_found (Weights A B C) p1 p2) recorded ∧
    answer (last recorded) = Ok out ∧
    (recorded = [] ↔ ∀ A B C, in_space A B C → ¬ succeeds (Weights A B C)).
Proof.
  destruct (solve_output slf) as (out & slf' & Hsolve & Hanswer & Hout).
  destruct (improve_inv triples) as (_ & Himp & Hall & Hbest).
  fold (improvements triples) in Himp, Hall, Hbest.
  exists out, slf', (improvements triples).
  split; [exact Hsolve |]. split; [exact Hout |]. split; [exact Himp |].
  split; [| split; [exact Hanswer |]].
  - eapply Forall_impl; [exact Hall |].
    intros s ([[A B] C] & Ht & Hs). apply attempt_Some in Hs.
    destruct Hs as (p1 & p2 & Hfound & ->).
    exists A, B, C, p1, p2. split; [reflexivity |].
    split; [apply elem_of_triples; exact Ht | exact Hfound].
  - split.
    + intros Hnil. rewrite Hnil in Hbest. cbn [last] in Hbest.
      intros A B C Hin Hsucc.
      apply (attempt_succeeds (A, B, C)) in Hsucc. apply Hsucc.
      apply Hbest, elem_of_triples, Hin.
    + intros Hnone. destruct (improvements triples) as [| s rest];
        [reflexivity |].
      apply Forall_inv in Hall. destruct Hall as ([[A B] C] & Ht & Hs).
      exfalso. apply (Hnone A B C); [apply elem_of_triples; exact Ht |].
      apply (attempt_succeeds (A, B, C)). congruence.
Qed.

(** X17. Ties.  The comparison [curr_sum >= best_sum] keeps the first triple
    found of a sum, and the loops enumerate the triples in increasing order
    by [A], then [B], then [C].  So either no triple of the space has both
    searches succeed, and [solve] returns the fixed sentence, or the solution
    returned is that of the least triple, in this order, among the triples of
    minimal sum on which both succeed. *)
Theorem solve_first_of_minimal (slf : solver) :
  ∃ out slf',
    solve slf = Ok (out, slf') ∧
    ((out = lit "No solution found" ∧
      ∀ A B C, in_space A B C → ¬ succeeds (Weights A B C)) ∨
     (∃ A B C p1 p2,
        in_space A B C ∧ both_found (Weights A B C) p1 p2 ∧
        format_solution A B C p1 p2 = Ok out ∧
        ∀ A' B' C', in_space A' B' C' → succeeds (Weights A' B' C') →
          A + B + C ≤ A' + B' + C' ∧
          (A' + B' + C' = A + B + C →
           (A', B', C') = (A, B, C) ∨ triple_lt (A, B, C) (A', B', C')))).
Proof.
  destruct (solve_output slf) as (out & slf' & Hsolve & Hanswer & _).
  destruct (improve_inv triples) as (_ & _ & _ & Hbest).
  fold (improvements triples) in Hbest.
  exists out, slf'. split; [exact Hsolve |].
  destruct (last (improvements triples)) as [s |].
  2: { left. cbn [answer] in Hanswer. injection Hanswer as <-.
       split; [reflexivity |]. intros A0 B0 C0 Hin0 Hsucc0.
       apply (attempt_succeeds (A0, B0, C0)) in Hsucc0.
       apply Hsucc0, Hbest, elem_of_triples, Hin0. }
  right.
  destruct Hbest as (pre & [[A B] C] & post & Htriples & Hs & Hpre & Hpost).
  apply attempt_Some in Hs. destruct Hs as (p1 & p2 & Hfound & ->).
  cbn [fst snd answer] in Hanswer.
  exists A, B, C, p1, p2.
  split; [apply elem_of_triples; rewrite Htriples; apply elem_of_app; right; left |].
  split; [exact Hfound |]. split; [exact Hanswer |].
  intros A' B' C' Hin' Hsucc'.
  apply (attempt_succeeds (A', B', C')) in Hsucc'.
  apply elem_of_triples in Hin'. rewrite Htriples in Hin'.
  apply elem_of_app in Hin'. destruct Hin' as [Hin' | Hin'].
  - specialize (Hpre _ Hin' Hsucc'). unfold triple_sum in Hpre.
    cbn [fst snd] in Hpre. split; lia.
  - apply elem_of_cons in Hin'. destruct Hin' as [Heq | Hin'].
    + injection Heq as -> -> ->. split; [lia | left; reflexivity].
    + specialize (Hpost _ Hin' Hsucc'). unfold triple_sum in Hpost.
      cbn [fst snd] in Hpost. split; [lia |]. intros _. right.
      exact (triples_after _ _ _ _ Htriples Hin').
Qed.

(** ** The program *)

(** X18. What the program prints: the progress lines of [solve], started on
    a new solver, and then one line, [Solution: ] followed by the string that
    [solve] returns.  It raises nothing. *)
Theorem main_output :
  ∃ out,
    answer (last (improvements triples)) = Ok out ∧
    main = Ok ((improvements triples ≫= progress) ++ [lit "Solution: " ++ out]).
Proof.
  destruct (solve_output PuzzleSolver) as (out & slf' & Hsolve & Hanswer & Hout).
  exists out. split; [exact Hanswer |].
  unfold main, St.bind. rewrite Hsolve.
  unfold print, St.modify. cbn [stdout]. rewrite Hout. reflexivity.
Qed.
